(** * codex2cc: the Codex app-server client (src/codex-client.js)

    A shallow embedding of [CodexAppServerClient] and of the helpers it is
    built from, followed by the properties of the design document that can
    be stated over it.

    - [Js]: the fragment of JavaScript values and operators the client uses.
    - [Responder]: [defaultToolAnswer], [makeServerRequestUnsupportedError]
      and [#buildServerRequestResult].
    - [TurnWaiter]: the closure built by [#createTurnWaiter].
    - [Client]: the whole object, run by an event loop with a promise heap
      and a microtask queue. *)

From Stdlib Require Import ZArith Lia.
From stdpp Require Import base option list strings pretty gmap fin_maps.

Set Default Proof Using "Type".
Set Warnings "-register-all,-clear-no-such-hyp".
Open Scope Z_scope.

(** ** JavaScript values *)

Module Js.

(** Values as [JSON.parse] produces them, plus [undefined] (the result of
    reading an absent property) and [Error] objects (what the client throws
    and rejects with).  Numbers are integers: every number the client
    inspects is a request id, a token count or a duration.  An object is
    its list of own properties; [get_field] reads the first binding of a
    key. *)
Inductive value :=
| VUndef
| VNull
| VBool (b : bool)
| VNum (n : Z)
| VStr (s : string)
| VArr (xs : list value)
| VObj (fields : list (string * value))
| VError (msg : string).

Fixpoint get_field (k : string) (fs : list (string * value)) : option value :=
  match fs with
  | [] => None
  | (k', v) :: fs' => if String.eqb k k' then Some v else get_field k fs'
  end.

Definition nullish (v : value) : bool :=
  match v with VUndef | VNull => true | _ => false end.

(** [v.k] on a value that is not [null] or [undefined]: none of the names
    the client reads is a built-in property of a string, number, boolean
    or array, so only objects answer (and [Error] objects for
    [message]). *)
Definition field (v : value) (k : string) : value :=
  match v with
  | VObj fs => default VUndef (get_field k fs)
  | VError m => if String.eqb k "message" then VStr m else VUndef
  | _ => VUndef
  end.

(** [v.k]: a TypeError ([None]) on [null] and [undefined]. *)
Definition prop (v : value) (k : string) : option value :=
  if nullish v then None else Some (field v k).

(** [v?.k] *)
Definition oprop (v : value) (k : string) : value :=
  if nullish v then VUndef else field v k.

(** [a ?? b] *)
Definition coalesce (a b : value) : value := if nullish a then b else a.

(** ToBoolean *)
Definition truthy (v : value) : bool :=
  match v with
  | VUndef | VNull => false
  | VBool b => b
  | VNum n => negb (n =? 0)
  | VStr s => negb (String.eqb s "")
  | VArr _ | VObj _ | VError _ => true
  end.

(** [a || b] *)
Definition or_else (a b : value) : value := if truthy a then a else b.

(** [a === b] for two values that come from different parses (or from a
    parse and a literal): primitives compare by value, arrays and objects
    are distinct references. *)
Definition strict_eq (a b : value) : bool :=
  match a, b with
  | VUndef, VUndef | VNull, VNull => true
  | VBool x, VBool y => bool_decide (x = y)
  | VNum x, VNum y => x =? y
  | VStr x, VStr y => String.eqb x y
  | _, _ => false
  end.

Definition is_string (v : value) : bool :=
  match v with VStr _ => true | _ => false end.

(** ToString, as template literals, [new Error(x)] and computed property
    keys apply it. *)
Fixpoint to_string (v : value) : string :=
  match v with
  | VUndef => "undefined"
  | VNull => "null"
  | VBool true => "true"
  | VBool false => "false"
  | VNum n => pretty n
  | VStr s => s
  | VArr xs =>
      (fix join (l : list value) : string :=
         match l with
         | [] => ""
         | x :: l' =>
             (if nullish x then "" else to_string x) +:+
             match l' with [] => "" | _ => "," +:+ join l' end
         end) xs
  | VObj _ => "[object Object]"
  | VError m => "Error: " +:+ m
  end.

(** [new Error(x)] *)
Definition new_error (x : value) : value :=
  match x with
  | VUndef => VError ""
  | _ => VError (to_string x)
  end.

(** [Object.prototype.hasOwnProperty.call(v, k)] for the keys the client
    asks about ("id", "result", "error"): a TypeError on [null] and
    [undefined], false on the other primitives and on arrays. *)
Definition has_own (v : value) (k : string) : option bool :=
  match v with
  | VUndef | VNull => None
  | VObj fs => Some (bool_decide (is_Some (get_field k fs)))
  | _ => Some false
  end.

(** [obj[k] = v] on an object built by the client: an existing key keeps
    its place, a new key goes last; assigning to [__proto__] replaces the
    prototype and creates no own property.  (The engine lists integer-like
    keys first; the order is not used below.) *)
Fixpoint assign (k : string) (v : value) (fs : list (string * value))
  : list (string * value) :=
  match fs with
  | [] => [(k, v)]
  | (k', v') :: fs' =>
      if String.eqb k k' then (k, v) :: fs' else (k', v') :: assign k v fs'
  end.

Definition set_field (k : string) (v : value) (fs : list (string * value))
  : list (string * value) :=
  if String.eqb k "__proto__" then fs else assign k v fs.

(** The values a [for (const x of v)] loop visits: the elements of an
    array, the characters of a string; anything else is not iterable. *)
Definition iterate (v : value) : option (list value) :=
  match v with
  | VArr xs => Some xs
  | VStr s => Some ((λ c, VStr (String c EmptyString)) <$> String.list_ascii_of_string s)
  | _ => None
  end.

End Js.

(** ** Exceptions *)

(** A computation that returns or throws.  The text of the TypeError an
    engine raises is not modelled: the client only logs it. *)
Inductive completion (A : Type) :=
| Return (a : A)
| Throw (e : Js.value).
Arguments Return {A} a.
Arguments Throw {A} e.

#[global] Instance completion_ret : MRet completion := λ A a, Return a.
#[global] Instance completion_bind : MBind completion := λ A B k c,
  match c with
  | Return a => k a
  | Throw e => Throw e
  end.

Definition type_error : Js.value := Js.VError "TypeError".

Definition or_type_error {A} (o : option A) : completion A :=
  match o with
  | Some a => Return a
  | None => Throw type_error
  end.

(** ** The server-initiated request responder *)

Module Responder.
Import Js.

(** [defaultToolAnswer(question)] *)
Definition defaultToolAnswer (question : value) : completion value :=
  options ← or_type_error (prop question "options");
  match options with
  | VArr (first :: _) =>
      label ← or_type_error (prop first "label");
      Return (VObj [("answers", VArr [label])])
  | _ =>
      Return (VObj [("answers",
                VArr [if truthy (field question "isOther")
                      then VStr "other" else VStr "yes"])])
  end.

(** [makeServerRequestUnsupportedError(method)] *)
Definition makeServerRequestUnsupportedError (method : string) : value :=
  VObj [("code", VNum (-32000));
        ("message", VStr ("Unsupported server request method: " +:+ method))].

(** The loop of the "item/tool/requestUserInput" case:
    [answers[question.id] = defaultToolAnswer(question)] for each
    question. *)
Fixpoint collectAnswers (questions : list value) (answers : list (string * value))
  : completion (list (string * value)) :=
  match questions with
  | [] => Return answers
  | question :: rest =>
      id ← or_type_error (prop question "id");
      answer ← defaultToolAnswer question;
      collectAnswers rest (set_field (to_string id) answer answers)
  end.

(** [#buildServerRequestResult(method, params)] *)
Definition buildServerRequestResult (method : string) (params : value)
  : completion value :=
  if String.eqb method "item/commandExecution/requestApproval" then
    Return (VObj [("decision", VStr "accept")])
  else if String.eqb method "item/fileChange/requestApproval" then
    Return (VObj [("decision", VStr "accept")])
  else if String.eqb method "execCommandApproval" then
    Return (VObj [("decision", VStr "approved")])
  else if String.eqb method "applyPatchApproval" then
    Return (VObj [("decision", VStr "approved")])
  else if String.eqb method "item/tool/requestUserInput" then
    questions ← or_type_error
      (iterate (coalesce (oprop params "questions") (VArr [])));
    answers ← collectAnswers questions [];
    Return (VObj [("answers", VObj answers)])
  else if String.eqb method "item/tool/call" then
    Return (VObj [("success", VBool false);
                  ("contentItems",
                   VArr [VObj [("type", VStr "inputText");
                               ("text", VStr "Dynamic tool calls are not supported by this gateway.")]])])
  else
    Throw (VError ("Unsupported server request: " +:+ method)).

(** The frame [#handleServerRequest(message)] hands to [#writeMessage]:
    the result of the [try] block, or the error frame of the [catch]
    block.  [method] is a string by the classification in [#handleLine]. *)
Definition serverRequestReply (message : value) : value :=
  let id := field message "id" in
  let params := field message "params" in
  match field message "method" with
  | VStr method =>
      match buildServerRequestResult method params with
      | Return result =>
          VObj [("jsonrpc", VStr "2.0"); ("id", id); ("result", result)]
      | Throw _ =>
          VObj [("jsonrpc", VStr "2.0"); ("id", id);
                ("error", makeServerRequestUnsupportedError method)]
      end
  | _ => VUndef
  end.




End Responder.

(** ** The turn waiter *)

Module TurnWaiter.
Import Js.

(** The variables closed over by [#createTurnWaiter(threadId, timeoutMs)]. *)
Record waiter := Waiter {
  w_threadId : value;
  w_timeoutMs : Z;
  turnId : value;
  latestAgentMessage : string;
  aggregatedAgentDeltas : string;
  usage : value;
  settled : bool
}.

Definition set_turnId (v : value) (w : waiter) : waiter :=
  Waiter (w_threadId w) (w_timeoutMs w) v (latestAgentMessage w)
         (aggregatedAgentDeltas w) (usage w) (settled w).
Definition set_latestAgentMessage (s : string) (w : waiter) : waiter :=
  Waiter (w_threadId w) (w_timeoutMs w) (turnId w) s
         (aggregatedAgentDeltas w) (usage w) (settled w).
Definition set_aggregatedAgentDeltas (s : string) (w : waiter) : waiter :=
  Waiter (w_threadId w) (w_timeoutMs w) (turnId w) (latestAgentMessage w)
         s (usage w) (settled w).
Definition set_usage (v : value) (w : waiter) : waiter :=
  Waiter (w_threadId w) (w_timeoutMs w) (turnId w) (latestAgentMessage w)
         (aggregatedAgentDeltas w) v (settled w).
Definition set_settled (b : bool) (w : waiter) : waiter :=
  Waiter (w_threadId w) (w_timeoutMs w) (turnId w) (latestAgentMessage w)
         (aggregatedAgentDeltas w) (usage w) b.

(** What the closure does to the rest of the client, in the order it does
    it: [clearTimeout(timeoutId)], [off()], [resolvePromise(v)],
    [rejectPromise(e)]. *)
Inductive effect :=
| ClearTimeout
| Off
| ResolvePromise (v : value)
| RejectPromise (e : value).

(** The state right after [#createTurnWaiter] returns. *)
Definition createTurnWaiter (threadId : value) (timeoutMs : Z) : waiter :=
  Waiter threadId timeoutMs VNull "" "" VNull false.

(** [finish(handler)]; [handler] reads the closure's variables. *)
Definition finish (handler : waiter → effect) (w : waiter) : waiter * list effect :=
  if settled w then (w, [])
  else
    let w' := set_settled true w in
    (w', [ClearTimeout; Off; handler w']).

(** [!turnId || id === turnId] *)
Definition admits (w : waiter) (id : value) : bool :=
  negb (truthy (turnId w)) || strict_eq id (turnId w).

(** [if (!turnId && id) { turnId = id; }] *)
Definition learn (id : value) (w : waiter) : waiter :=
  if negb (truthy (turnId w)) && truthy id then set_turnId id w else w.

Definition resolveCompleted (w : waiter) : effect :=
  ResolvePromise
    (VObj [("text", VStr (if negb (String.eqb (latestAgentMessage w) "")
                          then latestAgentMessage w
                          else aggregatedAgentDeltas w));
           ("usage", usage w)]).

(** [notificationHandler(message)] *)
Definition notificationHandler (w : waiter) (message : value)
  : waiter * list effect :=
  let method := field message "method" in
  let params := coalesce (field message "params") (VObj []) in
  let for_thread := strict_eq (field params "threadId") (w_threadId w) in
  if strict_eq method (VStr "item/agentMessage/delta") && for_thread then
    if admits w (field params "turnId") then
      let w := learn (field params "turnId") w in
      let delta := match field params "delta" with VStr d => d | _ => "" end in
      (set_aggregatedAgentDeltas (aggregatedAgentDeltas w +:+ delta) w, [])
    else (w, [])
  else if strict_eq method (VStr "item/completed") && for_thread then
    if admits w (field params "turnId") then
      let w := learn (field params "turnId") w in
      if strict_eq (oprop (field params "item") "type") (VStr "agentMessage") then
        match field (field params "item") "text" with
        | VStr text => (set_latestAgentMessage text w, [])
        | _ => (w, [])
        end
      else (w, [])
    else (w, [])
  else if strict_eq method (VStr "thread/tokenUsage/updated") && for_thread then
    if admits w (field params "turnId") then
      let w := learn (field params "turnId") w in
      let last := oprop (oprop params "tokenUsage") "last" in
      (set_usage
         (VObj [("inputTokens", coalesce (oprop last "inputTokens") (VNum 0));
                ("outputTokens", coalesce (oprop last "outputTokens") (VNum 0))])
         w, [])
    else (w, [])
  else if strict_eq method (VStr "error") && for_thread then
    if admits w (field params "turnId") then
      let w := learn (field params "turnId") w in
      if negb (truthy (field params "willRetry")) then
        finish (λ _,
          let messageText :=
            coalesce (oprop (oprop params "error") "message") (VStr "Turn failed.") in
          RejectPromise (new_error messageText)) w
      else (w, [])
    else (w, [])
  else if strict_eq method (VStr "turn/completed") && for_thread then
    let id := oprop (field params "turn") "id" in
    if admits w id then
      let w := learn id w in
      let status := oprop (oprop params "turn") "status" in
      if strict_eq status (VStr "completed") then
        finish resolveCompleted w
      else
        finish (λ _,
          let details :=
            or_else (oprop (oprop (oprop params "turn") "error") "message")
                    (VStr "turn did not complete") in
          RejectPromise
            (VError ("Turn " +:+ to_string (coalesce status (VStr "unknown"))
                     +:+ ": " +:+ to_string details))) w
    else (w, [])
  else (w, []).

(** The callback of [setTimeout(..., timeoutMs)]. *)
Definition onTimeout (w : waiter) : waiter * list effect :=
  finish (λ w,
    RejectPromise
      (VError ("Turn timed out after " +:+ pretty (w_timeoutMs w) +:+ "ms."))) w.

(** [setTurnId(value)] *)
Definition setTurnId (v : value) (w : waiter) : waiter := set_turnId v w.

(** [dispose()] *)
Definition dispose (w : waiter) : waiter * list effect :=
  if settled w then (w, [])
  else (set_settled true w, [ClearTimeout; Off]).

(** *** One waiter on its own

    Everything that can be done to a waiter, in any order: a notification
    is handed to its listener, its deadline timer fires, [#runTurn] binds
    the turn id or disposes of it.  (The client itself delivers less: no
    notification after [off()], no timer after [clearTimeout].) *)
Inductive input :=
| Notify (message : value)
| Deadline
| SetTurnId (v : value)
| Dispose.

Definition react (w : waiter) (i : input) : waiter * list effect :=
  match i with
  | Notify message => notificationHandler w message
  | Deadline => onTimeout w
  | SetTurnId v => (setTurnId v w, [])
  | Dispose => dispose w
  end.

(** The waiter after a sequence of inputs, with every effect so far. *)
Fixpoint run (w : waiter) (inputs : list input) : waiter * list effect :=
  match inputs with
  | [] => (w, [])
  | i :: inputs' =>
      let '(w1, es1) := react w i in
      let '(w2, es2) := run w1 inputs' in
      (w2, es1 ++ es2)
  end.

Definition is_settlement (e : effect) : bool :=
  match e with ResolvePromise _ | RejectPromise _ => true | _ => false end.

Definition is_off (e : effect) : bool :=
  match e with Off => true | _ => false end.

(** What the promise delivers: a promise keeps its first settlement. *)
Definition delivered (es : list effect) : option effect :=
  head (filter (λ e, is_settlement e = true) es).

Definition settlements (es : list effect) : nat :=
  length (filter (λ e, is_settlement e = true) es).

Definition unsubscriptions (es : list effect) : nat :=
  length (filter (λ e, is_off e = true) es).

(** *** The notifications of one turn

    The events the process emits for thread [th] and turn [tu], and the
    JSON messages that carry them. *)
Inductive turn_event :=
| AgentDelta (delta : string)
| AgentMessage (text : string)
| OtherItem (type : string)
| TokenUsage (inputTokens outputTokens : option Z)
| RetryingError (message : string).

Definition notification (method : string) (params : list (string * value)) : value :=
  VObj [("jsonrpc", VStr "2.0"); ("method", VStr method); ("params", VObj params)].

Definition optional_field (k : string) (o : option Z) : list (string * value) :=
  match o with Some n => [(k, VNum n)] | None => [] end.

Definition encode (th tu : string) (e : turn_event) : value :=
  let ids := [("threadId", VStr th); ("turnId", VStr tu)] in
  match e with
  | AgentDelta d =>
      notification "item/agentMessage/delta" (ids ++ [("delta", VStr d)])
  | AgentMessage t =>
      notification "item/completed"
        (ids ++ [("item", VObj [("type", VStr "agentMessage"); ("text", VStr t)])])
  | OtherItem ty =>
      notification "item/completed" (ids ++ [("item", VObj [("type", VStr ty)])])
  | TokenUsage i o =>
      notification "thread/tokenUsage/updated"
        (ids ++ [("tokenUsage",
                  VObj [("last", VObj (optional_field "inputTokens" i ++
                                       optional_field "outputTokens" o))])])
  | RetryingError m =>
      notification "error"
        (ids ++ [("willRetry", VBool true); ("error", VObj [("message", VStr m)])])
  end.

Definition turn_completed (th tu status : string) : value :=
  notification "turn/completed"
    [("threadId", VStr th);
     ("turn", VObj [("id", VStr tu); ("status", VStr status)])].

(** The shape [{inputTokens: number, outputTokens: number}]. *)
Definition usage_shape (v : value) : Prop :=
  ∃ i o : Z, v = VObj [("inputTokens", VNum i); ("outputTokens", VNum o)].

(** The shape [{text: string, usage: {inputTokens: number, outputTokens: number}}]. *)
Definition result_shape (v : value) : Prop :=
  ∃ (t : string) (u : value), v = VObj [("text", VStr t); ("usage", u)] ∧ usage_shape u.

End TurnWaiter.

(** ** The client *)

Module Client.
Import Js.

(** The options [loadConfig] provides that the client reads. *)
Record config := Config {
  codexPath : string;
  workdir : string;
  autoApprove : bool;
  sandboxMode : string;
  autoRestart : bool;
  requestTimeoutMs : Z;
  restartDelayMs : Z
}.

(** What the client observes of a [ChildProcess]: [child.killed] and
    [child.stdin.writable]. *)
Record child_process := ChildProcess {
  killed : bool;
  writable : bool
}.

(** *** Promises

    A promise is named by the place that creates it and a serial number:
    - [(Tq, 0)] is the [Promise.resolve()] of the constructor;
    - the [i]-th call of [queueTurn] creates [(Result, i)], the promise
      [result]; [(Tq, i)], the new [this.turnQueue]; and [(Caller, i)],
      the promise the [async] function returns; its task, once called,
      creates [(RunTurn, i)], the promise of that [#runTurn] call;
    - [(Ensure, n)] is the promise returned by the [n]-th [ensureReady]
      call;
    - [(Start, n)] and [(StartInternal, n)] are the [n]-th
      [this.startPromise] and the promise of its [#startInternal] call;
    - [(Request, id)] is the promise [#sendRequest] returns for request
      [id];
    - [(Settlement, w)] is the promise of the [w]-th turn waiter. *)
Inductive site :=
| Tq | Result | Caller | RunTurn | Ensure | Start | StartInternal
| Request | Settlement.

#[global] Instance site_eq_dec : EqDecision site.
Proof. solve_decision. Defined.

Definition site_to_nat (s : site) : nat :=
  match s with
  | Tq => 0 | Result => 1 | Caller => 2 | RunTurn => 3 | Ensure => 4
  | Start => 5 | StartInternal => 6 | Request => 7 | Settlement => 8
  end%nat.

Definition site_of_nat (n : nat) : site :=
  match n with
  | 0 => Tq | 1 => Result | 2 => Caller | 3 => RunTurn | 4 => Ensure
  | 5 => Start | 6 => StartInternal | 7 => Request | _ => Settlement
  end%nat.

#[global] Instance site_countable : Countable site.
Proof. refine (inj_countable' site_to_nat site_of_nat _). by intros []. Defined.

Abbreviation pid := (site * nat)%type.

Inductive outcome :=
| Fulfilled (v : value)
| Rejected (e : value).

(** The arguments of [queueTurn(inputText, timeoutMs, model)]. *)
Record turn_args := TurnArgs {
  inputText : string;
  timeoutMs : Z;
  model : value
}.

(** The code that runs when a promise settles: the callbacks handed to
    [then] and the rest of an [async] function after an [await]. *)
Inductive kont :=
| KTask (i : nat) (args : turn_args)
    (** [this.turnQueue.then(task, task)], which settles [(Result, i)] *)
| KUndefined (i : nat)
    (** [result.then(() => undefined, () => undefined)], which settles [(Tq, i)] *)
| KResolveResult (i : nat)
    (** [(Result, i)] follows the promise its callback returned *)
| KReturnResult (i : nat)
    (** [return result] in [queueTurn]: [(Caller, i)] follows [result] *)
| KReturnStart (n : nat)
    (** [return this.startPromise] in [ensureReady]: [(Ensure, n)] follows it *)
| KStartSettle (n : nat)
    (** [this.#startInternal().then(resolve, reject)] of [(Start, n)] *)
| KEnsureFinally (n : nat)
    (** [ensureReady] after [await this.startPromise] *)
| KStartInternal1 (n : nat)
    (** [#startInternal] after [await this.#sendRequest("initialize", ...)] *)
| KStartInternal2 (n : nat)
    (** [#startInternal] after [await this.#sendRequest("thread/start", ...)] *)
| KRunTurn1 (i : nat) (args : turn_args)
    (** [#runTurn] after [await this.ensureReady()] *)
| KRunTurn2 (i w : nat)
    (** [#runTurn] after [await this.#sendRequest("turn/start", ...)] *)
| KRunTurn3 (i w : nat)
    (** [#runTurn] after [await turnWaiter.promise] *)
| KRestartFailed.
    (** the [catch] of the restart timer, which only logs *)

Record promise := Promise {
  settlement : option outcome;
  reactions : list kont
}.

(** The callback of a [setTimeout]. *)
Inductive timer :=
| RequestTimer (id : nat) (method : string)
| TurnTimer (w : nat)
| RestartTimer.

(** An entry [{ resolve, reject, timeoutId }] of [this.pendingRequests]
    under key [id]: [resolve] and [reject] settle [(Request, id)].
    [method] is a history field, the method the request was sent for. *)
Record pending := Pending {
  timeoutId : nat;
  method : string
}.

(** A turn waiter: its closure and the timer it armed. *)
Record turn_waiter := TurnWaiterEntry {
  closure : TurnWaiter.waiter;
  deadline : nat
}.

(** The promises created so far, the reactions ready to run (oldest
    first), and a history of every call of a resolve or reject function. *)
Record promise_heap := Heap {
  promises : gmap pid promise;
  microtasks : list (kont * outcome);
  settleLog : list (pid * outcome)
}.

Definition set_microtasks (x : list (kont * outcome)) (h : promise_heap) : promise_heap :=
  Heap (promises h) x (settleLog h).

Record state := State {
  child : option child_process;  (** [this.child] *)
  readline : bool;  (** [this.readline] is set *)
  pendingRequests : list (nat * pending);  (** [this.pendingRequests], in insertion order *)
  requestCounter : nat;  (** [this.requestCounter] *)
  notificationListeners : list nat;  (** [this.notificationListeners]: the waiters subscribed, in insertion order *)
  threadId : value;  (** [this.threadId] *)
  turnQueue : nat;  (** [this.turnQueue] is the promise [(Tq, turnQueue)] *)
  startPromise : option nat;  (** [this.startPromise], a promise [(Start, n)] *)
  startReject : option nat;  (** [this._startReject], the reject function of [(Start, n)] *)
  isStopping : bool;  (** [this.isStopping] *)
  heap : promise_heap;  (** the promises and the microtask queue *)
  timers : gmap nat (Z * timer);  (** the armed timers, with their delays *)
  waiters : gmap nat turn_waiter;  (** the closures built by [#createTurnWaiter] *)
  nextTimer : nat;
  nextWaiter : nat;
  nextTurn : nat;
  nextEnsure : nat;
  nextStart : nat;
  written : list value;  (** every frame written to the standard input of a child *)
  crashed : bool;  (** an exception escaped an event handler *)
  removedLog : list nat;  (** history: every id taken out of [pendingRequests] *)
  startedLog : list nat  (** history: every turn whose task was called *)
}.

Definition set_child (x : option child_process) (st : state) : state :=
  State x (readline st) (pendingRequests st) (requestCounter st)
    (notificationListeners st) (threadId st) (turnQueue st) (startPromise st)
    (startReject st) (isStopping st) (heap st) (timers st) (waiters st)
    (nextTimer st) (nextWaiter st) (nextTurn st) (nextEnsure st)
    (nextStart st) (written st) (crashed st) (removedLog st) (startedLog st).
Definition set_readline (x : bool) (st : state) : state :=
  State (child st) x (pendingRequests st) (requestCounter st)
    (notificationListeners st) (threadId st) (turnQueue st) (startPromise st)
    (startReject st) (isStopping st) (heap st) (timers st) (waiters st)
    (nextTimer st) (nextWaiter st) (nextTurn st) (nextEnsure st)
    (nextStart st) (written st) (crashed st) (removedLog st) (startedLog st).
Definition set_pendingRequests (x : list (nat * pending)) (st : state) : state :=
  State (child st) (readline st) x (requestCounter st)
    (notificationListeners st) (threadId st) (turnQueue st) (startPromise st)
    (startReject st) (isStopping st) (heap st) (timers st) (waiters st)
    (nextTimer st) (nextWaiter st) (nextTurn st) (nextEnsure st)
    (nextStart st) (written st) (crashed st) (removedLog st) (startedLog st).
Definition set_requestCounter (x : nat) (st : state) : state :=
  State (child st) (readline st) (pendingRequests st) x
    (notificationListeners st) (threadId st) (turnQueue st) (startPromise st)
    (startReject st) (isStopping st) (heap st) (timers st) (waiters st)
    (nextTimer st) (nextWaiter st) (nextTurn st) (nextEnsure st)
    (nextStart st) (written st) (crashed st) (removedLog st) (startedLog st).
Definition set_notificationListeners (x : list nat) (st : state) : state :=
  State (child st) (readline st) (pendingRequests st) (requestCounter st) x
    (threadId st) (turnQueue st) (startPromise st) (startReject st)
    (isStopping st) (heap st) (timers st) (waiters st) (nextTimer st)
    (nextWaiter st) (nextTurn st) (nextEnsure st) (nextStart st) (written st)
    (crashed st) (removedLog st) (startedLog st).
Definition set_threadId (x : value) (st : state) : state :=
  State (child st) (readline st) (pendingRequests st) (requestCounter st)
    (notificationListeners st) x (turnQueue st) (startPromise st)
    (startReject st) (isStopping st) (heap st) (timers st) (waiters st)
    (nextTimer st) (nextWaiter st) (nextTurn st) (nextEnsure st)
    (nextStart st) (written st) (crashed st) (removedLog st) (startedLog st).
Definition set_turnQueue (x : nat) (st : state) : state :=
  State (child st) (readline st) (pendingRequests st) (requestCounter st)
    (notificationListeners st) (threadId st) x (startPromise st)
    (startReject st) (isStopping st) (heap st) (timers st) (waiters st)
    (nextTimer st) (nextWaiter st) (nextTurn st) (nextEnsure st)
    (nextStart st) (written st) (crashed st) (removedLog st) (startedLog st).
Definition set_startPromise (x : option nat) (st : state) : state :=
  State (child st) (readline st) (pendingRequests st) (requestCounter st)
    (notificationListeners st) (threadId st) (turnQueue st) x (startReject st)
    (isStopping st) (heap st) (timers st) (waiters st) (nextTimer st)
    (nextWaiter st) (nextTurn st) (nextEnsure st) (nextStart st) (written st)
    (crashed st) (removedLog st) (startedLog st).
Definition set_startReject (x : option nat) (st : state) : state :=
  State (child st) (readline st) (pendingRequests st) (requestCounter st)
    (notificationListeners st) (threadId st) (turnQueue st) (startPromise st)
    x (isStopping st) (heap st) (timers st) (waiters st) (nextTimer st)
    (nextWaiter st) (nextTurn st) (nextEnsure st) (nextStart st) (written st)
    (crashed st) (removedLog st) (startedLog st).
Definition set_isStopping (x : bool) (st : state) : state :=
  State (child st) (readline st) (pendingRequests st) (requestCounter st)
    (notificationListeners st) (threadId st) (turnQueue st) (startPromise st)
    (startReject st) x (heap st) (timers st) (waiters st) (nextTimer st)
    (nextWaiter st) (nextTurn st) (nextEnsure st) (nextStart st) (written st)
    (crashed st) (removedLog st) (startedLog st).
Definition set_heap (x : promise_heap) (st : state) : state :=
  State (child st) (readline st) (pendingRequests st) (requestCounter st)
    (notificationListeners st) (threadId st) (turnQueue st) (startPromise st)
    (startReject st) (isStopping st) x (timers st) (waiters st) (nextTimer st)
    (nextWaiter st) (nextTurn st) (nextEnsure st) (nextStart st) (written st)
    (crashed st) (removedLog st) (startedLog st).
Definition set_timers (x : gmap nat (Z * timer)) (st : state) : state :=
  State (child st) (readline st) (pendingRequests st) (requestCounter st)
    (notificationListeners st) (threadId st) (turnQueue st) (startPromise st)
    (startReject st) (isStopping st) (heap st) x (waiters st) (nextTimer st)
    (nextWaiter st) (nextTurn st) (nextEnsure st) (nextStart st) (written st)
    (crashed st) (removedLog st) (startedLog st).
Definition set_waiters (x : gmap nat turn_waiter) (st : state) : state :=
  State (child st) (readline st) (pendingRequests st) (requestCounter st)
    (notificationListeners st) (threadId st) (turnQueue st) (startPromise st)
    (startReject st) (isStopping st) (heap st) (timers st) x (nextTimer st)
    (nextWaiter st) (nextTurn st) (nextEnsure st) (nextStart st) (written st)
    (crashed st) (removedLog st) (startedLog st).
Definition set_nextTimer (x : nat) (st : state) : state :=
  State (child st) (readline st) (pendingRequests st) (requestCounter st)
    (notificationListeners st) (threadId st) (turnQueue st) (startPromise st)
    (startReject st) (isStopping st) (heap st) (timers st) (waiters st) x
    (nextWaiter st) (nextTurn st) (nextEnsure st) (nextStart st) (written st)
    (crashed st) (removedLog st) (startedLog st).
Definition set_nextWaiter (x : nat) (st : state) : state :=
  State (child st) (readline st) (pendingRequests st) (requestCounter st)
    (notificationListeners st) (threadId st) (turnQueue st) (startPromise st)
    (startReject st) (isStopping st) (heap st) (timers st) (waiters st)
    (nextTimer st) x (nextTurn st) (nextEnsure st) (nextStart st) (written st)
    (crashed st) (removedLog st) (startedLog st).
Definition set_nextTurn (x : nat) (st : state) : state :=
  State (child st) (readline st) (pendingRequests st) (requestCounter st)
    (notificationListeners st) (threadId st) (turnQueue st) (startPromise st)
    (startReject st) (isStopping st) (heap st) (timers st) (waiters st)
    (nextTimer st) (nextWaiter st) x (nextEnsure st) (nextStart st)
    (written st) (crashed st) (removedLog st) (startedLog st).
Definition set_nextEnsure (x : nat) (st : state) : state :=
  State (child st) (readline st) (pendingRequests st) (requestCounter st)
    (notificationListeners st) (threadId st) (turnQueue st) (startPromise st)
    (startReject st) (isStopping st) (heap st) (timers st) (waiters st)
    (nextTimer st) (nextWaiter st) (nextTurn st) x (nextStart st) (written st)
    (crashed st) (removedLog st) (startedLog st).
Definition set_nextStart (x : nat) (st : state) : state :=
  State (child st) (readline st) (pendingRequests st) (requestCounter st)
    (notificationListeners st) (threadId st) (turnQueue st) (startPromise st)
    (startReject st) (isStopping st) (heap st) (timers st) (waiters st)
    (nextTimer st) (nextWaiter st) (nextTurn st) (nextEnsure st) x
    (written st) (crashed st) (removedLog st) (startedLog st).
Definition set_written (x : list value) (st : state) : state :=
  State (child st) (readline st) (pendingRequests st) (requestCounter st)
    (notificationListeners st) (threadId st) (turnQueue st) (startPromise st)
    (startReject st) (isStopping st) (heap st) (timers st) (waiters st)
    (nextTimer st) (nextWaiter st) (nextTurn st) (nextEnsure st)
    (nextStart st) x (crashed st) (removedLog st) (startedLog st).
Definition set_crashed (x : bool) (st : state) : state :=
  State (child st) (readline st) (pendingRequests st) (requestCounter st)
    (notificationListeners st) (threadId st) (turnQueue st) (startPromise st)
    (startReject st) (isStopping st) (heap st) (timers st) (waiters st)
    (nextTimer st) (nextWaiter st) (nextTurn st) (nextEnsure st)
    (nextStart st) (written st) x (removedLog st) (startedLog st).
Definition set_removedLog (x : list nat) (st : state) : state :=
  State (child st) (readline st) (pendingRequests st) (requestCounter st)
    (notificationListeners st) (threadId st) (turnQueue st) (startPromise st)
    (startReject st) (isStopping st) (heap st) (timers st) (waiters st)
    (nextTimer st) (nextWaiter st) (nextTurn st) (nextEnsure st)
    (nextStart st) (written st) (crashed st) x (startedLog st).
Definition set_startedLog (x : list nat) (st : state) : state :=
  State (child st) (readline st) (pendingRequests st) (requestCounter st)
    (notificationListeners st) (threadId st) (turnQueue st) (startPromise st)
    (startReject st) (isStopping st) (heap st) (timers st) (waiters st)
    (nextTimer st) (nextWaiter st) (nextTurn st) (nextEnsure st)
    (nextStart st) (written st) (crashed st) (removedLog st) x.

(** *** [Map] operations, on an association list in insertion order *)

Fixpoint map_get {A} (k : nat) (m : list (nat * A)) : option A :=
  match m with
  | [] => None
  | (k', a) :: m' => if decide (k = k') then Some a else map_get k m'
  end.

Fixpoint map_set {A} (k : nat) (a : A) (m : list (nat * A)) : list (nat * A) :=
  match m with
  | [] => [(k, a)]
  | (k', a') :: m' =>
      if decide (k = k') then (k, a) :: m' else (k', a') :: map_set k a m'
  end.

Definition map_delete {A} (k : nat) (m : list (nat * A)) : list (nat * A) :=
  filter (λ x, x.1 ≠ k) m.

(** [set.delete(x)] on a [Set] kept as a duplicate-free list. *)
Definition set_delete (x : nat) (s : list nat) : list nat :=
  filter (λ y, y ≠ x) s.

(** [set.add(x)] *)
Definition set_add (x : nat) (s : list nat) : list nat :=
  if decide (x ∈ s) then s else s ++ [x].

(** *** The promise heap *)

Definition h_alloc (p : pid) (h : promise_heap) : promise_heap :=
  Heap (<[p := Promise None []]> (promises h)) (microtasks h) (settleLog h).

(** Calling the resolve function of [p] with a value that is not a
    promise, or its reject function: only the first call has an effect;
    the reactions become microtasks. *)
Definition h_settle (p : pid) (o : outcome) (h : promise_heap) : promise_heap :=
  match promises h !! p with
  | Some (Promise None ks) =>
      Heap (<[p := Promise (Some o) []]> (promises h))
           (microtasks h ++ ((λ k, (k, o)) <$> ks))
           (settleLog h ++ [(p, o)])
  | _ => Heap (promises h) (microtasks h) (settleLog h ++ [(p, o)])
  end.

(** [p.then(...)], [await p], and resolving another promise with [p]:
    the reaction waits for [p], or is queued at once when [p] is settled. *)
Definition h_subscribe (p : pid) (k : kont) (h : promise_heap) : promise_heap :=
  match promises h !! p with
  | Some (Promise None ks) =>
      Heap (<[p := Promise None (ks ++ [k])]> (promises h)) (microtasks h) (settleLog h)
  | Some (Promise (Some o) _) =>
      Heap (promises h) (microtasks h ++ [(k, o)]) (settleLog h)
  | None => h
  end.

Definition on_heap (f : promise_heap → promise_heap) (st : state) : state :=
  set_heap (f (heap st)) st.

Definition alloc (p : pid) : state → state := on_heap (h_alloc p).
Definition settle (p : pid) (o : outcome) : state → state := on_heap (h_settle p o).
Definition subscribe (p : pid) (k : kont) : state → state := on_heap (h_subscribe p k).

(** *** Timers *)

Definition setTimeout (cb : timer) (delay : Z) (st : state) : nat * state :=
  let t := nextTimer st in
  (t, set_nextTimer (S t) (set_timers (<[t := (delay, cb)]> (timers st)) st)).

Definition clearTimeout (t : nat) (st : state) : state :=
  set_timers (delete t (timers st)) st.

(** *** Strings *)

Definition is_space (c : Ascii.ascii) : bool :=
  let n := Ascii.nat_of_ascii c in
  bool_decide (n = 32 ∨ (9 ≤ n ∧ n ≤ 13))%nat.

Fixpoint trim_start (s : string) : string :=
  match s with
  | String c s' => if is_space c then trim_start s' else s
  | EmptyString => EmptyString
  end.

(** [s.trim()], for the ASCII white space. *)
Definition trim (s : string) : string :=
  String.rev (trim_start (String.rev (trim_start s))).

Definition quote : string := String (Ascii.ascii_of_nat 34) EmptyString.

Definition hex_digit (n : nat) : Ascii.ascii :=
  Ascii.ascii_of_nat (if decide (n < 10)%nat then 48 + n else 87 + n).

(** One character inside a JSON string literal. *)
Definition escape (c : Ascii.ascii) : string :=
  let n := Ascii.nat_of_ascii c in
  if decide (n = 34)%nat then "\" +:+ quote
  else if decide (n = 92)%nat then "\\"
  else if decide (n = 8)%nat then "\b"
  else if decide (n = 12)%nat then "\f"
  else if decide (n = 10)%nat then "\n"
  else if decide (n = 13)%nat then "\r"
  else if decide (n = 9)%nat then "\t"
  else if decide (n < 32)%nat then
    "\u00" +:+ String (hex_digit (n / 16)) (String (hex_digit (n mod 16)) EmptyString)
  else String c EmptyString.

Fixpoint escape_string (s : string) : string :=
  match s with
  | EmptyString => EmptyString
  | String c s' => escape c +:+ escape_string s'
  end.

Definition json_string (s : string) : string := quote +:+ escape_string s +:+ quote.

(** [JSON.stringify(v)] for a value that is not [undefined]. *)
Fixpoint stringify (v : value) : string :=
  match v with
  | VUndef | VNull => "null"
  | VBool true => "true"
  | VBool false => "false"
  | VNum n => pretty n
  | VStr s => json_string s
  | VArr xs =>
      "[" +:+
      (fix items (l : list value) : string :=
         match l with
         | [] => ""
         | x :: l' =>
             stringify x +:+ match l' with [] => "" | _ => "," +:+ items l' end
         end) xs +:+ "]"
  | VObj fs =>
      "{" +:+
      (fix members (l : list (string * value)) (first : bool) : string :=
         match l with
         | [] => ""
         | (k, x) :: l' =>
             match x with
             | VUndef => members l' first
             | _ =>
                 (if first then "" else ",") +:+ json_string k +:+ ":" +:+
                 stringify x +:+ members l' false
             end
         end) fs true +:+ "}"
  | VError _ => "{}"
  end.

(** [messageFromJsonRpcError(error)] *)
Definition messageFromJsonRpcError (error : value) : string :=
  if negb (truthy error) then "Unknown JSON-RPC error"
  else match error with
       | VStr s => s
       | _ =>
           match field error "message" with
           | VStr m => m
           | _ => stringify error
           end
       end.

(** The defaults of [loadConfig], for a working directory [/work]. *)
Definition defaults : config :=
  Config "codex" "/work" true "workspace-write" true 30000 1000.

(** *** The methods of [CodexAppServerClient] *)

(** [new CodexAppServerClient(config)] *)
Definition initial : state :=
  State None false [] 1 [] VNull 0 None None false
        (Heap {[ (Tq, 0%nat) := Promise (Some (Fulfilled VUndef)) [] ]} [] [])
        ∅ ∅ 0 0 1 0 0 [] false [] [].

Definition child_alive (st : state) : bool :=
  match child st with
  | Some c => negb (killed c)
  | None => false
  end.

(** [#writeMessage(message)]; the frame is recorded before
    [JSON.stringify]. *)
Definition writeMessage (message : value) (st : state) : completion state :=
  match child st with
  | Some c =>
      if negb (killed c) && writable c
      then Return (set_written (written st ++ [message]) st)
      else Throw (VError "Codex app-server stdin is not writable.")
  | None => Throw (VError "Codex app-server stdin is not writable.")
  end.

(** [#sendNotification(method)]; the client never passes [params]. *)
Definition sendNotification (method : string) (st : state) : completion state :=
  writeMessage (VObj [("jsonrpc", VStr "2.0"); ("method", VStr method)]) st.

(** [this.pendingRequests.delete(id)] *)
Definition forget (id : nat) (st : state) : state :=
  match map_get id (pendingRequests st) with
  | Some _ =>
      set_removedLog (removedLog st ++ [id])
        (set_pendingRequests (map_delete id (pendingRequests st)) st)
  | None => st
  end.

(** [#sendRequest(method, params)]: the promise it returns, or what it
    throws. *)
Definition sendRequest (cfg : config) (method : string) (params : value)
    (st : state) : completion pid * state :=
  if negb (child_alive st) then
    (Throw (VError "Codex process is not running."), st)
  else
    let id := requestCounter st in
    let st := set_requestCounter (S id) st in
    let payload :=
      VObj [("jsonrpc", VStr "2.0"); ("id", VNum (Z.of_nat id));
            ("method", VStr method); ("params", params)] in
    let st := alloc (Request, id) st in
    let '(t, st) := setTimeout (RequestTimer id method) (requestTimeoutMs cfg) st in
    let st := set_pendingRequests
                (map_set id (Pending t method) (pendingRequests st)) st in
    match writeMessage payload st with
    | Return st => (Return (Request, id), st)
    | Throw error =>
        let st := clearTimeout t st in
        let st := forget id st in
        (Return (Request, id), settle (Request, id) (Rejected error) st)
    end.

(** [#spawnProcess()]: a fresh child has a writable standard input.  Its
    "line", "error" and "exit" listeners are the labels [Line],
    [ChildError] and [Exit] of the event loop. *)
Definition spawnProcess (st : state) : state :=
  if child_alive st then st
  else set_readline true (set_child (Some (ChildProcess false true)) st).

(** [this.child.kill("SIGTERM")] *)
Definition kill (st : state) : state :=
  match child st with
  | Some c => set_child (Some (ChildProcess true (writable c))) st
  | None => st
  end.

Definition initializeParams : value :=
  VObj [("clientInfo", VObj [("name", VStr "codex-gateway"); ("version", VStr "0.1.0")]);
        ("capabilities", VNull)].

Definition threadStartParams (cfg : config) : value :=
  VObj [("cwd", VStr (workdir cfg));
        ("approvalPolicy", VStr (if autoApprove cfg then "never" else "on-request"));
        ("sandbox", VStr (sandboxMode cfg));
        ("experimentalRawEvents", VBool false);
        ("persistExtendedHistory", VBool false)].

(** [#startInternal()], up to its first [await]; [(StartInternal, n)] is
    the promise of the call. *)
Definition startInternal (cfg : config) (n : nat) (st : state) : state :=
  let self := (StartInternal, n) in
  let st := alloc self st in
  if isStopping st then
    settle self (Rejected (VError "Codex client is stopping.")) st
  else
    let st := spawnProcess st in
    match sendRequest cfg "initialize" initializeParams st with
    | (Return request, st) => subscribe request (KStartInternal1 n) st
    | (Throw error, st) => settle self (Rejected error) st
    end.

(** [ensureReady()], up to its first [await]; returns the serial number
    of the promise of the call. *)
Definition ensureReady (cfg : config) (st : state) : nat * state :=
  let n := nextEnsure st in
  let self := (Ensure, n) in
  let st := alloc self (set_nextEnsure (S n) st) in
  if truthy (threadId st) && child_alive st then
    (n, settle self (Fulfilled VUndef) st)
  else
    match startPromise st with
    | Some s => (n, subscribe (Start, s) (KReturnStart n) st)
    | None =>
        let s := nextStart st in
        let st := alloc (Start, s) (set_nextStart (S s) st) in
        let st := set_startReject (Some s) st in
        let st := startInternal cfg s st in
        let st := subscribe (StartInternal, s) (KStartSettle s) st in
        let st := set_startPromise (Some s) st in
        (n, subscribe (Start, s) (KEnsureFinally n) st)
    end.

(** Applying what a waiter's closure did to the client. *)
Definition perform (w : nat) (t : nat) (e : TurnWaiter.effect) (st : state) : state :=
  match e with
  | TurnWaiter.ClearTimeout => clearTimeout t st
  | TurnWaiter.Off =>
      set_notificationListeners (set_delete w (notificationListeners st)) st
  | TurnWaiter.ResolvePromise v => settle (Settlement, w) (Fulfilled v) st
  | TurnWaiter.RejectPromise e => settle (Settlement, w) (Rejected e) st
  end.

(** Calling one of the functions of waiter [w]. *)
Definition call_waiter (w : nat)
    (f : TurnWaiter.waiter → TurnWaiter.waiter * list TurnWaiter.effect)
    (st : state) : state :=
  match waiters st !! w with
  | Some entry =>
      let '(c, es) := f (closure entry) in
      let st := set_waiters (<[w := TurnWaiterEntry c (deadline entry)]> (waiters st)) st in
      foldl (λ st e, perform w (deadline entry) e st) st es
  | None => st
  end.

(** [#createTurnWaiter(threadId, timeoutMs)]; returns the serial number
    of the waiter. *)
Definition createTurnWaiter (threadId : value) (timeoutMs : Z) (st : state)
  : nat * state :=
  let w := nextWaiter st in
  let st := alloc (Settlement, w) (set_nextWaiter (S w) st) in
  let st := set_notificationListeners (set_add w (notificationListeners st)) st in
  let '(t, st) := setTimeout (TurnTimer w) timeoutMs st in
  (w, set_waiters
        (<[w := TurnWaiterEntry (TurnWaiter.createTurnWaiter threadId timeoutMs) t]>
           (waiters st)) st).

Definition turnStartParams (threadId : value) (args : turn_args) : value :=
  VObj ([("threadId", threadId);
         ("input", VArr [VObj [("type", VStr "text");
                               ("text", VStr (inputText args));
                               ("text_elements", VArr [])]])]
        ++ match model args with
           | VStr m => if negb (String.eqb (trim m) "") then [("model", VStr (trim m))] else []
           | _ => []
           end).

(** [#runTurn(...)] up to its first [await]: the [i]-th task. *)
Definition runTurn (cfg : config) (i : nat) (args : turn_args) (st : state) : state :=
  let st := alloc (RunTurn, i) st in
  let '(n, st) := ensureReady cfg st in
  subscribe (Ensure, n) (KRunTurn1 i args) st.

(** [queueTurn(inputText, timeoutMs, model)] *)
Definition queueTurn (args : turn_args) (st : state) : state :=
  let i := nextTurn st in
  let st := set_nextTurn (S i) st in
  let st := alloc (Result, i) st in
  let st := subscribe (Tq, turnQueue st) (KTask i args) st in
  let st := alloc (Tq, i) st in
  let st := subscribe (Result, i) (KUndefined i) st in
  let st := set_turnQueue i st in
  let st := alloc (Caller, i) st in
  subscribe (Result, i) (KReturnResult i) st.

(** Rejecting every pending request, as the loops of [stop()] and of the
    "exit" listener do. *)
Definition rejectEach (error : value) (entries : list (nat * pending)) (st : state)
  : state :=
  foldl (λ st entry,
           settle (Request, entry.1) (Rejected error)
             (clearTimeout (timeoutId entry.2) st))
        st entries.

Definition rejectAll (error : value) (st : state) : state :=
  rejectEach error (pendingRequests st) st.

(** [this.pendingRequests.clear()] *)
Definition clearRequests (st : state) : state :=
  set_removedLog (removedLog st ++ (pendingRequests st).*1)
    (set_pendingRequests [] st).

(** [stop()] *)
Definition stop (st : state) : state :=
  let st := set_isStopping true st in
  let st := rejectAll (VError "Codex client is shutting down.") st in
  let st := clearRequests st in
  let st := set_readline false st in
  let st := if child_alive st then kill st else st in
  set_threadId VNull (set_child None st).

(** The "exit" listener of the child. *)
Definition onExit (cfg : config) (st : state) : state :=
  let st := set_threadId VNull st in
  let st := rejectAll (VError "Codex app-server exited.") st in
  let st := clearRequests st in
  let st := set_child None st in
  if isStopping st || negb (autoRestart cfg) then st
  else (setTimeout RestartTimer (restartDelayMs cfg) st).2.

(** The "error" listener of the child. *)
Definition onChildError (error : value) (st : state) : state :=
  match startReject st with
  | Some s => set_startReject None (settle (Start, s) (Rejected error) st)
  | None => st
  end.

(** [#resetSession(reason)] *)
Definition resetSession (st : state) : state :=
  let st := set_threadId VNull st in
  if child_alive st then kill st else st.

(** [this.pendingRequests.get(message.id)]: ids are numbers. *)
Definition request_id (id : value) : option nat :=
  match id with
  | VNum n => if decide (0 ≤ n) then Some (Z.to_nat n) else None
  | _ => None
  end.

(** [#handleResponse(message)] *)
Definition handleResponse (message : value) (st : state) : state :=
  match request_id (field message "id") with
  | Some id =>
      match map_get id (pendingRequests st) with
      | Some entry =>
          let st := clearTimeout (timeoutId entry) st in
          let st := forget id st in
          match get_field "error" (match message with VObj fs => fs | _ => [] end) with
          | Some error =>
              settle (Request, id)
                (Rejected (VError (messageFromJsonRpcError error))) st
          | None =>
              settle (Request, id) (Fulfilled (field message "result")) st
          end
      | None => st
      end
  | None => st
  end.

(** [#emitNotification(message)]: a listener never throws, and deletes
    only itself from the set. *)
Definition emitNotification (message : value) (st : state) : state :=
  foldl (λ st w,
           if decide (w ∈ notificationListeners st)
           then call_waiter w (λ c, TurnWaiter.notificationHandler c message) st
           else st)
        st (notificationListeners st).

(** [#handleServerRequest(message)]: when the frame cannot be written,
    the [catch] block throws in turn and the exception escapes. *)
Definition handleServerRequest (message : value) (st : state) : state :=
  match writeMessage (Responder.serverRequestReply message) st with
  | Return st => st
  | Throw _ => set_crashed true st
  end.

(** A line of the child's standard output: what [line.trim()] and
    [JSON.parse] make of it. *)
Inductive line :=
| Blank
| NotJson
| Json (message : value).

(** [#handleLine(line)] *)
Definition handleLine (l : line) (st : state) : state :=
  match l with
  | Blank => st
  | NotJson => resetSession st
  | Json message =>
      match has_own message "id", has_own message "result", has_own message "error" with
      | Some hasId, Some hasResult, Some hasError =>
          let hasMethod := is_string (field message "method") in
          if hasId && hasMethod && negb hasResult && negb hasError then
            handleServerRequest message st
          else if hasId && (hasResult || hasError) && negb hasMethod then
            handleResponse message st
          else if hasMethod then
            emitNotification message st
          else st
      | _, _, _ => set_crashed true st
      end
  end.

(** *** Reactions *)

Definition dispose (w : nat) (st : state) : state :=
  call_waiter w TurnWaiter.dispose st.

(** Running reaction [k] of a promise that settled with [o]. *)
Definition react (cfg : config) (k : kont) (o : outcome) (st : state) : state :=
  match k with
  | KTask i args =>
      let st := set_startedLog (startedLog st ++ [i]) st in
      let st := runTurn cfg i args st in
      subscribe (RunTurn, i) (KResolveResult i) st
  | KUndefined i => settle (Tq, i) (Fulfilled VUndef) st
  | KResolveResult i => settle (Result, i) o st
  | KReturnResult i => settle (Caller, i) o st
  | KReturnStart n => settle (Ensure, n) o st
  | KStartSettle n => settle (Start, n) o st
  | KEnsureFinally n =>
      let st := set_startPromise None (set_startReject None st) in
      settle (Ensure, n)
        (match o with Fulfilled _ => Fulfilled VUndef | Rejected e => Rejected e end) st
  | KStartInternal1 n =>
      match o with
      | Rejected e => settle (StartInternal, n) (Rejected e) st
      | Fulfilled _ =>
          match sendNotification "initialized" st with
          | Throw error => settle (StartInternal, n) (Rejected error) st
          | Return st =>
              match sendRequest cfg "thread/start" (threadStartParams cfg) st with
              | (Return request, st) => subscribe request (KStartInternal2 n) st
              | (Throw error, st) => settle (StartInternal, n) (Rejected error) st
              end
          end
      end
  | KStartInternal2 n =>
      match o with
      | Rejected e => settle (StartInternal, n) (Rejected e) st
      | Fulfilled threadStartResponse =>
          let st := set_threadId (oprop (oprop threadStartResponse "thread") "id") st in
          if negb (truthy (threadId st)) then
            settle (StartInternal, n)
              (Rejected (VError "thread/start did not return a thread id.")) st
          else settle (StartInternal, n) (Fulfilled VUndef) st
      end
  | KRunTurn1 i args =>
      match o with
      | Rejected e => settle (RunTurn, i) (Rejected e) st
      | Fulfilled _ =>
          if negb (truthy (threadId st)) then
            settle (RunTurn, i) (Rejected (VError "No active thread id.")) st
          else
            let threadId := threadId st in
            let '(w, st) := createTurnWaiter threadId (timeoutMs args) st in
            match sendRequest cfg "turn/start" (turnStartParams threadId args) st with
            | (Return request, st) => subscribe request (KRunTurn2 i w) st
            | (Throw error, st) =>
                settle (RunTurn, i) (Rejected error) (dispose w st)
            end
      end
  | KRunTurn2 i w =>
      match o with
      | Rejected e => settle (RunTurn, i) (Rejected e) (dispose w st)
      | Fulfilled turnStartResponse =>
          let turnId := oprop (oprop turnStartResponse "turn") "id" in
          let st := if truthy turnId
                    then call_waiter w (λ c, (TurnWaiter.setTurnId turnId c, [])) st
                    else st in
          subscribe (Settlement, w) (KRunTurn3 i w) st
      end
  | KRunTurn3 i w => settle (RunTurn, i) o (dispose w st)
  | KRestartFailed => st
  end.

(** The callback of a timer that fires. *)
Definition fire (cfg : config) (cb : timer) (st : state) : state :=
  match cb with
  | RequestTimer id method =>
      settle (Request, id)
        (Rejected (VError ("Codex request timed out for method " +:+ method +:+ ".")))
        (forget id st)
  | TurnTimer w => call_waiter w TurnWaiter.onTimeout st
  | RestartTimer =>
      let '(n, st) := ensureReady cfg st in
      subscribe (Ensure, n) KRestartFailed st
  end.

(** *** The event loop

    What can happen next: a caller invokes a method, the child or a timer
    raises an event, or the oldest microtask runs.  Node runs every
    microtask before the next event; the labels may come in any order, so
    what holds of every sequence of labels holds of every run. *)
Inductive label :=
| QueueTurn (args : turn_args)
| EnsureReady
| Stop
| Line (l : line)
| ChildError (error : value)
| Exit
| StdinClosed
| Timeout (t : nat)
| Tick.

Definition step (cfg : config) (st : state) (l : label) : state :=
  if crashed st then st
  else
    match l with
    | QueueTurn args => queueTurn args st
    | EnsureReady => (ensureReady cfg st).2
    | Stop => stop st
    | Line l => if readline st then handleLine l st else st
    | ChildError error => onChildError error st
    | Exit => onExit cfg st
    | StdinClosed =>
        match child st with
        | Some c => set_child (Some (ChildProcess (killed c) false)) st
        | None => st
        end
    | Timeout t =>
        match timers st !! t with
        | Some (_, cb) => fire cfg cb (clearTimeout t st)
        | None => st
        end
    | Tick =>
        match microtasks (heap st) with
        | (k, o) :: rest => react cfg k o (on_heap (set_microtasks rest) st)
        | [] => st
        end
    end.

Definition run (cfg : config) (st : state) (ls : list label) : state :=
  foldl (step cfg) st ls.

(** *** Observations *)

Definition outcome_of (p : pid) (st : state) : option outcome :=
  promises (heap st) !! p ≫= settlement.

(** The requests in [this.pendingRequests] that were sent for [m]. *)
Definition outstanding (m : string) (st : state) : list nat :=
  (filter (λ e, method e.2 = m) (pendingRequests st)).*1.

(** How often the resolve and reject functions of [p] were called. *)
Definition settle_calls (p : pid) (st : state) : nat :=
  length (filter (λ e, e.1 = p) (settleLog (heap st))).

(** How often [id] was taken out of [this.pendingRequests]. *)
Definition removals (id : nat) (st : state) : nat :=
  length (filter (λ x, x = id) (removedLog st)).

(** The turns whose [result] promise was settled, in that order. *)
Definition settled_turns (st : state) : list nat :=
  (filter (λ e, e.1.1 = Result) (settleLog (heap st))).*1.*2.

(** The frames written for [m]. *)
Definition frames_for (m : string) (st : state) : list value :=
  filter (λ f, strict_eq (field f "method") (VStr m) = true) (written st).

End Client.

(** * Predicates used in the statements and proofs *)

Module Facts.
Import Js.

(** The three things one input can do to a waiter. *)
Inductive reaction : TurnWaiter.waiter → TurnWaiter.waiter * list TurnWaiter.effect → Prop :=
| reaction_quiet w w' :
    TurnWaiter.settled w' = TurnWaiter.settled w → reaction w (w', [])
| reaction_finish w w' e :
    TurnWaiter.settled w = false → TurnWaiter.settled w' = true →
    TurnWaiter.is_settlement e = true →
    reaction w (w', [TurnWaiter.ClearTimeout; TurnWaiter.Off; e])
| reaction_dispose w w' :
    TurnWaiter.settled w = false → TurnWaiter.settled w' = true →
    reaction w (w', [TurnWaiter.ClearTimeout; TurnWaiter.Off]).

(** Every effect a waiter ever has: nothing while it is pending; then one
    [clearTimeout], one [off()] and at most one settlement. *)
Inductive history : TurnWaiter.waiter → list TurnWaiter.effect → Prop :=
| history_pending w : TurnWaiter.settled w = false → history w []
| history_finished w e :
    TurnWaiter.settled w = true → TurnWaiter.is_settlement e = true →
    history w [TurnWaiter.ClearTimeout; TurnWaiter.Off; e]
| history_disposed w :
    TurnWaiter.settled w = true →
    history w [TurnWaiter.ClearTimeout; TurnWaiter.Off].

(** *** What a waiter takes in

    The notifications a waiter listens to, which of them it accepts, and
    what it keeps of them. *)

(** [message.params ?? {}] *)
Definition params_of (m : value) : value := coalesce (field m "params") (VObj []).

Definition method_is (name : string) (m : value) : bool :=
  strict_eq (field m "method") (VStr name).

(** The turn id a notification carries: [params.turn?.id] in
    "turn/completed", [params.turnId] in the others. *)
Definition carried_turn (m : value) : value :=
  if method_is "turn/completed" m then oprop (field (params_of m) "turn") "id"
  else field (params_of m) "turnId".

Definition waiter_methods : list string :=
  ["item/agentMessage/delta"; "item/completed"; "thread/tokenUsage/updated";
   "error"; "turn/completed"].

(** The waiter of thread [th] accepts a notification of one of its
    methods for [th] when no turn id is bound to it, or when the
    notification carries the bound id. *)
Definition accepts (th bound m : value) : bool :=
  existsb (λ name, method_is name m) waiter_methods &&
  strict_eq (field (params_of m) "threadId") th &&
  (negb (truthy bound) || strict_eq (carried_turn m) bound).

(** The turn id bound to the waiter after an input: [setTurnId] binds its
    argument; an accepted notification that carries a turn id binds it
    when none is bound. *)
Definition bind (th bound : value) (i : TurnWaiter.input) : value :=
  match i with
  | TurnWaiter.SetTurnId v => v
  | TurnWaiter.Notify m =>
      if accepts th bound m && negb (truthy bound) && truthy (carried_turn m)
      then carried_turn m else bound
  | _ => bound
  end.

Definition bound_after (th bound : value) (inputs : list TurnWaiter.input) : value :=
  foldl (bind th) bound inputs.

(** The notifications the waiter accepted, in arrival order. *)
Fixpoint accepted (th bound : value) (inputs : list TurnWaiter.input) : list value :=
  match inputs with
  | [] => []
  | i :: rest =>
      match i with
      | TurnWaiter.Notify m => if accepts th bound m then [m] else []
      | _ => []
      end ++ accepted th (bind th bound i) rest
  end.

(** A "turn/completed" notification with status "completed". *)
Definition completes (m : value) : bool :=
  method_is "turn/completed" m &&
  strict_eq (oprop (oprop (params_of m) "turn") "status") (VStr "completed").

(** The text of a delta notification; a delta that is not a string counts
    as the empty string. *)
Definition delta_of (m : value) : option string :=
  if method_is "item/agentMessage/delta" m
  then Some (match field (params_of m) "delta" with VStr d => d | _ => "" end)
  else None.

(** The text of a complete agent message. *)
Definition message_of (m : value) : option string :=
  if method_is "item/completed" m &&
     strict_eq (oprop (field (params_of m) "item") "type") (VStr "agentMessage")
  then match field (field (params_of m) "item") "text" with
       | VStr t => Some t
       | _ => None
       end
  else None.

(** [params.tokenUsage?.last] of a token-usage notification. *)
Definition snapshot_of (m : value) : option value :=
  if method_is "thread/tokenUsage/updated" m
  then Some (oprop (oprop (params_of m) "tokenUsage") "last")
  else None.

(** The usage read from a snapshot: each field as the snapshot carries
    it, 0 when it is missing or null. *)
Definition usage_of (snapshot : value) : value :=
  VObj [("inputTokens", coalesce (oprop snapshot "inputTokens") (VNum 0));
        ("outputTokens", coalesce (oprop snapshot "outputTokens") (VNum 0))].

(** The deltas among [ms], concatenated in arrival order. *)
Definition streamed_text (ms : list value) : string :=
  foldr String.append "" (omap delta_of ms).

(** The text of the latest complete agent message among [ms]. *)
Definition latest_message (ms : list value) : option string :=
  last (omap message_of ms).

(** The latest token-usage snapshot among [ms]. *)
Definition latest_snapshot (ms : list value) : option value :=
  last (omap snapshot_of ms).

(** The text a completed turn resolves with: the latest complete agent
    message when its text is not empty, the streamed text otherwise. *)
Definition resolved_text (ms : list value) : string :=
  match latest_message ms with
  | Some t => if String.eqb t "" then streamed_text ms else t
  | None => streamed_text ms
  end.

(** The usage a completed turn resolves with: [null] without a
    snapshot. *)
Definition resolved_usage (ms : list value) : value :=
  match latest_snapshot ms with
  | Some snapshot => usage_of snapshot
  | None => VNull
  end.

(** A field of a snapshot that is a number, or missing or null. *)
Definition count_or_absent (v : value) : Prop := nullish v = true ∨ ∃ n : Z, v = VNum n.

(** **** The design document's reading

    The notifications that bear thread [th] and turn [tu], whatever the
    waiter made of them. *)
Definition notifications (inputs : list TurnWaiter.input) : list value :=
  omap (λ i, match i with TurnWaiter.Notify m => Some m | _ => None end) inputs.

Definition of_turn (th tu : value) (inputs : list TurnWaiter.input) : list value :=
  filter (λ m, strict_eq (field (params_of m) "threadId") th &&
               strict_eq (carried_turn m) tu = true)
         (notifications inputs).

(** The text the design document prescribes: the latest complete agent
    message whenever one arrived, the streamed text otherwise. *)
Definition prescribed_text (ms : list value) : string :=
  match latest_message ms with
  | Some t => t
  | None => streamed_text ms
  end.

(** The usage the design document prescribes when a snapshot arrived. *)
Definition prescribed_usage (ms : list value) : option value :=
  usage_of <$> latest_snapshot ms.

(** The result the design document prescribes for the turn [tu] of
    thread [th]: the shape, and the usage of the last snapshot of the turn
    when one arrived. *)
Definition stated_result (th tu : value) (inputs : list TurnWaiter.input) (v : value) : Prop :=
  TurnWaiter.result_shape v ∧
  ∀ u, prescribed_usage (of_turn th tu inputs) = Some u → field v "usage" = u.

(** The text in the closure when the turn completes:
    [latestAgentMessage || aggregatedAgentDeltas]. *)
Definition closure_text (w : TurnWaiter.waiter) : string :=
  if negb (String.eqb (TurnWaiter.latestAgentMessage w) "")
  then TurnWaiter.latestAgentMessage w else TurnWaiter.aggregatedAgentDeltas w.

(** **** Turns of thread "th"

    A delta and a complete agent message with an empty text. *)
Definition empty_message_turn : list TurnWaiter.input :=
  [TurnWaiter.Notify (TurnWaiter.encode "th" "tu" (TurnWaiter.AgentDelta "Hi"));
   TurnWaiter.Notify (TurnWaiter.encode "th" "tu" (TurnWaiter.AgentMessage ""));
   TurnWaiter.Notify (TurnWaiter.turn_completed "th" "tu" "completed")].

(** A complete agent message of the turn "old" arrives before the
    response to "turn/start" binds "tu". *)
Definition stale_message_turn : list TurnWaiter.input :=
  [TurnWaiter.Notify (TurnWaiter.encode "th" "old" (TurnWaiter.AgentMessage "STALE"));
   TurnWaiter.SetTurnId (VStr "tu");
   TurnWaiter.Notify (TurnWaiter.encode "th" "tu" (TurnWaiter.AgentDelta "Hi"));
   TurnWaiter.Notify (TurnWaiter.turn_completed "th" "tu" "completed")].

(** No token-usage notification. *)
Definition no_usage_turn : list TurnWaiter.input :=
  [TurnWaiter.Notify (TurnWaiter.encode "th" "tu" (TurnWaiter.AgentDelta "Hi"));
   TurnWaiter.Notify (TurnWaiter.turn_completed "th" "tu" "completed")].

(** A snapshot whose fields are a string and a boolean. *)
Definition untyped_usage_turn : list TurnWaiter.input :=
  [TurnWaiter.Notify
     (TurnWaiter.notification "thread/tokenUsage/updated"
        [("threadId", VStr "th"); ("turnId", VStr "tu");
         ("tokenUsage",
          VObj [("last", VObj [("inputTokens", VStr "12");
                               ("outputTokens", VBool true)])])]);
   TurnWaiter.Notify (TurnWaiter.turn_completed "th" "tu" "completed")].

(** A snapshot of the turn "old" arrives first and binds "old"; the
    snapshot of "tu" arrives before the response to "turn/start" binds
    "tu". *)
Definition stale_usage_turn : list TurnWaiter.input :=
  [TurnWaiter.Notify
     (TurnWaiter.encode "th" "old" (TurnWaiter.TokenUsage (Some 111) (Some 222)));
   TurnWaiter.Notify
     (TurnWaiter.encode "th" "tu" (TurnWaiter.TokenUsage (Some 1) (Some 2)));
   TurnWaiter.SetTurnId (VStr "tu");
   TurnWaiter.Notify (TurnWaiter.turn_completed "th" "tu" "completed")].

(** What settling [p] queues: the reactions of [p] if it is pending. *)
Definition released (p : Client.pid) (h : Client.promise_heap) : list Client.kont :=
  match Client.promises h !! p with
  | Some (Client.Promise None ks) => ks
  | _ => []
  end.

(** The error the "exit" listener rejects with. *)
Definition exit_error : value := VError "Codex app-server exited.".

(** What the bookkeeping of requests depends on. *)
Definition request_view (st : Client.state) :=
  (Client.pendingRequests st, Client.requestCounter st, Client.timers st,
   Client.nextTimer st, Client.deadline <$> Client.waiters st,
   filter (λ e, e.1.1 = Client.Request) (Client.settleLog (Client.heap st)),
   Client.removedLog st).

(** *** The bookkeeping of requests

    What holds of [this.pendingRequests] (with the request counter), the
    timers (with the next timer id and the deadlines of the waiters) and
    the histories, between any two steps of the event loop:
    - a request id is a key at most once, was allocated by
      [#sendRequest], and the timer of its entry is armed and is its own;
    - an armed request timer belongs to an entry;
    - timer ids are allocated in order, and the deadline of a waiter is
      not the timer of anything else;
    - the continuation of a request was never called and the id never
      removed while the id is a key; each happened exactly once for an
      allocated id that is no longer a key; neither happened for an id
      that was never allocated. *)
Record request_ok (cfg : Client.config)
    (table : list (nat * Client.pending)) (counter : nat)
    (timers : gmap nat (Z * Client.timer)) (next : nat)
    (deadlines : gmap nat nat)
    (log : list (Client.pid * Client.outcome)) (removed : list nat) : Prop :=
  RequestOk {
  ro_counter : (1 ≤ counter)%nat;
  ro_nodup : NoDup table.*1;
  ro_entry id e :
    (id, e) ∈ table →
    (1 ≤ id < counter)%nat ∧
    timers !! Client.timeoutId e =
      Some (Client.requestTimeoutMs cfg, Client.RequestTimer id (Client.method e));
  ro_timer t d id m :
    timers !! t = Some (d, Client.RequestTimer id m) →
    ∃ e, (id, e) ∈ table ∧ Client.timeoutId e = t;
  ro_fresh t : is_Some (timers !! t) → (t < next)%nat;
  ro_deadline w d :
    deadlines !! w = Some d →
    (d < next)%nat ∧ ∀ x cb, timers !! d = Some (x, cb) → cb = Client.TurnTimer w;
  ro_counts id :
    (length (filter (λ e, e.1 = (Client.Request, id)) log),
     length (filter (λ x, x = id) removed)) =
    if decide (id ∈ table.*1) then (0, 0)%nat
    else if decide (1 ≤ id < counter)%nat then (1, 1)%nat
    else (0, 0)%nat
}.

Definition request_inv (cfg : Client.config) (st : Client.state) : Prop :=
  let '(table, counter, timers, next, deadlines, log, removed) := request_view st in
  request_ok cfg table counter timers next deadlines log removed.

(** *** The turn queue

    The reactions that carry a turn forward: the task of a queued turn,
    the three continuations of [#runTurn], the adoption of its promise by
    [result], and the callback that settles the next [this.turnQueue]. *)
Definition turnish (k : Client.kont) : bool :=
  match k with
  | Client.KTask _ _ | Client.KUndefined _ | Client.KResolveResult _
  | Client.KRunTurn1 _ _ | Client.KRunTurn2 _ _ | Client.KRunTurn3 _ _ => true
  | _ => false
  end.

Definition turn_of (k : Client.kont) : nat :=
  match k with
  | Client.KTask i _ | Client.KUndefined i | Client.KResolveResult i
  | Client.KRunTurn1 i _ | Client.KRunTurn2 i _ | Client.KRunTurn3 i _ => i
  | _ => 0
  end.

(** How far the turn of a reaction is: 0 scheduled, 1 running,
    2 [result] about to be settled, 3 the queue about to move on. *)
Definition stage_of (k : Client.kont) : nat :=
  match k with
  | Client.KRunTurn1 _ _ | Client.KRunTurn2 _ _ | Client.KRunTurn3 _ _ => 1
  | Client.KResolveResult _ => 2
  | Client.KUndefined _ => 3
  | _ => 0
  end.

(** The promise a continuation of [#runTurn] waits for. *)
Definition parks (k : Client.kont) (s : Client.site) : bool :=
  match k, s with
  | Client.KRunTurn1 _ _, Client.Ensure
  | Client.KRunTurn2 _ _, Client.Request
  | Client.KRunTurn3 _ _, Client.Settlement => true
  | _, _ => false
  end.

(** The promises of the queue itself. *)
Definition chain_site (s : Client.site) : bool :=
  match s with
  | Client.Tq | Client.Result | Client.RunTurn => true
  | _ => false
  end.

(** Where the one reaction of the current turn is: being run ([Starting]
    while [#runTurn] has been called and [result] does not follow its
    promise yet), in the microtask queue, or registered on a promise. *)
Inductive place :=
| Held
| Starting
| Queued
| Parked (p : Client.pid).

(** The turn queue is idle, or the current turn is at reaction [k]. *)
Inductive phase :=
| Idle
| Active (k : Client.kont) (at_ : place).

Definition stage (ph : phase) : nat :=
  match ph with
  | Idle => 0
  | Active k _ => stage_of k
  end.

Definition queued (ph : phase) : list Client.kont :=
  match ph with
  | Active k Queued => [k]
  | _ => []
  end.

Definition parked_at (ph : phase) (p : Client.pid) : list Client.kont :=
  match ph with
  | Active k (Parked p') => if decide (p = p') then [k] else []
  | _ => []
  end.

(** Settling [p] queues the reaction registered on it. *)
Definition unpark (p : Client.pid) (ph : phase) : phase :=
  match ph with
  | Active k (Parked p') => if decide (p = p') then Active k Queued else ph
  | _ => ph
  end.

Definition counter_of (cE cR cW : nat) (s : Client.site) : nat :=
  match s with
  | Client.Ensure => cE
  | Client.Request => cR
  | Client.Settlement => cW
  | _ => 0
  end.

(** The serial numbers in use: requests are numbered from 1. *)
Definition numbered (cE cR cW : nat) (p : Client.pid) : Prop :=
  ((match p.1 with Client.Request => 1 | _ => 0 end) ≤ p.2 < counter_of cE cR cW p.1)%nat.

Definition allocated (H : Client.promise_heap) (p : Client.pid) : Prop :=
  is_Some (Client.promises H !! p).

Definition valid_phase (d cE cR cW : nat) (ph : phase) : Prop :=
  match ph with
  | Idle => True
  | Active k at_ =>
      turnish k = true ∧ turn_of k = S d ∧
      match at_ with
      | Parked p => parks k p.1 = true ∧ numbered cE cR cW p
      | Starting => stage_of k = 1%nat
      | _ => True
      end ∧
      match k with
      | Client.KRunTurn2 _ w => (w < cW)%nat
      | _ => True
      end
  end.

(** The number of turns whose [result] is settled, and of turns whose
    task was called. *)
Definition settled_count (d : nat) (ph : phase) : nat :=
  if decide (stage ph = 3%nat) then S d else d.

Definition started_count (d : nat) (ph : phase) : nat :=
  if decide (1 ≤ stage ph)%nat then S d else d.

Definition result_log (log : list (Client.pid * Client.outcome)) : list nat :=
  (filter (λ e : Client.pid * Client.outcome, e.1.1 = Client.Result) log).*1.*2.

(** What holds of the promises of the queue when [n] turns were queued,
    the first [d] of them are over, and the next one, if any, is at [ph]:
    - a settled promise has no reactions left;
    - the reaction of the current turn is where [ph] says and nowhere
      else: no other reaction that carries a turn forward is in the
      microtask queue or registered on a promise outside the queue;
    - [(Tq, j)] is fulfilled for [j ≤ d]; later ones are pending and hold
      the task of the next turn, except the last, which holds nothing;
    - [(Result, j)] is settled exactly for the turns that are over, and
      otherwise holds the callback of [(Tq, j)] and the caller's promise;
    - the promises of the calls of [ensureReady], of the requests and of
      the waiters made so far exist;
    - [(RunTurn, j)] holds a reaction only for the running turn;
    - the results were settled, and the tasks called, in the order of
      the queue;
    - an entry of [this.pendingRequests] sent for "turn/start" is the
      request the running turn waits for. *)
Record chain_ok (H : Client.promise_heap) (table : list (nat * Client.pending))
    (n next : nat) (started : list nat) (cE cR cW : nat)
    (d : nat) (ph : phase) : Prop := ChainOk {
  co_next : next = S n;
  co_counter : (1 ≤ cR)%nat;
  co_done : (d ≤ n)%nat ∧ (ph = Idle ↔ d = n);
  co_valid : valid_phase d cE cR cW ph;
  co_alloc p : chain_site p.1 = false → numbered cE cR cW p → allocated H p;
  co_settled p pr :
    Client.promises H !! p = Some pr → is_Some (Client.settlement pr) →
    Client.reactions pr = [];
  co_micro : filter (λ k, turnish k = true) (Client.microtasks H).*1 = queued ph;
  co_parked p pr :
    Client.promises H !! p = Some pr → chain_site p.1 = false →
    filter (λ k, turnish k = true) (Client.reactions pr) = parked_at ph p;
  co_tq j :
    ((j ≤ d)%nat →
       Client.promises H !! (Client.Tq, j) =
       Some (Client.Promise (Some (Client.Fulfilled Js.VUndef)) [])) ∧
    ((d < j < n)%nat →
       ∃ args, Client.promises H !! (Client.Tq, j) =
               Some (Client.Promise None [Client.KTask (S j) args])) ∧
    ((d < j)%nat → j = n →
       Client.promises H !! (Client.Tq, j) = Some (Client.Promise None [])) ∧
    ((n < j)%nat → Client.promises H !! (Client.Tq, j) = None);
  co_result j :
    ((1 ≤ j ≤ settled_count d ph)%nat →
       ∃ o, Client.promises H !! (Client.Result, j) =
            Some (Client.Promise (Some o) [])) ∧
    ((settled_count d ph < j ≤ n)%nat →
       Client.promises H !! (Client.Result, j) =
       Some (Client.Promise None [Client.KUndefined j; Client.KReturnResult j])) ∧
    ((n < j)%nat → Client.promises H !! (Client.Result, j) = None);
  co_runturn j pr :
    Client.promises H !! (Client.RunTurn, j) = Some pr →
    if decide (j = S d ∧ stage ph = 1%nat)
    then pr = Client.Promise None
                (match ph with
                 | Active _ Starting => []
                 | _ => [Client.KResolveResult j]
                 end)
    else Client.reactions pr = [];
  co_running :
    stage ph = 1%nat → allocated H (Client.RunTurn, S d);
  co_log : result_log (Client.settleLog H) = seq 1 (settled_count d ph);
  co_started : started = seq 1 (started_count d ph);
  co_link id e :
    (id, e) ∈ table → Client.method e = "turn/start" →
    ∃ w, ph = Active (Client.KRunTurn2 (S d) w) (Parked (Client.Request, id))
}.

Definition chain_view (st : Client.state) :=
  (Client.heap st, Client.pendingRequests st, Client.turnQueue st,
   Client.nextTurn st, Client.startedLog st, Client.nextEnsure st,
   Client.requestCounter st, Client.nextWaiter st).

Definition chain_at (st : Client.state) (d : nat) (ph : phase) : Prop :=
  let '(H, table, n, next, started, cE, cR, cW) := chain_view st in
  chain_ok H table n next started cE cR cW d ph.

(** Between two steps of the event loop the reaction of the current turn
    is queued or registered. *)
Definition at_rest (ph : phase) : Prop :=
  match ph with
  | Active _ Held | Active _ Starting => False
  | _ => True
  end.

Definition chain_inv (st : Client.state) : Prop :=
  ∃ d ph, chain_at st d ph ∧ at_rest ph.

(** What a step that does not run the reaction of the turn can do to the
    phase: settle the promise the reaction is registered on. *)
Definition relaxes (ph ph' : phase) : Prop :=
  ph' = ph ∨ ∃ k p, ph = Active k (Parked p) ∧ ph' = Active k Queued.

Definition chain_rel (d : nat) (ph : phase) (H : Client.promise_heap)
    (table : list (nat * Client.pending)) (n next : nat) (started : list nat)
    (cE cR cW : nat) : Prop :=
  ∃ ph', relaxes ph ph' ∧ chain_ok H table n next started cE cR cW d ph'.

Definition chain_to (d : nat) (ph : phase) (st : Client.state) : Prop :=
  let '(H, table, n, next, started, cE, cR, cW) := chain_view st in
  chain_rel d ph H table n next started cE cR cW.

(** The phases that differ only in the place of the reaction. *)
Definition starting (ph : phase) : Prop :=
  match ph with
  | Active _ Starting => True
  | _ => False
  end.

Definition same_turn (ph ph' : phase) : Prop :=
  stage ph' = stage ph ∧ (ph = Idle ↔ ph' = Idle) ∧ (starting ph ↔ starting ph').

(** Where a reaction registered on [p] ends up. *)
Definition park (H : Client.promise_heap) (p : Client.pid) (k : Client.kont) : phase :=
  match Client.promises H !! p with
  | Some (Client.Promise None _) => Active k (Parked p)
  | _ => Active k Queued
  end.

(** What [queueTurn] does to the promises. *)
Definition h_queueTurn (n : nat) (args : Client.turn_args) (H : Client.promise_heap)
  : Client.promise_heap :=
  let i := S n in
  Client.h_subscribe (Client.Result, i) (Client.KReturnResult i)
    (Client.h_alloc (Client.Caller, i)
       (Client.h_subscribe (Client.Result, i) (Client.KUndefined i)
          (Client.h_alloc (Client.Tq, i)
             (Client.h_subscribe (Client.Tq, n) (Client.KTask i args)
                (Client.h_alloc (Client.Result, i) H))))).

(** *** The replies of the responder *)






(** *** The handshake *)

(** The three frames of the handshake, as the first attempt of a client
    writes them. *)
Definition initialize_frame : value :=
  VObj [("jsonrpc", VStr "2.0"); ("id", VNum 1); ("method", VStr "initialize");
        ("params", Client.initializeParams)].

Definition initialized_frame : value :=
  VObj [("jsonrpc", VStr "2.0"); ("method", VStr "initialized")].

Definition thread_start_frame (cfg : Client.config) : value :=
  VObj [("jsonrpc", VStr "2.0"); ("id", VNum 2); ("method", VStr "thread/start");
        ("params", Client.threadStartParams cfg)].

Definition handshake (cfg : Client.config) : list value :=
  [initialize_frame; initialized_frame; thread_start_frame cfg].

(** A response that carries a result: what the process sends when a
    request succeeds. *)
Definition is_result (message : value) : bool :=
  match has_own message "id", has_own message "result", has_own message "error" with
  | Some true, Some true, Some false => negb (is_string (field message "method"))
  | _, _, _ => false
  end.

(** What happens while a client gets ready and nothing fails: callers
    call [ensureReady], the process answers with results (the result for
    "thread/start", request 2, carries a thread id), and microtasks
    run. *)
Definition handshake_event (l : Client.label) : bool :=
  match l with
  | Client.EnsureReady | Client.Tick => true
  | Client.Line (Client.Json message) =>
      is_result message &&
      (if decide (Client.request_id (field message "id") = Some 2%nat)
       then truthy (oprop (oprop (field message "result") "thread") "id")
       else true)
  | _ => false
  end.

Definition is_call (l : Client.label) : bool :=
  match l with Client.EnsureReady => true | _ => false end.

(** The number of [ensureReady] calls among [ls]. *)
Definition calls (ls : list Client.label) : nat :=
  length (filter (λ l, is_call l = true) ls).

(** The reaction through which call [n] of [ensureReady] waits for the
    attempt: the first call awaits [this.startPromise], the others return
    it. *)
Definition waits_by (n : nat) : Client.kont :=
  match n with
  | O => Client.KEnsureFinally 0
  | S _ => Client.KReturnStart n
  end.

(** The reactions that only pass a settlement on. *)
Definition passes_on (k : Client.kont) : bool :=
  match k with
  | Client.KReturnStart _ | Client.KStartSettle _ | Client.KEnsureFinally _ => true
  | _ => false
  end.

(** Where the attempt is. *)
Inductive progress :=
| AwaitInitialize
| GotInitialize (result : value)
| AwaitThread
| GotThread (result : value).

(** The request the attempt waits for. *)
Definition awaited (sg : progress) : option nat :=
  match sg with
  | AwaitInitialize => Some 1%nat
  | AwaitThread => Some 2%nat
  | _ => None
  end.

Definition stage_ok (cfg : Client.config) (sg : progress) (st : Client.state) : Prop :=
  match sg with
  | AwaitInitialize =>
      Client.written st = [initialize_frame] ∧ Client.requestCounter st = 2%nat ∧
      (∃ t, Client.pendingRequests st = [(1%nat, Client.Pending t "initialize")]) ∧
      Client.promises (Client.heap st) !! (Client.Request, 1%nat) =
        Some (Client.Promise None [Client.KStartInternal1 0]) ∧
      Client.microtasks (Client.heap st) = []
  | GotInitialize result =>
      Client.written st = [initialize_frame] ∧ Client.requestCounter st = 2%nat ∧
      Client.pendingRequests st = [] ∧
      Client.microtasks (Client.heap st) =
        [(Client.KStartInternal1 0, Client.Fulfilled result)]
  | AwaitThread =>
      Client.written st = handshake cfg ∧ Client.requestCounter st = 3%nat ∧
      (∃ t, Client.pendingRequests st = [(2%nat, Client.Pending t "thread/start")]) ∧
      Client.promises (Client.heap st) !! (Client.Request, 2%nat) =
        Some (Client.Promise None [Client.KStartInternal2 0]) ∧
      Client.microtasks (Client.heap st) = []
  | GotThread result =>
      Client.written st = handshake cfg ∧ Client.requestCounter st = 3%nat ∧
      Client.pendingRequests st = [] ∧
      Client.microtasks (Client.heap st) =
        [(Client.KStartInternal2 0, Client.Fulfilled result)] ∧
      truthy (oprop (oprop result "thread") "id") = true
  end.

(** The attempt is in flight at stage [sg]: every call so far waits for
    the promise of the attempt. *)
Record in_flight (cfg : Client.config) (sg : progress) (st : Client.state) : Prop := InFlight {
  fl_crashed : Client.crashed st = false;
  fl_child : Client.child st = Some (Client.ChildProcess false true);
  fl_readline : Client.readline st = true;
  fl_thread : Client.threadId st = VNull;
  fl_start : Client.startPromise st = Some 0%nat;
  fl_attempts : Client.nextStart st = 1%nat;
  fl_calls : (1 ≤ Client.nextEnsure st)%nat;
  fl_Start :
    Client.promises (Client.heap st) !! (Client.Start, 0%nat) =
    Some (Client.Promise None (waits_by <$> seq 0 (Client.nextEnsure st)));
  fl_StartInternal :
    Client.promises (Client.heap st) !! (Client.StartInternal, 0%nat) =
    Some (Client.Promise None [Client.KStartSettle 0]);
  fl_Ensure n :
    (n < Client.nextEnsure st)%nat →
    Client.promises (Client.heap st) !! (Client.Ensure, n) = Some (Client.Promise None []);
  fl_reactions p pr :
    Client.promises (Client.heap st) !! p = Some pr →
    (∀ id, awaited sg = Some id → p ≠ (Client.Request, id)) →
    Forall (λ k, passes_on k = true) (Client.reactions pr);
  fl_stage : stage_ok cfg sg st
}.

(** The attempt succeeded: the client is ready, and the promise of each
    call is fulfilled or about to be. *)
Record ready (cfg : Client.config) (st : Client.state) : Prop := Ready {
  rd_crashed : Client.crashed st = false;
  rd_child : Client.child st = Some (Client.ChildProcess false true);
  rd_thread : truthy (Client.threadId st) = true;
  rd_attempts : Client.nextStart st = 1%nat;
  rd_calls : (1 ≤ Client.nextEnsure st)%nat;
  rd_written : Client.written st = handshake cfg;
  rd_pending : Client.pendingRequests st = [];
  rd_micro :
    Forall (λ t, passes_on t.1 = true ∧ t.2 = Client.Fulfilled VUndef)
           (Client.microtasks (Client.heap st));
  rd_reactions p pr :
    Client.promises (Client.heap st) !! p = Some pr →
    Forall (λ k, passes_on k = true) (Client.reactions pr);
  rd_Ensure n :
    (n < Client.nextEnsure st)%nat →
    Client.outcome_of (Client.Ensure, n) st = Some (Client.Fulfilled VUndef) ∨
    Client.promises (Client.heap st) !! (Client.Ensure, n) = Some (Client.Promise None []) ∧
    (waits_by n ∈ (Client.microtasks (Client.heap st)).*1 ∨
     Client.KStartSettle 0 ∈ (Client.microtasks (Client.heap st)).*1 ∧
     ∃ ks, Client.promises (Client.heap st) !! (Client.Start, 0%nat) =
             Some (Client.Promise None ks) ∧ waits_by n ∈ ks)
}.

(** Where a client is after calls, answers and microtasks. *)
Inductive handshake_state (cfg : Client.config) (st : Client.state) : Prop :=
| hs_fresh : st = Client.initial → handshake_state cfg st
| hs_in_flight sg : in_flight cfg sg st → handshake_state cfg st
| hs_ready : ready cfg st → handshake_state cfg st.

(** *** After [stop()]

    What [stop()] leaves behind and nothing changes afterwards. *)
Definition stopped_view (st : Client.state) :=
  (Client.isStopping st, Client.child st, Client.written st).

Definition down (st : Client.state) : Prop :=
  Client.isStopping st = true ∧ Client.child st = None.

(** *** Scenarios *)

(** The process answers request [id]. *)
Definition answer (id : Z) (result : value) : Client.label :=
  Client.Line (Client.Json (VObj [("jsonrpc", VStr "2.0"); ("id", VNum id); ("result", result)])).

(** One turn is queued on a fresh client, the handshake completes, and
    the "turn/start" request is written (request 3, waiter 0, timer 2). *)
Definition turn_started : list Client.label :=
  [Client.QueueTurn (Client.TurnArgs "hello" 5000 VUndef); Client.Tick;
   answer 1 (VObj []); Client.Tick;
   answer 2 (VObj [("thread", VObj [("id", VStr "th")])]); Client.Tick; Client.Tick; Client.Tick; Client.Tick].

(** The process answers "turn/start" with the turn id. *)
Definition turn_running : list Client.label :=
  turn_started ++ [answer 3 (VObj [("turn", VObj [("id", VStr "tu")])]); Client.Tick].

(** Two turns are queued on a fresh client and the process exits during
    the handshake of the first. *)
Definition first_turn_fails : list Client.label :=
  [Client.QueueTurn (Client.TurnArgs "one" 5000 VUndef);
   Client.QueueTurn (Client.TurnArgs "two" 5000 VUndef);
   Client.Tick; Client.Exit] ++ repeat Client.Tick 12.

(** Two turns are queued on a fresh client and the "initialize" request
    of the first times out (timer 0). *)
Definition first_turn_times_out : list Client.label :=
  [Client.QueueTurn (Client.TurnArgs "one" 5000 VUndef);
   Client.QueueTurn (Client.TurnArgs "two" 5000 VUndef);
   Client.Tick; Client.Timeout 0] ++ repeat Client.Tick 12.

(** Two callers before the process answers "initialize", a third before
    it answers "thread/start", a fourth once the client is ready. *)
Definition four_callers : list Client.label :=
  [Client.EnsureReady; Client.EnsureReady;
   answer 1 (VObj []); Client.Tick; Client.EnsureReady;
   answer 2 (VObj [("thread", VObj [("id", VStr "th")])])] ++
  repeat Client.Tick 6 ++ [Client.EnsureReady].

End Facts.

(** * Properties *)

(** ** JavaScript values *)

Section js_facts.
Import Js.

Lemma strict_eq_str (a b : string) :
  strict_eq (VStr a) (VStr b) = bool_decide (a = b).
Proof.
  simpl. case_bool_decide; [subst; apply String.eqb_refl | by apply String.eqb_neq].
Qed.

Lemma strict_eq_str_refl (a : string) : strict_eq (VStr a) (VStr a) = true.
Proof. simpl. apply String.eqb_refl. Qed.

Lemma get_field_assign k k' v fs :
  get_field k (assign k' v fs) = if String.eqb k k' then Some v else get_field k fs.
Proof.
  induction fs as [|[k0 v0] fs IH]; simpl.
  - done.
  - destruct (String.eqb_spec k' k0) as [->|Hne]; simpl.
    + by destruct (String.eqb k k0).
    + destruct (String.eqb_spec k k0) as [->|]; [|done].
      destruct (String.eqb_spec k0 k'); congruence.
Qed.


Lemma append_nil_r (s : string) : s +:+ "" = s.
Proof.
  induction s as [|c s IH]; [done|].
  change (String c (s +:+ "") = String c s). by f_equal.
Qed.

Lemma append_assoc (a b c : string) : (a +:+ b) +:+ c = a +:+ b +:+ c.
Proof.
  induction a as [|x a IH]; [done|].
  change (String x ((a +:+ b) +:+ c) = String x (a +:+ b +:+ c)). by f_equal.
Qed.

End js_facts.

(** ** The turn waiter *)

Section waiter_facts.
Import Js TurnWaiter Facts.

Lemma finish_settled handler w :
  settled w = true → finish handler w = (w, []).
Proof. unfold finish. by intros ->. Qed.

Lemma finish_fresh handler w :
  settled w = false →
  finish handler w = (set_settled true w, [ClearTimeout; Off; handler (set_settled true w)]).
Proof. unfold finish. by intros ->. Qed.

Lemma settled_learn id w : settled (learn id w) = settled w.
Proof. unfold learn. by destruct (_ && _). Qed.

Lemma finish_reaction handler w0 w :
  settled w = settled w0 →
  (∀ w', is_settlement (handler w') = true) →
  reaction w0 (finish handler w).
Proof.
  intros Hs Hh. unfold finish. destruct (settled w) eqn:E.
  - apply reaction_quiet. congruence.
  - apply reaction_finish; [congruence | done | apply Hh].
Qed.

Lemma notificationHandler_reaction w message :
  reaction w (notificationHandler w message).
Proof.
  unfold notificationHandler.
  repeat match goal with
  | |- reaction _ (if ?b then _ else _) => destruct b
  | |- reaction _ (match ?v with _ => _ end) => destruct v
  | |- reaction _ (finish _ _) => apply finish_reaction; [by rewrite ?settled_learn | done]
  | |- reaction _ (_, []) => apply reaction_quiet; simpl; by rewrite ?settled_learn
  end.
Qed.

Lemma react_reaction w i : reaction w (react w i).
Proof.
  destruct i; simpl.
  - apply notificationHandler_reaction.
  - by apply finish_reaction.
  - by apply reaction_quiet.
  - unfold dispose. destruct (settled w) eqn:E.
    + by apply reaction_quiet.
    + by apply reaction_dispose.
Qed.

End waiter_facts.

Section waiter_runs.
Import Js TurnWaiter Facts.

Lemma run_app w a b :
  run w (a ++ b) = ((run (run w a).1 b).1, (run w a).2 ++ (run (run w a).1 b).2).
Proof.
  revert w. induction a as [|i a IH]; intros w; simpl.
  - by destruct (run w b).
  - destruct (react w i) as [w1 es1]. rewrite IH.
    destruct (run w1 a) as [w2 es2]; simpl.
    destruct (run w2 b) as [w3 es3]; simpl. by rewrite app_assoc.
Qed.

Lemma run_settled w ins :
  settled w = true → settled (run w ins).1 = true ∧ (run w ins).2 = [].
Proof.
  revert w. induction ins as [|i ins IH]; intros w Hw; simpl; [done|].
  pose proof (react_reaction w i) as Hr.
  destruct (react w i) as [w1 es1].
  inversion Hr as [? ? Hq|? ? ? Hq|? ? Hq]; subst; try congruence.
  destruct (IH w1) as [Ha Hb]; [congruence|].
  destruct (run w1 ins) as [w2 es2]; simpl in *. by subst.
Qed.

Lemma run_history w ins :
  settled w = false → history (run w ins).1 (run w ins).2.
Proof.
  revert w. induction ins as [|i ins IH]; intros w Hw; simpl.
  - by apply history_pending.
  - pose proof (react_reaction w i) as Hr.
    destruct (react w i) as [w1 es1].
    inversion Hr as [? ? Hq|? ? ? Hq Hq' He|? ? Hq Hq']; subst.
    + specialize (IH w1). destruct (run w1 ins) as [w2 es2]; simpl in *.
      apply IH. congruence.
    + destruct (run_settled w1 ins) as [Ha Hb]; [done|].
      destruct (run w1 ins) as [w2 es2]; simpl in *. subst.
      by apply history_finished.
    + destruct (run_settled w1 ins) as [Ha Hb]; [done|].
      destruct (run w1 ins) as [w2 es2]; simpl in *. subst.
      by apply history_disposed.
Qed.

Lemma history_counts w es :
  history w es →
  (settlements es ≤ 1)%nat ∧ unsubscriptions es = (if settled w then 1 else 0)%nat.
Proof.
  intros [? Hs|? e Hs He|? Hs]; rewrite Hs.
  - split; [cbn; lia | done].
  - by destruct e.
  - split; [vm_compute; lia | done].
Qed.

(** C3. Settlement of a turn waiter is idempotent.  Whatever is done to a
    waiter, in whatever order (notifications, the deadline timer,
    [setTurnId], [dispose]): its promise is settled at most once; [off()]
    is called exactly once when the waiter is settled or disposed of and
    not before; once it is, no later input has any effect; and what the
    promise delivered first is what it delivers after any further
    inputs. *)
Theorem waiter_settles_once (threadId : value) (timeoutMs : Z) (ins more : list input) :
  let w0 := createTurnWaiter threadId timeoutMs in
  let w := (run w0 ins).1 in
  let es := (run w0 ins).2 in
  (settlements es ≤ 1)%nat ∧
  unsubscriptions es = (if settled w then 1 else 0)%nat ∧
  (settled w = true → (run w more).2 = []) ∧
  (∀ o, delivered es = Some o → delivered (run w0 (ins ++ more)).2 = Some o).
Proof.
  intros w0 w es.
  assert (Hh : history w es) by (by apply run_history).
  assert (Hm : settled w = true → (run w more).2 = [])
    by (intros Hs; by apply run_settled).
  destruct (history_counts _ _ Hh) as [Hc Hu].
  split_and!; [done..|].
  intros o Ho. rewrite run_app. simpl. fold w es.
  destruct (settled w) eqn:Hs.
  - by rewrite Hm, app_nil_r.
  - destruct Hh as [? ?|? e ? ?|? ?]; [done|congruence..].
Qed.
End waiter_runs.

Section waiter_accepts.
Import Js TurnWaiter Facts.

Lemma method_is_eq name m : method_is name m = true → field m "method" = VStr name.
Proof.
  unfold method_is. destruct (field m "method"); try done.
  simpl. by intros ->%String.eqb_eq.
Qed.

Lemma settled_finish handler w : settled (finish handler w).1 = true.
Proof. unfold finish. by destruct (settled w) eqn:E. Qed.

Ltac handler_cases :=
  repeat match goal with
  | |- context [finish ?h ?w] =>
      unfold finish; destruct (settled w)
  | |- context [if ?b then _ else _] => destruct b eqn:?
  | |- context [match field ?v ?k with _ => _ end] => destruct (field v k) eqn:?
  end.

(** What a notification leaves in the closure. *)
Lemma handler_state w m :
  let th := w_threadId w in
  let a := accepts th (turnId w) m in
  let w' := (notificationHandler w m).1 in
  w_threadId w' = th ∧
  turnId w' = bind th (turnId w) (Notify m) ∧
  aggregatedAgentDeltas w' =
    aggregatedAgentDeltas w +:+ (if a then default "" (delta_of m) else "") ∧
  latestAgentMessage w' =
    (if a then default (latestAgentMessage w) (message_of m) else latestAgentMessage w) ∧
  usage w' = (if a then default (usage w) (usage_of <$> snapshot_of m) else usage w).
Proof.
  intros th a w'. subst th a w'.
  unfold notificationHandler, bind, accepts, waiter_methods, existsb, carried_turn,
    delta_of, message_of, snapshot_of, usage_of, method_is, params_of, admits, learn.
  set (params := coalesce (field m "params") (VObj [])).
  destruct (field m "method") as [| |?|?|s|?|?|?] eqn:Hm;
    try (cbn; rewrite append_nil_r; done).
  destruct (decide (s = "item/agentMessage/delta")) as [->|N1].
  { cbn -[String.append]. handler_cases; cbn -[String.append] in *;
      rewrite ?append_nil_r; try done; try congruence. }
  destruct (decide (s = "item/completed")) as [->|N2].
  { cbn -[String.append]. handler_cases; cbn -[String.append] in *;
      rewrite ?append_nil_r; try done; try congruence. }
  destruct (decide (s = "thread/tokenUsage/updated")) as [->|N3].
  { cbn -[String.append]. handler_cases; cbn -[String.append] in *;
      rewrite ?append_nil_r; try done; try congruence. }
  destruct (decide (s = "error")) as [->|N4].
  { cbn -[String.append]. handler_cases; cbn -[String.append] in *;
      rewrite ?append_nil_r; try done; try congruence. }
  destruct (decide (s = "turn/completed")) as [->|N5].
  { cbn -[String.append]. handler_cases; cbn -[String.append] in *;
      rewrite ?append_nil_r; try done; try congruence. }
  apply String.eqb_neq in N1, N2, N3, N4, N5.
  cbn -[String.append]. rewrite N1, N2, N3, N4, N5. cbn -[String.append].
  by rewrite append_nil_r.
Qed.

Lemma streamed_text_app a b : streamed_text (a ++ b) = streamed_text a +:+ streamed_text b.
Proof.
  unfold streamed_text. rewrite omap_app.
  induction (omap delta_of a) as [|d ds IH]; [done|].
  cbn [app foldr]. by rewrite IH, append_assoc.
Qed.

Lemma latest_message_app a b :
  latest_message (a ++ b) =
  match latest_message b with Some t => Some t | None => latest_message a end.
Proof. unfold latest_message. by rewrite omap_app, last_app. Qed.

Lemma latest_snapshot_app a b :
  latest_snapshot (a ++ b) =
  match latest_snapshot b with Some t => Some t | None => latest_snapshot a end.
Proof. unfold latest_snapshot. by rewrite omap_app, last_app. Qed.

(** What one input leaves in the closure. *)
Lemma react_state w i :
  let th := w_threadId w in
  let ms := accepted th (turnId w) [i] in
  let w' := (react w i).1 in
  w_threadId w' = th ∧
  turnId w' = bind th (turnId w) i ∧
  aggregatedAgentDeltas w' = aggregatedAgentDeltas w +:+ streamed_text ms ∧
  latestAgentMessage w' = default (latestAgentMessage w) (latest_message ms) ∧
  usage w' = default (usage w) (usage_of <$> latest_snapshot ms).
Proof.
  destruct i as [m| |v|]; cbn [react accepted app].
  - destruct (handler_state w m) as (Hth & Hid & Hd & Hm & Hu).
    cbn zeta. rewrite Hth, Hid, Hd, Hm, Hu.
    unfold bind, streamed_text, latest_message, latest_snapshot.
    destruct (accepts _ _ m); cbn -[String.append];
      [destruct (delta_of m), (message_of m), (snapshot_of m)|];
      cbn -[String.append]; by rewrite ?append_nil_r.
  - cbn. unfold onTimeout, finish. destruct (settled w); cbn; by rewrite append_nil_r.
  - cbn. by rewrite append_nil_r.
  - cbn. unfold dispose. destruct (settled w); cbn; by rewrite append_nil_r.
Qed.

(** What a sequence of inputs leaves in the closure. *)
Lemma run_state w inputs :
  let th := w_threadId w in
  let ms := accepted th (turnId w) inputs in
  let w' := (run w inputs).1 in
  w_threadId w' = th ∧
  turnId w' = bound_after th (turnId w) inputs ∧
  aggregatedAgentDeltas w' = aggregatedAgentDeltas w +:+ streamed_text ms ∧
  latestAgentMessage w' = default (latestAgentMessage w) (latest_message ms) ∧
  usage w' = default (usage w) (usage_of <$> latest_snapshot ms).
Proof.
  revert w. induction inputs as [|i inputs IH]; intros w; cbn zeta.
  - cbn. by rewrite append_nil_r.
  - destruct (react_state w i) as (Hth & Hid & Hd & Hm & Hu).
    cbn zeta in *. cbn [run accepted bound_after foldl].
    destruct (react w i) as [w1 es1]; cbn [fst snd] in *.
    specialize (IH w1). cbn zeta in IH.
    destruct (run w1 inputs) as [w2 es2]; cbn [fst snd] in *.
    destruct IH as (Hth2 & Hid2 & Hd2 & Hm2 & Hu2).
    rewrite Hth2, Hid2, Hd2, Hm2, Hu2, Hth, Hid, Hd, Hm, Hu.
    fold (bound_after (w_threadId w) (bind (w_threadId w) (turnId w) i) inputs).
    rewrite streamed_text_app, latest_message_app, latest_snapshot_app, append_assoc.
    cbn [app accepted]. rewrite app_nil_r.
    clear. set (rest := accepted _ (bind _ _ _) inputs).
    split_and!; try done.
    + by destruct (latest_message rest).
    + by destruct (latest_snapshot rest).
Qed.

(** Only an accepted "turn/completed" with status "completed" resolves
    the promise, and only of a waiter that has not settled. *)
Lemma handler_resolved w m v :
  ResolvePromise v ∈ (notificationHandler w m).2 →
  settled w = false ∧ accepts (w_threadId w) (turnId w) m = true ∧ completes m = true.
Proof.
  unfold notificationHandler, accepts, waiter_methods, existsb, carried_turn, completes,
    method_is, params_of, admits.
  set (params := coalesce (field m "params") (VObj [])).
  destruct (field m "method") as [| |?|?|s|?|?|?] eqn:Hm;
    try (cbn; by intros ?%elem_of_nil).
  destruct (decide (s = "item/agentMessage/delta")) as [->|N1].
  { cbn. handler_cases; cbn; set_solver. }
  destruct (decide (s = "item/completed")) as [->|N2].
  { cbn. handler_cases; cbn; set_solver. }
  destruct (decide (s = "thread/tokenUsage/updated")) as [->|N3].
  { cbn. handler_cases; cbn; set_solver. }
  destruct (decide (s = "error")) as [->|N4].
  { cbn. handler_cases; cbn; set_solver. }
  destruct (decide (s = "turn/completed")) as [->|N5].
  { cbn. unfold finish. rewrite settled_learn.
    destruct (strict_eq (field params "threadId") (w_threadId w)); cbn; [|set_solver].
    destruct (negb (truthy (turnId w)) || _); cbn; [|set_solver].
    destruct (strict_eq (oprop (oprop params "turn") "status") (VStr "completed"));
      destruct (settled w); cbn; set_solver. }
  apply String.eqb_neq in N1, N2, N3, N4, N5.
  cbn. rewrite N1, N2, N3, N4, N5. cbn. set_solver.
Qed.

Lemma handler_resolves w m :
  settled w = false → accepts (w_threadId w) (turnId w) m = true → completes m = true →
  (notificationHandler w m).2 =
  [ClearTimeout; Off;
   ResolvePromise (VObj [("text", VStr (closure_text w)); ("usage", usage w)])].
Proof.
  intros Hs Ha Hc. unfold completes in Hc. apply andb_true_iff in Hc as [Hm Hst].
  unfold accepts in Ha. apply andb_true_iff in Ha as [Ha Hid].
  apply andb_true_iff in Ha as [_ Hth].
  unfold carried_turn in Hid. rewrite Hm in Hid.
  apply method_is_eq in Hm.
  unfold notificationHandler, params_of, admits in *. rewrite Hm.
  set (params := coalesce (field m "params") (VObj [])) in *.
  cbn. rewrite Hth, Hid, Hst. cbn.
  rewrite finish_fresh by by rewrite settled_learn.
  unfold resolveCompleted, closure_text, learn. by destruct (_ && _).
Qed.

(** Every effect of a notification on a waiter resolves or rejects. *)
Lemma delivered_reaction w r ws es :
  reaction w r → r = (ws, es) → 
  (es = [] ∧ settled ws = settled w) ∨
  (settled w = false ∧ settled ws = true ∧
   ((∃ e, is_settlement e = true ∧ es = [ClearTimeout; Off; e]) ∨ es = [ClearTimeout; Off])).
Proof.
  intros [? ? Hq|? ? e Hq Hq' He|? ? Hq Hq'] [= <- <-]; [by left|right..]; eauto 10.
Qed.

(** A resolution comes from one notification, which completes the turn. *)
Lemma run_resolved w inputs v :
  delivered (run w inputs).2 = Some (ResolvePromise v) →
  ∃ pre m post,
    inputs = pre ++ Notify m :: post ∧
    settled (run w pre).1 = false ∧
    accepts (w_threadId w) (turnId (run w pre).1) m = true ∧
    completes m = true ∧
    v = VObj [("text", VStr (closure_text (run w pre).1)); ("usage", usage (run w pre).1)].
Proof.
  revert w. induction inputs as [|i inputs IH]; intros w; [done|].
  cbn [run]. pose proof (react_reaction w i) as Hr.
  destruct (react_state w i) as (Hth & _).
  destruct (react w i) as [w1 es1] eqn:Hreact.
  destruct (delivered_reaction _ _ _ _ Hr eq_refl)
    as [[-> Hs]|(Hs & Hs1 & [(e & He & ->)| ->])].
  - specialize (IH w1). destruct (run w1 inputs) as [w2 es2] eqn:Hrun.
    cbn [fst snd app] in *. intros Hd.
    destruct (IH Hd) as (pre & m & post & -> & Hp & Ha & Hc & Hv).
    exists (i :: pre), m, post. cbn [run app]. rewrite Hreact.
    destruct (run w1 pre) as [w3 es3]; cbn [fst snd] in *.
    by rewrite <- Hth.
  - destruct (run w1 inputs) as [w2 es2]. cbn [fst snd app].
    destruct e as [| |v'|e']; try done; unfold delivered; cbn.
    intros [= ->].
    destruct i as [m| | |]; cbn [react] in Hreact.
    + assert (Hin : ResolvePromise v ∈ (notificationHandler w m).2)
        by (rewrite Hreact; set_solver).
      destruct (handler_resolved _ _ _ Hin) as (Hw & Ha & Hc).
      exists [], m, inputs. cbn [run fst app]. split_and!; try done.
      pose proof (handler_resolves w m Hw Ha Hc) as Heq.
      rewrite Hreact in Heq. by injection Heq.
    + unfold onTimeout, finish in Hreact. by destruct (settled w).
    + done.
    + unfold dispose in Hreact. by destruct (settled w).
  - destruct (run_settled w1 inputs Hs1) as [_ He].
    destruct (run w1 inputs) as [w2 es2]. cbn [fst snd] in *. by subst.
Qed.

(** A notification that completes the turn resolves a waiter that has
    not settled. *)
Lemma run_resolves w pre m post :
  settled (run w pre).1 = false →
  accepts (w_threadId w) (turnId (run w pre).1) m = true →
  completes m = true →
  delivered (run w (pre ++ Notify m :: post)).2 =
  Some (ResolvePromise
          (VObj [("text", VStr (closure_text (run w pre).1));
                 ("usage", usage (run w pre).1)])).
Proof.
  intros Hs Ha Hc. rewrite run_app. cbn [snd run react].
  destruct (run_state w pre) as (Hth & _). cbn zeta in Hth.
  assert (Hq : (run w pre).2 = []).
  { destruct (settled w) eqn:Hw.
    - destruct (run_settled w pre Hw). congruence.
    - destruct (run_history w pre Hw) as [| |]; [done|congruence..]. }
  rewrite Hq. cbn [app].
  rewrite <- Hth in Ha.
  pose proof (handler_resolves _ m Hs Ha Hc) as He.
  destruct (notificationHandler _ m) as [w1 es1]. cbn [snd] in He. subst es1.
  by destruct (run w1 post).
Qed.

(** The waiter of a fresh turn. *)
Lemma fresh_state th timeoutMs inputs :
  let w := (run (createTurnWaiter th timeoutMs) inputs).1 in
  let ms := accepted th VNull inputs in
  turnId w = bound_after th VNull inputs ∧
  closure_text w = resolved_text ms ∧ usage w = resolved_usage ms.
Proof.
  destruct (run_state (createTurnWaiter th timeoutMs) inputs) as (_ & Hid & Hd & Hm & Hu).
  cbn zeta in *. cbn [createTurnWaiter w_threadId turnId aggregatedAgentDeltas
    latestAgentMessage usage] in *.
  unfold closure_text, resolved_text, resolved_usage. rewrite Hid, Hd, Hm, Hu.
  change ("" +:+ ?s) with s.
  split_and!; [done| |by destruct (latest_snapshot _)].
  destruct (latest_message _) as [t|]; cbn; [by destruct (String.eqb t "")|done].
Qed.

End waiter_accepts.

Section waiter_claims.
Import Js TurnWaiter Facts.

Lemma waiter_settles_once_witness :
  delivered
    (run (createTurnWaiter (VStr "th") 5000)
         ([Notify (turn_completed "th" "tu" "completed")] ++
          [Notify (turn_completed "th" "tu" "failed"); Deadline; Dispose])).2 =
  Some (ResolvePromise (VObj [("text", VStr ""); ("usage", VNull)])).
Proof.
  refine (proj2 (proj2 (proj2
    (waiter_settles_once (VStr "th") 5000
       [Notify (turn_completed "th" "tu" "completed")]
       [Notify (turn_completed "th" "tu" "failed"); Deadline; Dispose]))) _ _).
  reflexivity.
Defined.

(** C5, as amended.  A waiter of thread [th] resolves only when it
    accepts, not yet settled, a turn-completed notification of status
    "completed", and every such notification resolves it.  The text it
    resolves with is that of the latest complete agent message it
    accepted, when that text is not empty, and otherwise the deltas it
    accepted, concatenated in arrival order.  The waiter accepts a
    notification of its thread that carries the turn id bound to it and,
    as long as no turn id is bound, one with any turn id or none. *)
Theorem completed_turn_resolves_text (th : value) (timeoutMs : Z) (inputs : list input) :
  let w0 := createTurnWaiter th timeoutMs in
  (∀ v, delivered (run w0 inputs).2 = Some (ResolvePromise v) →
     ∃ pre m post,
       inputs = pre ++ Notify m :: post ∧
       settled (run w0 pre).1 = false ∧
       accepts th (bound_after th VNull pre) m = true ∧ completes m = true ∧
       field v "text" = VStr (resolved_text (accepted th VNull pre))) ∧
  (∀ m more,
     settled (run w0 inputs).1 = false →
     accepts th (bound_after th VNull inputs) m = true → completes m = true →
     ∃ usage,
       delivered (run w0 (inputs ++ Notify m :: more)).2 =
       Some (ResolvePromise
               (VObj [("text", VStr (resolved_text (accepted th VNull inputs)));
                      ("usage", usage)]))).
Proof.
  intros w0. split.
  - intros v Hv.
    destruct (run_resolved w0 inputs v Hv) as (pre & m & post & -> & Hs & Ha & Hc & ->).
    destruct (fresh_state th timeoutMs pre) as (Hid & Ht & _). cbn zeta in *.
    exists pre, m, post. fold w0 in Hid, Ht. rewrite <- Hid, <- Ht. done.
  - intros m more Hs Ha Hc.
    destruct (fresh_state th timeoutMs inputs) as (Hid & Ht & _). cbn zeta in *.
    fold w0 in Hid, Ht. rewrite <- Hid in Ha. rewrite <- Ht.
    eexists. by apply run_resolves.
Qed.

Lemma completed_turn_resolves_text_witness :
  ∃ usage,
    delivered (run (createTurnWaiter (VStr "th") 5000)
                   ([Notify (encode "th" "tu" (AgentDelta "Hel"));
                     SetTurnId (VStr "tu");
                     Notify (encode "th" "tu" (AgentDelta "lo"));
                     Notify (encode "th" "tu" (AgentMessage "Hello!"))] ++
                    Notify (turn_completed "th" "tu" "completed") :: [])).2 =
    Some (ResolvePromise (VObj [("text", VStr "Hello!"); ("usage", usage)])).
Proof.
  exact (proj2 (completed_turn_resolves_text (VStr "th") 5000
                  [Notify (encode "th" "tu" (AgentDelta "Hel"));
                   SetTurnId (VStr "tu");
                   Notify (encode "th" "tu" (AgentDelta "lo"));
                   Notify (encode "th" "tu" (AgentMessage "Hello!"))])
               (turn_completed "th" "tu" "completed") [] eq_refl eq_refl eq_refl).
Defined.

(** C5 as stated fails twice.  A complete agent message with an empty
    text arrived for the turn, and the turn resolves with the streamed
    text "Hi".  And a complete agent message of an earlier turn reached
    the waiter before its turn id was bound: no complete message arrived
    for the turn, and it resolves with "STALE", not with its deltas. *)
Lemma empty_agent_message_counterexample :
  let w0 := createTurnWaiter (VStr "th") 5000 in
  let as_stated inputs :=
    ∃ usage,
      delivered (run w0 inputs).2 =
      Some (ResolvePromise
              (VObj [("text", VStr (prescribed_text (of_turn (VStr "th") (VStr "tu") inputs)));
                     ("usage", usage)])) in
  (latest_message (of_turn (VStr "th") (VStr "tu") empty_message_turn) = Some "" ∧
   delivered (run w0 empty_message_turn).2 =
     Some (ResolvePromise (VObj [("text", VStr "Hi"); ("usage", VNull)])) ∧
   ¬ as_stated empty_message_turn) ∧
  (latest_message (of_turn (VStr "th") (VStr "tu") stale_message_turn) = None ∧
   streamed_text (of_turn (VStr "th") (VStr "tu") stale_message_turn) = "Hi" ∧
   delivered (run w0 stale_message_turn).2 =
     Some (ResolvePromise (VObj [("text", VStr "STALE"); ("usage", VNull)])) ∧
   ¬ as_stated stale_message_turn).
Proof.
  cbn zeta. split_and!; try reflexivity.
  - intros [u Hu]. vm_compute in Hu. discriminate Hu.
  - intros [u Hu]. vm_compute in Hu. discriminate Hu.
Qed.

(** C6, as amended.  A waiter of thread [th] resolves only when it
    accepts, not yet settled, a turn-completed notification of status
    "completed", and every such notification resolves it, with
    [{text, usage}] where [text] is a string.  [usage] is [null] when the
    waiter accepted no token-usage notification; otherwise it is read
    from the last one it accepted (the last wins), each of [inputTokens]
    and [outputTokens] being what that snapshot carries, or 0 when the
    field is missing or null: numbers when the snapshot's fields are
    numbers.  The waiter accepts a notification of its thread that
    carries the turn id bound to it and, as long as no turn id is bound,
    one with any turn id or none. *)
Theorem completed_turn_resolves_usage (th : value) (timeoutMs : Z) (inputs : list input) :
  let w0 := createTurnWaiter th timeoutMs in
  (∀ v, delivered (run w0 inputs).2 = Some (ResolvePromise v) →
     ∃ pre m post (text : string),
       inputs = pre ++ Notify m :: post ∧
       settled (run w0 pre).1 = false ∧
       accepts th (bound_after th VNull pre) m = true ∧ completes m = true ∧
       v = VObj [("text", VStr text);
                 ("usage", resolved_usage (accepted th VNull pre))]) ∧
  (∀ m more,
     settled (run w0 inputs).1 = false →
     accepts th (bound_after th VNull inputs) m = true → completes m = true →
     ∃ text : string,
       delivered (run w0 (inputs ++ Notify m :: more)).2 =
       Some (ResolvePromise
               (VObj [("text", VStr text);
                      ("usage", resolved_usage (accepted th VNull inputs))]))) ∧
  (∀ ms,
     match latest_snapshot ms with
     | None => resolved_usage ms = VNull
     | Some snapshot =>
         resolved_usage ms =
           VObj [("inputTokens", coalesce (oprop snapshot "inputTokens") (VNum 0));
                 ("outputTokens", coalesce (oprop snapshot "outputTokens") (VNum 0))] ∧
         (count_or_absent (oprop snapshot "inputTokens") →
          count_or_absent (oprop snapshot "outputTokens") →
          usage_shape (resolved_usage ms))
     end) ∧
  (∀ ms m snapshot,
     snapshot_of m = Some snapshot → latest_snapshot (ms ++ [m]) = Some snapshot).
Proof.
  intros w0. split_and!.
  - intros v Hv.
    destruct (run_resolved w0 inputs v Hv) as (pre & m & post & -> & Hs & Ha & Hc & ->).
    destruct (fresh_state th timeoutMs pre) as (Hid & _ & Hu). cbn zeta in *.
    exists pre, m, post. fold w0 in Hid, Hu. rewrite <- Hid, <- Hu. eauto 10.
  - intros m more Hs Ha Hc.
    destruct (fresh_state th timeoutMs inputs) as (Hid & _ & Hu). cbn zeta in *.
    fold w0 in Hid, Hu. rewrite <- Hid in Ha. rewrite <- Hu.
    eexists. by apply run_resolves.
  - intros ms. unfold resolved_usage.
    destruct (latest_snapshot ms) as [snapshot|]; [|done].
    split; [done|]. unfold usage_of, usage_shape, count_or_absent.
    intros [Hi|[i Hi]] [Ho|[o Ho]]; unfold coalesce; rewrite ?Hi, ?Ho; cbn; eauto.
  - intros ms m snapshot Hm. rewrite latest_snapshot_app.
    unfold latest_snapshot. cbn. by rewrite Hm.
Qed.

Lemma completed_turn_resolves_usage_witness :
  ∃ text : string,
    delivered (run (createTurnWaiter (VStr "th") 5000)
                   ([SetTurnId (VStr "tu");
                     Notify (encode "th" "tu" (TokenUsage (Some 3) (Some 4)));
                     Notify (encode "th" "tu" (TokenUsage (Some 12) None))] ++
                    Notify (turn_completed "th" "tu" "completed") :: [])).2 =
    Some (ResolvePromise
            (VObj [("text", VStr text);
                   ("usage", VObj [("inputTokens", VNum 12); ("outputTokens", VNum 0)])])).
Proof.
  exact (proj1 (proj2 (completed_turn_resolves_usage (VStr "th") 5000
                  [SetTurnId (VStr "tu");
                   Notify (encode "th" "tu" (TokenUsage (Some 3) (Some 4)));
                   Notify (encode "th" "tu" (TokenUsage (Some 12) None))]))
               (turn_completed "th" "tu" "completed") [] eq_refl eq_refl eq_refl).
Defined.

(** C6 as stated fails three times.  Without a token-usage notification
    the result has [usage: null].  A snapshot whose fields are not numbers
    is passed on as it is.  And a snapshot of an earlier turn that reached
    the waiter before its turn id was bound is the one the turn resolves
    with, though a snapshot of the turn itself arrived. *)
Lemma missing_usage_counterexample :
  let w0 := createTurnWaiter (VStr "th") 5000 in
  let as_stated inputs :=
    ∃ v, delivered (run w0 inputs).2 = Some (ResolvePromise v) ∧
         stated_result (VStr "th") (VStr "tu") inputs v in
  (delivered (run w0 no_usage_turn).2 =
     Some (ResolvePromise (VObj [("text", VStr "Hi"); ("usage", VNull)])) ∧
   ¬ as_stated no_usage_turn) ∧
  (delivered (run w0 untyped_usage_turn).2 =
     Some (ResolvePromise
             (VObj [("text", VStr "");
                    ("usage", VObj [("inputTokens", VStr "12");
                                    ("outputTokens", VBool true)])])) ∧
   ¬ as_stated untyped_usage_turn) ∧
  (prescribed_usage (of_turn (VStr "th") (VStr "tu") stale_usage_turn) =
     Some (VObj [("inputTokens", VNum 1); ("outputTokens", VNum 2)]) ∧
   delivered (run w0 stale_usage_turn).2 =
     Some (ResolvePromise
             (VObj [("text", VStr "");
                    ("usage", VObj [("inputTokens", VNum 111);
                                    ("outputTokens", VNum 222)])])) ∧
   ¬ as_stated stale_usage_turn).
Proof.
  cbn zeta. split_and!; try reflexivity.
  - intros (v & Hv & (t & u & -> & (i & o & ->)) & _). vm_compute in Hv. discriminate Hv.
  - intros (v & Hv & (t & u & -> & (i & o & ->)) & _). vm_compute in Hv. discriminate Hv.
  - intros (v & Hv & _ & Hu). vm_compute in Hv. injection Hv as <-.
    specialize (Hu _ eq_refl). vm_compute in Hu. discriminate Hu.
Qed.

(** C9.  A pending waiter bound to a turn id receives an error
    notification for its thread and that turn.  Without a retry flag the
    waiter settles at once and rejects with [new Error(message)], the
    carried message when there is one; with the flag set nothing
    changes. *)
Theorem error_notification_settles_unless_retrying (w : waiter) (message : value) :
  let params := coalesce (field message "params") (VObj []) in
  settled w = false →
  field message "method" = VStr "error" →
  strict_eq (field params "threadId") (w_threadId w) = true →
  truthy (turnId w) = true →
  strict_eq (field params "turnId") (turnId w) = true →
  (truthy (field params "willRetry") = false →
     notificationHandler w message =
       (set_settled true w,
        [ClearTimeout; Off;
         RejectPromise
           (new_error (coalesce (oprop (oprop params "error") "message")
                                (VStr "Turn failed.")))]) ∧
     ∀ m, oprop (oprop params "error") "message" = VStr m →
          delivered (notificationHandler w message).2 = Some (RejectPromise (VError m))) ∧
  (truthy (field params "willRetry") = true →
     notificationHandler w message = (w, [])).
Proof.
  intros params Hs Hm Hth Hid Hturn.
  assert (Hl : learn (field params "turnId") w = w).
  { unfold learn. by rewrite Hid. }
  assert (Ha : admits w (field params "turnId") = true).
  { unfold admits. by rewrite Hturn, orb_true_r. }
  unfold notificationHandler. fold params. rewrite Hm, Hth, Ha, Hl. cbn.
  split.
  - intros ->. cbn. rewrite finish_fresh by done. split; [done|].
    intros m ->. done.
  - by intros ->.
Qed.

Lemma error_notification_witness :
  let w := set_turnId (VStr "tu") (createTurnWaiter (VStr "th") 5000) in
  let message :=
    notification "error"
      [("threadId", VStr "th"); ("turnId", VStr "tu");
       ("error", VObj [("message", VStr "boom")])] in
  delivered (notificationHandler w message).2 = Some (RejectPromise (VError "boom")).
Proof.
  intros w message.
  refine (proj2 (proj1 (error_notification_settles_unless_retrying w message
            _ _ _ _ _) _) "boom" _); reflexivity.
Defined.

End waiter_claims.

(** ** The responder *)

Section responder_facts.
Import Js Responder Facts.









End responder_facts.

(** ** The promise heap *)

Section heap_facts.
Import Js Client Facts.

Implicit Types (h : promise_heap) (p q : pid) (o : outcome) (k : kont).

Lemma promises_h_alloc p h :
  promises (h_alloc p h) = <[p := Promise None []]> (promises h).
Proof. done. Qed.

Lemma lookup_h_settle p q o h :
  promises (h_settle p o h) !! q =
  if decide (q = p) then
    match promises h !! p with
    | Some (Promise None ks) => Some (Promise (Some o) [])
    | x => x
    end
  else promises h !! q.
Proof.
  unfold h_settle. destruct (promises h !! p) as [[[?|] ks]|] eqn:E; cbn;
    case_decide; subst; rewrite ?E; try done.
  - by rewrite lookup_insert_eq.
  - by rewrite lookup_insert_ne.
Qed.

Lemma microtasks_h_settle p o h :
  microtasks (h_settle p o h) = microtasks h ++ ((λ k, (k, o)) <$> released p h).
Proof.
  unfold h_settle, released.
  destruct (promises h !! p) as [[[?|] ks]|]; cbn; by rewrite ?app_nil_r.
Qed.

Lemma settleLog_h_settle p o h :
  settleLog (h_settle p o h) = settleLog h ++ [(p, o)].
Proof. unfold h_settle. by destruct (promises h !! p) as [[[?|] ks]|]. Qed.

Lemma lookup_h_subscribe p q k h :
  promises (h_subscribe p k h) !! q =
  if decide (q = p) then
    match promises h !! p with
    | Some (Promise None ks) => Some (Promise None (ks ++ [k]))
    | x => x
    end
  else promises h !! q.
Proof.
  unfold h_subscribe. destruct (promises h !! p) as [[[?|] ks]|] eqn:E; cbn;
    case_decide; subst; rewrite ?E; try done.
  - by rewrite lookup_insert_eq.
  - by rewrite lookup_insert_ne.
Qed.

Lemma microtasks_h_subscribe p k h :
  microtasks (h_subscribe p k h) =
  microtasks h ++
  match promises h !! p with
  | Some (Promise (Some o) _) => [(k, o)]
  | _ => []
  end.
Proof.
  unfold h_subscribe.
  destruct (promises h !! p) as [[[?|] ks]|]; cbn; by rewrite ?app_nil_r.
Qed.

Lemma settleLog_h_subscribe p k h :
  settleLog (h_subscribe p k h) = settleLog h.
Proof. unfold h_subscribe. by destruct (promises h !! p) as [[[?|] ks]|]. Qed.

(** A settled promise stays as it is. *)
Lemma h_settle_settled p q o o' h :
  promises h !! q = Some (Promise (Some o') []) →
  promises (h_settle p o h) !! q = Some (Promise (Some o') []).
Proof.
  intros Hq. rewrite lookup_h_settle. case_decide; subst; by rewrite ?Hq.
Qed.

Lemma state_eta (st : state) :
  State (child st) (readline st) (pendingRequests st) (requestCounter st)
    (notificationListeners st) (threadId st) (turnQueue st) (startPromise st)
    (startReject st) (isStopping st) (heap st) (timers st) (waiters st)
    (nextTimer st) (nextWaiter st) (nextTurn st) (nextEnsure st) (nextStart st)
    (written st) (crashed st) (removedLog st) (startedLog st) = st.
Proof. by destruct st. Qed.

(** The loop that rejects every pending request only touches the heap and
    the timers. *)
Lemma rejectEach_eq error entries st :
  rejectEach error entries st =
  set_timers (foldl (λ t e, delete (timeoutId e.2) t) (timers st) entries)
    (set_heap (foldl (λ h e, h_settle (Request, e.1) (Rejected error) h)
                     (heap st) entries) st).
Proof.
  revert st. induction entries as [|e es IH]; intros st.
  - by destruct st.
  - unfold rejectEach in *. cbn [foldl]. rewrite IH. by destruct st.
Qed.

Lemma foldl_settle_rejects error (entries : list (nat * pending)) h id e ks :
  (id, e) ∈ entries →
  promises h !! (Request, id) = Some (Promise None ks) →
  promises (foldl (λ h e, h_settle (Request, e.1) (Rejected error) h) h entries)
    !! (Request, id) = Some (Promise (Some (Rejected error)) []).
Proof.
  intros Hin Hp.
  assert (Hdone : ∀ (es : list (nat * pending)) h',
    promises h' !! (Request, id) = Some (Promise (Some (Rejected error)) []) →
    promises (foldl (λ h e, h_settle (Request, e.1) (Rejected error) h) h' es)
      !! (Request, id) = Some (Promise (Some (Rejected error)) [])).
  { induction es as [|x es IH]; intros h' Hh'; [done|].
    cbn. apply IH. by apply h_settle_settled. }
  revert h ks Hp. induction entries as [|x es IH]; intros h ks Hp.
  - by apply elem_of_nil in Hin.
  - cbn. destruct (decide (x.1 = id)) as [<-|Hne].
    + apply Hdone. rewrite lookup_h_settle, decide_True by done. by rewrite Hp.
    + apply elem_of_cons in Hin as [Heq|Hin]; [by subst x|].
      eapply IH; [done|]. rewrite lookup_h_settle, decide_False by congruence. done.
Qed.

End heap_facts.

(** ** [Map] as an association list *)

Section map_facts.
Import Client.
Context {A : Type}.
Implicit Types (m : list (nat * A)) (k : nat) (a : A).

Lemma map_get_elem_of k a m : map_get k m = Some a → (k, a) ∈ m.
Proof.
  induction m as [|[k' a'] m IH]; cbn; [done|].
  case_decide; [intros [= ->]; subst; left | intros ?; right; auto].
Qed.

Lemma elem_of_keys k a m : (k, a) ∈ m → k ∈ m.*1.
Proof. intros Hin. apply list_elem_of_fmap. by exists (k, a). Qed.

Lemma map_get_None k m : map_get k m = None ↔ k ∉ m.*1.
Proof.
  induction m as [|[k' a'] m IH]; cbn.
  - split; [intros _; apply not_elem_of_nil | done].
  - rewrite not_elem_of_cons. case_decide; [|rewrite IH]; intuition congruence.
Qed.

Lemma elem_of_map_get k a m : NoDup m.*1 → (k, a) ∈ m → map_get k m = Some a.
Proof.
  induction m as [|[k' a'] m IH]; cbn; intros Hnd Hin.
  - by apply elem_of_nil in Hin.
  - apply NoDup_cons in Hnd as [Hk Hnd].
    apply elem_of_cons in Hin as [[= -> ->]|Hin]; [by rewrite decide_True|].
    rewrite decide_False; [by apply IH|].
    intros ->. apply Hk. by eapply elem_of_keys.
Qed.

Lemma map_set_fresh k a m : k ∉ m.*1 → map_set k a m = m ++ [(k, a)].
Proof.
  induction m as [|[k' a'] m IH]; cbn; [done|].
  rewrite not_elem_of_cons. intros [Hne Hk]. rewrite decide_False by done.
  by rewrite IH.
Qed.

Lemma elem_of_map_delete k k' a m :
  (k', a) ∈ map_delete k m ↔ (k', a) ∈ m ∧ k' ≠ k.
Proof. unfold map_delete. rewrite list_elem_of_filter. cbn. intuition. Qed.

Lemma keys_map_delete k m : (map_delete k m).*1 = filter (λ x, x ≠ k) m.*1.
Proof.
  unfold map_delete. induction m as [|[k' a'] m IH]; [done|].
  rewrite fmap_cons, !filter_cons. cbn. case_decide; cbn; by rewrite IH.
Qed.

Lemma map_delete_fresh k m : k ∉ m.*1 → map_delete k m = m.
Proof.
  unfold map_delete. induction m as [|[k' a'] m IH]; [done|].
  rewrite fmap_cons, not_elem_of_cons. intros [Hne Hk].
  rewrite filter_cons_True by (by cbn; intros ->). by rewrite IH.
Qed.

Lemma map_delete_last k a m : k ∉ m.*1 → map_delete k (m ++ [(k, a)]) = m.
Proof.
  intros Hk. unfold map_delete. rewrite filter_app.
  fold (map_delete k m). rewrite map_delete_fresh by done.
  rewrite filter_cons_False by (cbn; intros ?; done). apply app_nil_r.
Qed.
Lemma map_get_set k a m : map_get k (map_set k a m) = Some a.
Proof.
  induction m as [|[k' a'] m IH]; cbn; [by rewrite decide_True|].
  case_decide; cbn; [by rewrite decide_True|by rewrite decide_False].
Qed.
End map_facts.


(** ** Process exit *)

Section exit_facts.
Import Js Client Facts.

Lemma onExit_eq cfg st :
  onExit cfg st =
  let cleared := foldl (λ t e, delete (timeoutId e.2) t) (timers st) (pendingRequests st) in
  let restart := negb (isStopping st) && autoRestart cfg in
  set_nextTimer (if restart then S (nextTimer st) else nextTimer st)
    (set_timers (if restart
                 then <[nextTimer st := (restartDelayMs cfg, RestartTimer)]> cleared
                 else cleared)
    (set_heap (foldl (λ h e, h_settle (Request, e.1) (Rejected exit_error) h)
                     (heap st) (pendingRequests st))
    (set_removedLog (removedLog st ++ (pendingRequests st).*1)
    (set_pendingRequests []
    (set_child None (set_threadId VNull st)))))).
Proof.
  unfold onExit, rejectAll, clearRequests. rewrite rejectEach_eq.
  destruct st as [? ? ? ? ? ? ? ? ? stopping]; cbn.
  by destruct stopping, (autoRestart cfg).
Qed.

(** C8.  The "exit" listener, whatever the code and signal: the thread id
    and the child are dropped; the reject function of every entry of
    [this.pendingRequests] is called, in order, with the process-exited
    error, so that every request still pending is rejected with it; the
    table is cleared and the timers of its entries with it; and a timer
    for [restartDelayMs] that calls [ensureReady] is armed exactly when
    no stop is in progress and auto-restart is enabled. *)
Theorem exit_tears_down (cfg : config) (st : state) :
  let st' := onExit cfg st in
  let restart := negb (isStopping st) && autoRestart cfg in
  threadId st' = VNull ∧
  child st' = None ∧
  pendingRequests st' = [] ∧
  removedLog st' = removedLog st ++ (pendingRequests st).*1 ∧
  heap st' = foldl (λ h e, h_settle (Request, e.1) (Rejected exit_error) h)
                   (heap st) (pendingRequests st) ∧
  (∀ id e ks, (id, e) ∈ pendingRequests st →
     promises (heap st) !! (Request, id) = Some (Promise None ks) →
     outcome_of (Request, id) st' = Some (Rejected exit_error)) ∧
  timers st' =
    (let cleared := foldl (λ t e, delete (timeoutId e.2) t)
                          (timers st) (pendingRequests st) in
     if restart
     then <[nextTimer st := (restartDelayMs cfg, RestartTimer)]> cleared
     else cleared) ∧
  (∀ s, fire cfg RestartTimer s =
        subscribe (Ensure, (ensureReady cfg s).1) KRestartFailed (ensureReady cfg s).2).
Proof.
  intros st' restart. subst st'. rewrite onExit_eq. cbn.
  split_and!; try done.
  - intros id e ks Hin Hp. unfold outcome_of. cbn.
    by erewrite foldl_settle_rejects.
  - intros s. unfold fire. by destruct (ensureReady cfg s).
Qed.

Lemma exit_tears_down_witness :
  outcome_of (Request, 1%nat) (onExit defaults (run defaults initial [EnsureReady])) =
  Some (Rejected exit_error).
Proof.
  refine (proj1 (proj2 (proj2 (proj2 (proj2 (proj2
    (exit_tears_down defaults (run defaults initial [EnsureReady])))))))
    1%nat (Pending 0 "initialize") [KStartInternal1 0] _ _).
  - vm_compute. by left.
  - reflexivity.
Defined.

End exit_facts.

(** ** The bookkeeping of requests *)

Section request_ok_facts.
Import Js Client Facts.
Context (cfg : config).
Implicit Types (table : list (nat * pending)) (timers : gmap nat (Z * timer))
  (deadlines : gmap nat nat) (log : list (pid * outcome)) (removed : list nat).

Lemma count_app_one {B} (P : B → Prop) `{∀ x, Decision (P x)} (l : list B) (x : B) :
  length (filter P (l ++ [x])) = (length (filter P l) + if decide (P x) then 1 else 0)%nat.
Proof. rewrite filter_app, length_app, filter_cons. by case_decide. Qed.

(** [#sendRequest] registers a request. *)
Lemma ok_add table counter timers next deadlines log removed m :
  request_ok cfg table counter timers next deadlines log removed →
  request_ok cfg (table ++ [(counter, Pending next m)]) (S counter)
    (<[next := (requestTimeoutMs cfg, RequestTimer counter m)]> timers) (S next)
    deadlines log removed.
Proof.
  intros [Hc Hnd He Ht Hf Hd Hn].
  assert (Hfresh : counter ∉ table.*1).
  { intros (x & -> & Hx)%list_elem_of_fmap. destruct x as [id e].
    destruct (He id e Hx) as [? _]. cbn in *. lia. }
  assert (Hnone : timers !! next = None).
  { destruct (timers !! next) eqn:E; [|done].
    assert (next < next)%nat by (apply Hf; by rewrite E). lia. }
  split.
  - lia.
  - rewrite fmap_app. apply NoDup_app. split_and!; [done| |apply NoDup_singleton].
    intros x Hx ->%list_elem_of_singleton. done.
  - intros id e [Hin|[= -> ->]%list_elem_of_singleton]%elem_of_app.
    + destruct (He id e Hin) as [? Htm]. split; [lia|].
      rewrite lookup_insert_ne; [done|]. intros Heq. by rewrite <- Heq, Hnone in Htm.
    + cbn. split; [lia|]. by rewrite lookup_insert_eq.
  - intros t d id m' [[<- [= <- <- <-]]|[_ Hold]]%lookup_insert_Some.
    + eexists. split; [apply elem_of_app; right; by left|done].
    + destruct (Ht _ _ _ _ Hold) as (e & ? & ?). exists e. split; [|done].
      apply elem_of_app. by left.
  - intros t [->|Hs]%lookup_insert_is_Some'; [lia|]. specialize (Hf t Hs). lia.
  - intros w d Hw. destruct (Hd w d Hw) as [? Hcb]. split; [lia|].
    intros x cb Hx. rewrite lookup_insert_ne in Hx by lia. eauto.
  - intros id. specialize (Hn id). rewrite Hn. rewrite fmap_app. cbn.
    clear -Hfresh.
    repeat case_decide; try done; try lia; exfalso; set_solver by lia.
Qed.

(** A response, a timeout or a failed write takes a request out and
    calls its continuation. *)
Lemma ok_remove table counter timers next deadlines log removed id e o :
  request_ok cfg table counter timers next deadlines log removed →
  (id, e) ∈ table →
  request_ok cfg (map_delete id table) counter (delete (timeoutId e) timers) next
    deadlines (log ++ [((Request, id), o)]) (removed ++ [id]).
Proof.
  intros [Hc Hnd He Ht Hf Hd Hn] Hin.
  destruct (He id e Hin) as [Hid Htm].
  assert (Hother : ∀ id' e', (id', e') ∈ table → id' ≠ id → timeoutId e' ≠ timeoutId e).
  { intros id' e' Hin' Hne Heq. destruct (He id' e' Hin') as [_ Htm'].
    rewrite Heq, Htm in Htm'. congruence. }
  split.
  - done.
  - rewrite keys_map_delete. by apply NoDup_filter.
  - intros id' e' [Hin' Hne]%elem_of_map_delete.
    destruct (He id' e' Hin') as [? Htm']. split; [done|].
    rewrite lookup_delete_ne; [done|]. intros Heq. by eapply Hother.
  - intros t d id' m [Hne Hold]%lookup_delete_Some.
    destruct (Ht _ _ _ _ Hold) as (e' & Hin' & <-). exists e'. split; [|done].
    apply elem_of_map_delete. split; [done|]. intros ->.
    assert (e' = e) as ->; [|done].
    pose proof (elem_of_map_get _ _ _ Hnd Hin) as G1.
    pose proof (elem_of_map_get _ _ _ Hnd Hin') as G2. congruence.
  - intros t [_ Hs]%lookup_delete_is_Some. by apply Hf.
  - intros w d Hw. destruct (Hd w d Hw) as [? Hcb]. split; [done|].
    intros x cb [_ Hx]%lookup_delete_Some. eauto.
  - intros id'. specialize (Hn id'). rewrite !count_app_one. cbn.
    rewrite keys_map_delete.
    pose proof (elem_of_keys _ _ _ Hin) as Hk.
    clear -Hn Hk Hid.
    repeat case_decide; simplify_eq; rewrite ?list_elem_of_filter in *;
      try done; try lia; try (exfalso; naive_solver).
    all: f_equal; lia.
Qed.


(** [stop()] and the "exit" listener reject every request and clear the
    table. *)
Lemma ok_clear_all table counter timers next deadlines log removed o :
  request_ok cfg table counter timers next deadlines log removed →
  request_ok cfg [] counter
    (foldl (λ t e, delete (timeoutId e.2) t) timers table) next deadlines
    (log ++ ((λ e, ((Request, e.1), o)) <$> table)) (removed ++ table.*1).
Proof.
  revert timers log removed.
  induction table as [|[id e] rest IH]; intros timers log removed Hok.
  - cbn. by rewrite !app_nil_r.
  - pose proof (ro_nodup _ _ _ _ _ _ _ _ Hok) as Hnd. cbn in Hnd.
    apply NoDup_cons in Hnd as [Hid _].
    eapply (ok_remove _ _ _ _ _ _ _ id e o) in Hok; [|by left].
    replace (map_delete id ((id, e) :: rest)) with rest in Hok.
    2:{ unfold map_delete. rewrite filter_cons_False by (cbn; intros ?; done).
        symmetry. by apply map_delete_fresh. }
    apply IH in Hok. rewrite <- !app_assoc in Hok. exact Hok.
Qed.

(** Clearing a timer that is not the timer of a request. *)
Lemma ok_clear_timer table counter timers next deadlines log removed t :
  request_ok cfg table counter timers next deadlines log removed →
  (∀ id e, (id, e) ∈ table → timeoutId e ≠ t) →
  request_ok cfg table counter (delete t timers) next deadlines log removed.
Proof.
  intros [Hc Hnd He Ht Hf Hd Hn] Hne. split; try done.
  - intros id e Hin. destruct (He id e Hin) as [? Htm]. split; [done|].
    rewrite lookup_delete_ne; [done|]. intros Heq. by eapply Hne.
  - intros t' d id m [_ Hold]%lookup_delete_Some. eauto.
  - intros t' [_ Hs]%lookup_delete_is_Some. by apply Hf.
  - intros w d Hw. destruct (Hd w d Hw) as [? Hcb]. split; [done|].
    intros x cb [_ Hx]%lookup_delete_Some. eauto.
Qed.

Lemma ok_not_request_timer table counter timers next deadlines log removed t d cb :
  request_ok cfg table counter timers next deadlines log removed →
  timers !! t = Some (d, cb) →
  (∀ id m, cb ≠ RequestTimer id m) →
  ∀ id e, (id, e) ∈ table → timeoutId e ≠ t.
Proof.
  intros Hok Ht Hcb id e Hin <-.
  destruct (ro_entry _ _ _ _ _ _ _ _ Hok id e Hin) as [_ Htm].
  rewrite Htm in Ht. injection Ht as _ <-. by eapply Hcb.
Qed.

(** The deadline of a waiter is not the timer of a request. *)
Lemma ok_clear_deadline table counter timers next deadlines log removed w d :
  request_ok cfg table counter timers next deadlines log removed →
  deadlines !! w = Some d →
  request_ok cfg table counter (delete d timers) next deadlines log removed.
Proof.
  intros Hok Hw. apply ok_clear_timer; [done|].
  intros id e Hin <-.
  destruct (ro_entry _ _ _ _ _ _ _ _ Hok id e Hin) as [_ Htm].
  destruct (ro_deadline _ _ _ _ _ _ _ _ Hok w _ Hw) as [_ Hcb].
  by specialize (Hcb _ _ Htm).
Qed.

(** Arming the restart timer. *)
Lemma ok_set_restart table counter timers next deadlines log removed d :
  request_ok cfg table counter timers next deadlines log removed →
  request_ok cfg table counter (<[next := (d, RestartTimer)]> timers) (S next)
    deadlines log removed.
Proof.
  intros [Hc Hnd He Ht Hf Hd Hn].
  assert (Hnone : timers !! next = None).
  { destruct (timers !! next) eqn:E; [|done].
    assert (next < next)%nat by (apply Hf; by rewrite E). lia. }
  split; try done.
  - intros id e Hin. destruct (He id e Hin) as [? Htm]. split; [done|].
    rewrite lookup_insert_ne; [done|]. intros Heq. by rewrite <- Heq, Hnone in Htm.
  - intros t d' id m [[_ [=]]|[_ Hold]]%lookup_insert_Some. eauto.
  - intros t [->|Hs]%lookup_insert_is_Some'; [lia|]. specialize (Hf t Hs). lia.
  - intros w d' Hw. destruct (Hd w d' Hw) as [? Hcb]. split; [lia|].
    intros x cb Hx. rewrite lookup_insert_ne in Hx by lia. eauto.
Qed.

(** [#createTurnWaiter] arms the deadline of a new waiter. *)
Lemma ok_set_deadline table counter timers next deadlines log removed d w :
  request_ok cfg table counter timers next deadlines log removed →
  request_ok cfg table counter (<[next := (d, TurnTimer w)]> timers) (S next)
    (<[w := next]> deadlines) log removed.
Proof.
  intros [Hc Hnd He Ht Hf Hd Hn].
  assert (Hnone : timers !! next = None).
  { destruct (timers !! next) eqn:E; [|done].
    assert (next < next)%nat by (apply Hf; by rewrite E). lia. }
  split; try done.
  - intros id e Hin. destruct (He id e Hin) as [? Htm]. split; [done|].
    rewrite lookup_insert_ne; [done|]. intros Heq. by rewrite <- Heq, Hnone in Htm.
  - intros t d' id m [[_ [=]]|[_ Hold]]%lookup_insert_Some. eauto.
  - intros t [->|Hs]%lookup_insert_is_Some'; [lia|]. specialize (Hf t Hs). lia.
  - intros w' d' [[<- <-]|[_ Hw]]%lookup_insert_Some.
    + split; [lia|]. intros x cb. rewrite lookup_insert_eq. by intros [= _ <-].
    + destruct (Hd w' d' Hw) as [? Hcb]. split; [lia|].
      intros x cb Hx. rewrite lookup_insert_ne in Hx by lia. eauto.
Qed.
End request_ok_facts.

Section request_inv_facts.
Import Js Client Facts.
Context (cfg : config).

Lemma settleLog_h_alloc p h : settleLog (h_alloc p h) = settleLog h.
Proof. done. Qed.

Lemma filter_request_other (l : list (pid * outcome)) p o :
  p.1 ≠ Request →
  filter (λ e : pid * outcome, e.1.1 = Request) (l ++ [(p, o)]) =
  filter (λ e : pid * outcome, e.1.1 = Request) l.
Proof.
  intros Hp. rewrite filter_app, filter_cons_False by done. apply app_nil_r.
Qed.

Lemma filter_request_same (l : list (pid * outcome)) id o :
  filter (λ e : pid * outcome, e.1.1 = Request) (l ++ [((Request, id), o)]) =
  filter (λ e : pid * outcome, e.1.1 = Request) l ++ [((Request, id), o)].
Proof. by rewrite filter_app, filter_cons_True by done. Qed.

Ltac view_norm :=
  unfold request_inv, request_view;
  try unfold spawnProcess; try unfold resetSession; try unfold kill;
  repeat first
    [ progress cbn -[h_settle h_subscribe h_alloc filter map_get map_delete map_set]
    | rewrite settleLog_h_settle
    | rewrite settleLog_h_subscribe
    | rewrite settleLog_h_alloc ];
  rewrite ?filter_request_same; rewrite ?filter_request_other by discriminate.

(** Steps that leave the bookkeeping alone. *)
Ltac frame H :=
  revert H; view_norm;
  repeat (match goal with
          | |- context [if ?b then _ else _] => destruct b
          | |- context [match ?x with Some _ => _ | None => _ end] => destruct x
          end; view_norm);
  exact id.

Lemma request_inv_fresh st id :
  request_inv cfg st → (requestCounter st ≤ id)%nat → id ∉ (pendingRequests st).*1.
Proof.
  unfold request_inv, request_view. intros Hok Hid (x & -> & Hx)%list_elem_of_fmap.
  destruct x as [id e]. destruct (ro_entry _ _ _ _ _ _ _ _ Hok id e Hx) as [? _].
  cbn in *. lia.
Qed.

Lemma inv_sendRequest m ps st :
  request_inv cfg st → request_inv cfg (sendRequest cfg m ps st).2.
Proof.
  intros H. pose proof (request_inv_fresh st _ H (le_n _)) as Hfresh.
  unfold sendRequest. destruct (child_alive st); [|done]. cbn [negb].
  unfold setTimeout, writeMessage, forget.
  cbn -[h_settle h_subscribe h_alloc filter map_get map_delete map_set].
  rewrite map_get_set, map_set_fresh by done.
  destruct (child st) as [[[] []]|]; revert H; view_norm; intros Hok.
  all: try by apply ok_add.
  all: eapply (ok_remove _ _ _ _ _ _ _ _ _ (Pending _ _)); [by apply ok_add|].
  all: apply elem_of_app; right; by left.
Qed.

Lemma inv_settle p o st :
  p.1 ≠ Request → request_inv cfg st → request_inv cfg (settle p o st).
Proof. intros Hp H. revert H. view_norm. by rewrite filter_request_other. Qed.

Lemma inv_startInternal n st :
  request_inv cfg st → request_inv cfg (startInternal cfg n st).
Proof.
  intros H. unfold startInternal. cbv zeta.
  destruct (isStopping _); [frame H|].
  match goal with |- context [sendRequest cfg ?m ?ps ?X] =>
    pose proof (inv_sendRequest m ps X) as Hs;
    destruct (sendRequest cfg m ps X) as [[rq|e] st1] end.
  all: cbn [snd] in Hs; assert (H1 : request_inv cfg st1) by (apply Hs; frame H).
  all: frame H1.
Qed.

Lemma inv_ensureReady st :
  request_inv cfg st → request_inv cfg (ensureReady cfg st).2.
Proof.
  intros H. unfold ensureReady. cbv zeta.
  destruct (truthy _ && child_alive _); [frame H|].
  destruct (startPromise _); [frame H|]. cbn [snd].
  match goal with |- context [startInternal cfg ?n ?X] =>
    pose proof (inv_startInternal n X) as Hs;
    assert (H1 : request_inv cfg (startInternal cfg n X)) by (apply Hs; frame H);
    generalize dependent (startInternal cfg n X) end.
  intros st1 _ H1. frame H1.
Qed.


Lemma inv_clear_deadline w entry st :
  waiters st !! w = Some entry →
  request_inv cfg st → request_inv cfg (clearTimeout (deadline entry) st).
Proof.
  intros Hw. view_norm. intros Hok. eapply ok_clear_deadline; [done|].
  by rewrite lookup_fmap, Hw.
Qed.

Lemma inv_perform_all w entry es st :
  waiters st !! w = Some entry →
  request_inv cfg st →
  request_inv cfg (foldl (λ st e, perform w (deadline entry) e st) st es).
Proof.
  revert st. induction es as [|e es IH]; intros st Hw H; [done|].
  cbn [foldl]. apply IH.
  - by destruct e.
  - destruct e; cbn [perform]; [by apply (inv_clear_deadline w)|frame H|..];
      by apply inv_settle.
Qed.

Lemma inv_call_waiter w f st :
  request_inv cfg st → request_inv cfg (call_waiter w f st).
Proof.
  intros H. unfold call_waiter. destruct (waiters st !! w) as [entry|] eqn:Hw; [|done].
  destruct (f (closure entry)) as [c es].
  change (deadline entry) with (deadline (TurnWaiterEntry c (deadline entry))).
  apply inv_perform_all.
  - cbn. by rewrite lookup_insert_eq.
  - revert H. view_norm. rewrite fmap_insert. cbn.
    rewrite insert_id; [done|]. by rewrite lookup_fmap, Hw.
Qed.

Lemma inv_createTurnWaiter th ms st :
  request_inv cfg st → request_inv cfg (createTurnWaiter th ms st).2.
Proof.
  unfold createTurnWaiter, setTimeout. view_norm. rewrite fmap_insert. cbn.
  apply ok_set_deadline.
Qed.

Lemma inv_forget_settle id entry o st :
  map_get id (pendingRequests st) = Some entry →
  request_inv cfg st →
  request_inv cfg
    (settle (Request, id) o (forget id (clearTimeout (timeoutId entry) st))).
Proof.
  intros Hg. unfold forget. cbn [clearTimeout pendingRequests set_timers].
  rewrite Hg. view_norm. intros Hok. apply ok_remove; [done|].
  by apply map_get_elem_of.
Qed.

Lemma inv_handleResponse message st :
  request_inv cfg st → request_inv cfg (handleResponse message st).
Proof.
  intros H. unfold handleResponse.
  destruct (request_id _) as [id|]; [|done].
  destruct (map_get id _) as [entry|] eqn:Hg; [|done]. cbv zeta.
  destruct (get_field _ _); by apply inv_forget_settle.
Qed.

Lemma inv_emitNotification message st :
  request_inv cfg st → request_inv cfg (emitNotification message st).
Proof.
  intros H. unfold emitNotification. generalize (notificationListeners st).
  intros ws. revert st H. induction ws as [|w ws IH]; intros st H; [done|].
  cbn [foldl]. apply IH. case_decide; [|done]. by apply inv_call_waiter.
Qed.

Lemma inv_handleLine l st :
  request_inv cfg st → request_inv cfg (handleLine l st).
Proof.
  intros H. destruct l as [| |message]; cbn [handleLine]; [done|frame H|].
  destruct (has_own message "id") as [hasId|]; [|frame H].
  destruct (has_own message "result") as [hasResult|]; [|frame H].
  destruct (has_own message "error") as [hasError|]; [|frame H].
  cbv zeta. repeat case_match; try done.
  - unfold handleServerRequest, writeMessage. frame H.
  - by apply inv_handleResponse.
  - by apply inv_emitNotification.
Qed.

Lemma settleLog_foldl_settle error (entries : list (nat * pending)) h :
  settleLog (foldl (λ h e, h_settle (Request, e.1) (Rejected error) h) h entries) =
  settleLog h ++ ((λ e, ((Request, e.1), Rejected error)) <$> entries).
Proof.
  revert h. induction entries as [|e es IH]; intros h; cbn; [by rewrite app_nil_r|].
  by rewrite IH, settleLog_h_settle, <- app_assoc.
Qed.

Lemma filter_request_all (l : list (pid * outcome)) o (entries : list (nat * pending)) :
  filter (λ e : pid * outcome, e.1.1 = Request)
    (l ++ ((λ e, ((Request, e.1), o)) <$> entries)) =
  filter (λ e : pid * outcome, e.1.1 = Request) l ++
  ((λ e, ((Request, e.1), o)) <$> entries).
Proof.
  rewrite filter_app. f_equal.
  induction entries as [|e es IH]; [done|].
  rewrite fmap_cons, filter_cons_True by done. by rewrite IH.
Qed.

Lemma inv_rejectAll_clear error st :
  request_inv cfg st → request_inv cfg (clearRequests (rejectAll error st)).
Proof.
  unfold rejectAll, clearRequests. rewrite rejectEach_eq. view_norm.
  rewrite settleLog_foldl_settle, filter_request_all. apply ok_clear_all.
Qed.

Lemma inv_stop st : request_inv cfg st → request_inv cfg (stop st).
Proof.
  intros H. unfold stop. cbv zeta.
  pose proof (inv_rejectAll_clear (VError "Codex client is shutting down.")
                (set_isStopping true st)) as Hs.
  assert (H1 : request_inv cfg (clearRequests (rejectAll (VError "Codex client is shutting down.") (set_isStopping true st))))
    by (apply Hs; frame H).
  generalize dependent (clearRequests (rejectAll (VError "Codex client is shutting down.") (set_isStopping true st))).
  intros st1 _ H1. frame H1.
Qed.

Lemma inv_onExit st : request_inv cfg st → request_inv cfg (onExit cfg st).
Proof.
  intros H. unfold onExit. cbv zeta.
  pose proof (inv_rejectAll_clear (VError "Codex app-server exited.")
                (set_threadId VNull st)) as Hs.
  match type of Hs with _ → request_inv _ ?X =>
    assert (H1 : request_inv cfg X) by (apply Hs; frame H);
    generalize dependent X end.
  intros st1 _ H1.
  destruct (isStopping _ || negb _); [frame H1|].
  unfold setTimeout. revert H1. view_norm. apply ok_set_restart.
Qed.

Lemma inv_onChildError error st :
  request_inv cfg st → request_inv cfg (onChildError error st).
Proof. intros H. unfold onChildError. frame H. Qed.

Lemma inv_queueTurn args st :
  request_inv cfg st → request_inv cfg (queueTurn args st).
Proof. intros H. unfold queueTurn. frame H. Qed.


Ltac after_sendRequest H :=
  match goal with |- context [sendRequest cfg ?m ?ps ?X] =>
    let Hs := fresh "Hs" in
    let st1 := fresh "st1" in
    pose proof (inv_sendRequest m ps X) as Hs;
    destruct (sendRequest cfg m ps X) as [[?|?] st1];
    cbn [snd] in Hs;
    (assert (request_inv cfg st1) by (apply Hs; first [exact H | frame H]))
  end.

Lemma inv_react k o st :
  request_inv cfg st → request_inv cfg (react cfg k o st).
Proof.
  intros H. destruct k; cbn [react]; cbv zeta.
  - (* KTask *)
    unfold runTurn. cbv zeta.
    match goal with |- context [ensureReady cfg ?X] =>
      pose proof (inv_ensureReady X) as He;
      destruct (ensureReady cfg X) as [n st1] end.
    cbn [snd] in He. assert (H1 : request_inv cfg st1) by (apply He; frame H).
    frame H1.
  - frame H.
  - frame H.
  - frame H.
  - frame H.
  - frame H.
  - frame H.
  - (* KStartInternal1 *)
    destruct o; [|frame H]. unfold sendNotification, writeMessage.
    destruct (child st) as [c|] eqn:Hc; [|frame H].
    destruct (negb _ && _); [|frame H].
    after_sendRequest H.
    + frame H0.
    + frame H0.
  - (* KStartInternal2 *)
    destruct o; frame H.
  - (* KRunTurn1 *)
    destruct o; [|frame H]. destruct (negb _); [frame H|].
    match goal with |- context [createTurnWaiter ?th ?ms ?X] =>
      pose proof (inv_createTurnWaiter th ms X H) as Hw;
      destruct (createTurnWaiter th ms X) as [w st1] end.
    cbn [snd] in Hw.
    after_sendRequest Hw.
    + frame H0.
    + apply inv_settle; [done|]. by apply inv_call_waiter.
  - (* KRunTurn2 *)
    destruct o.
    + destruct (truthy _).
      * match goal with |- context [call_waiter ?w ?f ?X] =>
          pose proof (inv_call_waiter w f X H) as Hw;
          generalize dependent (call_waiter w f X) end.
        intros st1 H1. frame H1.
      * frame H.
    + apply inv_settle; [done|]. by apply inv_call_waiter.
  - (* KRunTurn3 *)
    apply inv_settle; [done|]. by apply inv_call_waiter.
  - done.
Qed.

Lemma inv_fire t d cb st :
  timers st !! t = Some (d, cb) →
  request_inv cfg st → request_inv cfg (fire cfg cb (clearTimeout t st)).
Proof.
  intros Ht H. destruct cb as [id m|w|]; cbn [fire].
  - assert (∃ e, map_get id (pendingRequests st) = Some e ∧ timeoutId e = t)
      as (e & Hg & <-).
    { unfold request_inv, request_view in H.
      destruct (ro_timer _ _ _ _ _ _ _ _ H _ _ _ _ Ht) as (e & Hin & He).
      exists e. split; [|done]. apply elem_of_map_get; [|done].
      apply (ro_nodup _ _ _ _ _ _ _ _ H). }
    by apply inv_forget_settle.
  - apply inv_call_waiter. revert H. view_norm. intros Hok.
    apply ok_clear_timer; [done|]. by eapply ok_not_request_timer.
  - assert (H1 : request_inv cfg (clearTimeout t st)).
    { revert H. view_norm. intros Hok.
      apply ok_clear_timer; [done|]. by eapply ok_not_request_timer. }
    pose proof (inv_ensureReady _ H1) as He.
    destruct (ensureReady cfg (clearTimeout t st)) as [n st1]. cbn [snd] in He.
    frame He.
Qed.

Lemma inv_step st l : request_inv cfg st → request_inv cfg (step cfg st l).
Proof.
  intros H. unfold step. destruct (crashed st); [done|].
  destruct l as [args| | |l|error| | |t|].
  - by apply inv_queueTurn.
  - by apply inv_ensureReady.
  - by apply inv_stop.
  - destruct (readline st); [|done]. by apply inv_handleLine.
  - by apply inv_onChildError.
  - by apply inv_onExit.
  - frame H.
  - destruct (timers st !! t) as [[d cb]|] eqn:Ht; [|done]. by eapply inv_fire.
  - destruct (microtasks (heap st)) as [|[k o] rest]; [done|].
    apply inv_react. frame H.
Qed.

Lemma inv_initial : request_inv cfg initial.
Proof.
  unfold request_inv, request_view. cbn. split; try done.
  - apply NoDup_nil_2.
  - intros id e Hin. by apply elem_of_nil in Hin.
  - intros t [x Hx]. by rewrite lookup_empty in Hx.
  - intros id. rewrite decide_False by apply not_elem_of_nil.
    case_decide; [lia|done].
Qed.

Lemma inv_run ls : request_inv cfg (run cfg initial ls).
Proof.
  unfold run. induction ls as [|l ls IH] using rev_ind; [apply inv_initial|].
  rewrite foldl_app. cbn. by apply inv_step.
Qed.

Lemma settle_calls_view id st :
  settle_calls (Request, id) st =
  length (filter (λ e : pid * outcome, e.1 = (Request, id))
            (filter (λ e : pid * outcome, e.1.1 = Request) (settleLog (heap st)))).
Proof.
  unfold settle_calls. f_equal.
  induction (settleLog (heap st)) as [|[[s n] o] l IH]; [done|].
  rewrite !filter_cons. cbn.
  destruct (decide ((s, n) = (Request, id))) as [[= -> ->]|Hne].
  - rewrite decide_True by done. rewrite filter_cons_True by done. by rewrite IH.
  - destruct (decide (s = Request)) as [->|]; [|done].
    by rewrite filter_cons_False by done.
Qed.

Lemma request_inv_counts st id :
  request_inv cfg st →
  ((settle_calls (Request, id) st, removals id st)) =
  (if decide (id ∈ (pendingRequests st).*1) then (0, 0)%nat
   else if decide (1 ≤ id < requestCounter st)%nat then (1, 1)%nat
   else (0, 0)%nat).
Proof.
  unfold request_inv, request_view. intros Hok.
  rewrite settle_calls_view. apply (ro_counts _ _ _ _ _ _ _ _ Hok).
Qed.
End request_inv_facts.

Section request_claims.
Import Js Client Facts.

(** C2.  In every state the client can reach, a request id allocated by
    [#sendRequest] is in one of two situations.  Either it is still a key
    of [this.pendingRequests]: then neither function of its continuation
    was called, it was never removed, and the timer of its entry is armed,
    so that (unless an exception has escaped) the timeout removes it and
    calls the continuation once.  Or it is no longer a key: then it was
    removed exactly once, its continuation was called exactly once, and no
    timer for it is left.  The runs range over every order of responses,
    timeouts, failed writes, [stop()] calls and process exits. *)
Theorem pending_request_settled_once (cfg : config) (ls : list label) (id : nat) :
  let st := run cfg initial ls in
  (1 ≤ id < requestCounter st)%nat →
  (id ∈ (pendingRequests st).*1 →
     settle_calls (Request, id) st = 0%nat ∧ removals id st = 0%nat ∧
     ∃ e, (id, e) ∈ pendingRequests st ∧
          timers st !! timeoutId e =
            Some (requestTimeoutMs cfg, RequestTimer id (method e)) ∧
          (crashed st = false →
           let st' := step cfg st (Timeout (timeoutId e)) in
           (id ∉ (pendingRequests st').*1) ∧
           settle_calls (Request, id) st' = 1%nat ∧ removals id st' = 1%nat)) ∧
  (id ∉ (pendingRequests st).*1 →
     settle_calls (Request, id) st = 1%nat ∧ removals id st = 1%nat ∧
     ∀ t d m, timers st !! t ≠ Some (d, RequestTimer id m)).
Proof.
  intros st Hid. pose proof (inv_run cfg ls) as H. fold st in H.
  pose proof (request_inv_counts cfg st id H) as Hc.
  split; intros Hk.
  - rewrite decide_True in Hc by done. injection Hc as -> ->.
    apply list_elem_of_fmap in Hk as ([id' e] & -> & Hin). cbn [fst] in *.
    assert (Htm : timers st !! timeoutId e =
                  Some (requestTimeoutMs cfg, RequestTimer id' (method e))).
    { unfold request_inv, request_view in H.
      by destruct (ro_entry _ _ _ _ _ _ _ _ H id' e Hin). }
    split_and!; [done..|]. exists e. split_and!; [done..|].
    intros Hcr. set (st' := step cfg st (Timeout (timeoutId e))).
    assert (Hst' : pendingRequests st' = map_delete id' (pendingRequests st)).
    { subst st'. unfold step. rewrite Hcr, Htm. cbn [fire]. unfold forget.
      cbn [clearTimeout pendingRequests set_timers].
      rewrite (elem_of_map_get id' e); [done| |done].
      unfold request_inv, request_view in H. apply (ro_nodup _ _ _ _ _ _ _ _ H). }
    assert (Hnk : id' ∉ (pendingRequests st').*1).
    { rewrite Hst', keys_map_delete. intros [? _]%list_elem_of_filter. done. }
    split; [done|].
    pose proof (request_inv_counts cfg st' id' (inv_step cfg st _ H)) as Hc'.
    rewrite decide_False in Hc' by done.
    assert (requestCounter st' = requestCounter st) as Hrc.
    { subst st'. unfold step. rewrite Hcr, Htm. cbn [fire]. unfold forget.
      by destruct (map_get _ _). }
    rewrite Hrc, decide_True in Hc' by done. by injection Hc' as -> ->.
  - rewrite decide_False in Hc by done. rewrite decide_True in Hc by done.
    injection Hc as -> ->. split_and!; [done..|].
    intros t d m Ht. unfold request_inv, request_view in H.
    destruct (ro_timer _ _ _ _ _ _ _ _ H _ _ _ _ Ht) as (e & Hin & _).
    apply Hk. by eapply elem_of_keys.
Qed.

Lemma pending_request_settled_once_witness :
  let st := run defaults initial
              [EnsureReady;
               Line (Json (VObj [("id", VNum 1); ("result", VObj [])]))] in
  settle_calls (Request, 1%nat) st = 1%nat ∧ removals 1 st = 1%nat.
Proof.
  intros st.
  destruct (pending_request_settled_once defaults
              [EnsureReady;
               Line (Json (VObj [("id", VNum 1); ("result", VObj [])]))] 1%nat)
    as [_ Hgone].
  - vm_compute. lia.
  - destruct Hgone as (Hs & Hr & _); [|by split].
    vm_compute. intros Hin. by apply elem_of_nil in Hin.
Defined.

End request_claims.

(** ** A process exit during a turn *)

Section crash_facts.
Import Js Client Facts.

Lemma heap_call_dispose w st :
  heap (dispose w st) = heap st ∧ crashed (dispose w st) = crashed st.
Proof.
  unfold dispose, call_waiter. destruct (waiters st !! w) as [entry|]; [|done].
  unfold TurnWaiter.dispose. by destruct (TurnWaiter.settled _).
Qed.

(** C7, which the code does not meet.  The turn was sent and the process
    answered "turn/start"; the process then exits.  The exit listener
    rejects the entries of [pendingRequests] and nothing else: once every
    microtask has run the turn is still pending, and it is its deadline
    that rejects it, with the time-out error and not the process-exited
    error. *)
Lemma in_flight_turn_survives_exit :
  let before := run defaults initial turn_running in
  let after := run defaults before [Exit; Tick; Tick; Tick; Tick] in
  length (frames_for "turn/start" before) = 1%nat ∧
  outcome_of (Result, 1%nat) before = None ∧
  child after = None ∧
  microtasks (heap after) = [] ∧
  outcome_of (Result, 1%nat) after = None ∧
  outcome_of (Caller, 1%nat) after = None ∧
  outcome_of (Caller, 1%nat) (run defaults after [Timeout 2; Tick; Tick; Tick; Tick]) =
    Some (Rejected (VError "Turn timed out after 5000ms.")).
Proof. vm_compute. by split_and!. Qed.

Lemma tick_eq cfg st k o rest :
  crashed st = false → microtasks (heap st) = (k, o) :: rest →
  step cfg st Tick = react cfg k o (on_heap (set_microtasks rest) st).
Proof. intros Hc Hm. unfold step. by rewrite Hc, Hm. Qed.

(** The path the exit listener does cover.  The process exits while the
    "turn/start" request of turn [i] is the outstanding request and still
    awaits its response: after the exit listener and the four reactions
    it sets off, the result of the turn and the promise returned to its
    caller are rejected with the process-exited error. *)
Theorem exit_rejects_turn_awaiting_start
    (cfg : config) (st : state) (i w id : nat) (e : pending) (callers : list kont) :
  crashed st = false →
  microtasks (heap st) = [] →
  pendingRequests st = [(id, e)] →
  promises (heap st) !! (Request, id) = Some (Promise None [KRunTurn2 i w]) →
  promises (heap st) !! (RunTurn, i) = Some (Promise None [KResolveResult i]) →
  promises (heap st) !! (Result, i) = Some (Promise None [KUndefined i; KReturnResult i]) →
  promises (heap st) !! (Caller, i) = Some (Promise None callers) →
  let st' := run cfg st [Exit; Tick; Tick; Tick; Tick] in
  outcome_of (Result, i) st' = Some (Rejected exit_error) ∧
  outcome_of (Caller, i) st' = Some (Rejected exit_error).
Proof.
  intros Hcr Hmt Htab Hrq Hrt Hres Hcal st'. subst st'. cbn [run foldl].
  (* the exit listener *)
  set (st1 := step cfg st Exit).
  assert (H1 : crashed st1 = false ∧
               heap st1 = h_settle (Request, id) (Rejected exit_error) (heap st)).
  { subst st1. unfold step. rewrite Hcr, onExit_eq, Htab. by cbn. }
  destruct H1 as [Hc1 Hh1]. clearbody st1.
  assert (Hm1 : microtasks (heap st1) = [(KRunTurn2 i w, Rejected exit_error)]).
  { rewrite Hh1, microtasks_h_settle, Hmt. unfold released. by rewrite Hrq. }
  (* [#runTurn] resumes with the rejection *)
  rewrite (tick_eq cfg st1 _ _ _ Hc1 Hm1). cbn [react].
  set (st2 := settle _ _ _).
  assert (H2 : crashed st2 = false ∧
               heap st2 = h_settle (RunTurn, i) (Rejected exit_error)
                            (set_microtasks [] (heap st1))).
  { subst st2.
    destruct (heap_call_dispose w (on_heap (set_microtasks []) st1)) as [Hd1 Hd2].
    split.
    - change (crashed (dispose w (on_heap (set_microtasks []) st1)) = false).
      by rewrite Hd2.
    - change (h_settle (RunTurn, i) (Rejected exit_error)
                (heap (dispose w (on_heap (set_microtasks []) st1))) =
              h_settle (RunTurn, i) (Rejected exit_error)
                (set_microtasks [] (heap st1))).
      by rewrite Hd1. }
  destruct H2 as [Hc2 Hh2]. clearbody st2.
  assert (Hl : ∀ p, p.1 ≠ Request →
            promises (set_microtasks [] (heap st1)) !! p = promises (heap st) !! p).
  { intros p Hp. cbn. rewrite Hh1, lookup_h_settle. rewrite decide_False; [done|].
    intros ->. done. }
  assert (Hm2 : microtasks (heap st2) = [(KResolveResult i, Rejected exit_error)]).
  { rewrite Hh2, microtasks_h_settle. unfold released. by rewrite Hl, Hrt. }
  (* [result] follows the promise of [#runTurn] *)
  rewrite (tick_eq cfg st2 _ _ _ Hc2 Hm2). cbn [react].
  set (st3 := settle _ _ _).
  assert (H3 : crashed st3 = false ∧
               heap st3 = h_settle (Result, i) (Rejected exit_error)
                            (set_microtasks [] (heap st2))) by done.
  destruct H3 as [Hc3 Hh3]. clearbody st3.
  assert (Hl2 : ∀ p, p.1 ≠ Request → p.1 ≠ RunTurn →
            promises (set_microtasks [] (heap st2)) !! p = promises (heap st) !! p).
  { intros p Hp Hp'. cbn. rewrite Hh2, lookup_h_settle. rewrite decide_False.
    - by apply Hl.
    - intros ->. done. }
  assert (Hm3 : microtasks (heap st3) =
                [(KUndefined i, Rejected exit_error); (KReturnResult i, Rejected exit_error)]).
  { rewrite Hh3, microtasks_h_settle. unfold released. by rewrite Hl2, Hres. }
  assert (Hr3 : promises (heap st3) !! (Result, i) =
                Some (Promise (Some (Rejected exit_error)) [])).
  { rewrite Hh3, lookup_h_settle, decide_True by done. by rewrite Hl2, Hres. }
  assert (Hca3 : promises (heap st3) !! (Caller, i) = Some (Promise None callers)).
  { rewrite Hh3, lookup_h_settle, decide_False by done. by rewrite Hl2. }
  (* the queue moves on *)
  rewrite (tick_eq cfg st3 _ _ _ Hc3 Hm3). cbn [react].
  set (st4 := settle _ _ _).
  assert (H4 : crashed st4 = false ∧
               heap st4 = h_settle (Tq, i) (Fulfilled VUndef)
                            (set_microtasks [(KReturnResult i, Rejected exit_error)]
                               (heap st3))) by done.
  destruct H4 as [Hc4 Hh4]. clearbody st4.
  assert (Hm4 : ∃ rest, microtasks (heap st4) =
                        (KReturnResult i, Rejected exit_error) :: rest).
  { rewrite Hh4, microtasks_h_settle. cbn. by eexists. }
  destruct Hm4 as [rest Hm4].
  (* the caller's promise follows [result] *)
  rewrite (tick_eq cfg st4 _ _ _ Hc4 Hm4). cbn [react].
  unfold outcome_of, settle, on_heap. cbn [heap set_heap set_microtasks promises].
  split.
  - rewrite lookup_h_settle, decide_False by done. cbn [promises set_microtasks].
    rewrite Hh4, lookup_h_settle, decide_False by done. cbn [promises set_microtasks].
    by rewrite Hr3.
  - rewrite lookup_h_settle, decide_True by done. cbn [promises set_microtasks].
    rewrite Hh4, lookup_h_settle, decide_False by done. cbn [promises set_microtasks].
    by rewrite Hca3.
Qed.

Lemma exit_rejects_turn_awaiting_start_witness :
  outcome_of (Caller, 1%nat)
    (run defaults (run defaults initial turn_started) [Exit; Tick; Tick; Tick; Tick]) =
  Some (Rejected exit_error).
Proof.
  refine (proj2 (exit_rejects_turn_awaiting_start defaults
            (run defaults initial turn_started) 1 0 3 (Pending 3 "turn/start") []
            _ _ _ _ _ _ _)); reflexivity.
Defined.
End crash_facts.
(** ** The turn queue: what the operations on promises preserve *)

Ltac chain_fields H :=
  destruct H as [Hnext Hcounter Hdone Hvalid Halloc Hsettled Hmicro Hparked Htq Hres Hrun
                 Hrunning Hlog Hstarted Hlink].

Section chain_heap.
Import Js Client Facts.
Implicit Types (H : promise_heap) (p q : pid) (o : outcome) (k : kont) (ph : phase).

Lemma if_running_stage {A} (j d s : nat) (x y : A) :
  s ≠ 1%nat → (if decide (j = S d ∧ s = 1%nat) then x else y) = y.
Proof. intros. rewrite decide_False; [done|]. by intros [_ ?]. Qed.

Lemma if_running_turn {A} (j d s : nat) (x y : A) :
  j ≠ S d → (if decide (j = S d ∧ s = 1%nat) then x else y) = y.
Proof. intros. rewrite decide_False; [done|]. by intros [? _]. Qed.

Lemma relaxes_refl ph : relaxes ph ph.
Proof. by left. Qed.

Lemma relaxes_trans ph1 ph2 ph3 : relaxes ph1 ph2 → relaxes ph2 ph3 → relaxes ph1 ph3.
Proof.
  intros [->|(k & p & -> & ->)] [->|(k' & p' & E & ->)]; try (by left);
    try (right; by eauto).
Qed.

Lemma relaxes_unpark p ph : relaxes ph (unpark p ph).
Proof.
  destruct ph as [|k [| | |p']]; cbn; try by left.
  case_decide; [right; eauto|by left].
Qed.

Lemma relaxes_at_rest ph ph' : relaxes ph ph' → at_rest ph → at_rest ph'.
Proof. by intros [->|(k & p & -> & ->)]. Qed.


Lemma same_turn_unpark p ph : same_turn ph (unpark p ph).
Proof.
  destruct ph as [|k [| | |p']]; cbn; try done.
  case_decide; cbn; split; done.
Qed.

Lemma same_turn_refl ph : same_turn ph ph.
Proof. done. Qed.

Lemma same_turn_stage ph ph' : same_turn ph ph' → stage ph' = stage ph.
Proof. by intros []. Qed.

Lemma chain_ok_transfer H H' table table' n next started cE cR cW d ph ph' :
  chain_ok H table n next started cE cR cW d ph →
  same_turn ph ph' →
  valid_phase d cE cR cW ph' →
  (∀ q, chain_site q.1 = true → promises H' !! q = promises H !! q) →
  (∀ q, allocated H q → allocated H' q) →
  (∀ q pr, promises H' !! q = Some pr → chain_site q.1 = false →
     is_Some (settlement pr) → reactions pr = []) →
  filter (λ k, turnish k = true) (microtasks H').*1 = queued ph' →
  (∀ q pr, promises H' !! q = Some pr → chain_site q.1 = false →
     filter (λ k, turnish k = true) (reactions pr) = parked_at ph' q) →
  result_log (settleLog H') = result_log (settleLog H) →
  (∀ id e, (id, e) ∈ table' → method e = "turn/start" →
     ∃ w, ph' = Active (KRunTurn2 (S d) w) (Parked (Request, id))) →
  chain_ok H' table' n next started cE cR cW d ph'.
Proof.
  intros Hok Hsame Hvalid' Hchain Hal Hset Hmicro' Hpark Hlog' Hlink'.
  chain_fields Hok.
  assert (Hstage : stage ph' = stage ph) by by apply same_turn_stage.
  assert (Hsc : settled_count d ph' = settled_count d ph)
    by (unfold settled_count; by rewrite Hstage).
  assert (Hst : started_count d ph' = started_count d ph)
    by (unfold started_count; by rewrite Hstage).
  split; try done.
  - destruct Hdone as [? Hi]. split; [done|]. rewrite <- Hi.
    destruct Hsame as (_ & Hs & _). by rewrite Hs.
  - intros q Hq Hlt. apply Hal. by apply Halloc.
  - intros q pr Hq Hs. destruct (chain_site q.1) eqn:E; [|by eapply Hset].
    rewrite Hchain in Hq by done. by eapply Hsettled.
  - intros j. rewrite !Hchain by done. apply Htq.
  - intros j. rewrite !Hchain, Hsc by done. apply Hres.
  - intros j pr. rewrite !Hchain, Hstage by done. intros Hj.
    specialize (Hrun j pr Hj). case_decide; [|done].
    destruct Hsame as (_ & _ & Hs). rewrite Hrun. f_equal.
    destruct ph as [|k []], ph' as [|k' []]; cbn in Hs; try done; naive_solver.
  - rewrite Hstage. intros Hs. apply Hal. auto.
  - by rewrite Hlog', Hsc.
  - by rewrite Hst.
Qed.

Lemma allocated_h_alloc p q H : allocated H q → allocated (h_alloc p H) q.
Proof.
  unfold allocated. rewrite promises_h_alloc. intros Hq.
  destruct (decide (q = p)) as [->|]; [by rewrite lookup_insert_eq|by rewrite lookup_insert_ne].
Qed.

Lemma allocated_h_settle p q o H : allocated H q → allocated (h_settle p o H) q.
Proof.
  unfold allocated. rewrite lookup_h_settle. intros [x Hq]. case_decide; subst; [|by eauto].
  rewrite Hq. destruct x as [[?|] ?]; eauto.
Qed.

Lemma allocated_h_subscribe p q k H : allocated H q → allocated (h_subscribe p k H) q.
Proof.
  unfold allocated. rewrite lookup_h_subscribe. intros [x Hq]. case_decide; subst; [|by eauto].
  rewrite Hq. destruct x as [[?|] ?]; eauto.
Qed.

Lemma valid_phase_mono d cE cR cW cE' cR' cW' ph :
  valid_phase d cE cR cW ph →
  (cE ≤ cE')%nat → (cR ≤ cR')%nat → (cW ≤ cW')%nat →
  valid_phase d cE' cR' cW' ph.
Proof.
  destruct ph as [|k a]; [done|]. cbn. intros (? & ? & Ha & Hw) ???.
  split_and!; try done.
  - destruct a as [| | |[s j]]; try done. destruct Ha as (? & Hlt). split_and!; auto.
    unfold numbered in *. cbn in *. destruct s; cbn in *; lia.
  - destruct k; auto. lia.
Qed.

Lemma valid_phase_unpark d cE cR cW p ph :
  valid_phase d cE cR cW ph → valid_phase d cE cR cW (unpark p ph).
Proof.
  destruct ph as [|k [| | |p']]; cbn; try done. case_decide; cbn; [|done].
  naive_solver.
Qed.

Lemma not_chain_ne p q : chain_site p.1 = false → chain_site q.1 = true → q ≠ p.
Proof. intros Hp Hq ->. congruence. Qed.

(** Registering a reaction that does not carry a turn on a promise
    outside the queue. *)
Lemma chain_subscribe H table n next started cE cR cW d ph p k :
  chain_site p.1 = false → turnish k = false →
  chain_ok H table n next started cE cR cW d ph →
  chain_ok (h_subscribe p k H) table n next started cE cR cW d ph.
Proof.
  intros Hp Hk Hok. eapply chain_ok_transfer; [exact Hok|..].
  - apply same_turn_refl.
  - apply Hok.
  - intros q Hq. rewrite lookup_h_subscribe, decide_False; [done|by eapply not_chain_ne].
  - intros q; apply allocated_h_subscribe.
  - chain_fields Hok. intros q pr. rewrite lookup_h_subscribe.
    destruct (decide (q = p)) as [->|Hne].
    + destruct (promises H !! p) as [[[?|] ks]|] eqn:E; intros Hq Hc Hs; simplify_eq; cbn in *.
      * by apply (Hsettled p _ E).
      * by apply is_Some_None in Hs.
    + intros; by eapply Hsettled.
  - chain_fields Hok. rewrite microtasks_h_subscribe, fmap_app, filter_app, Hmicro.
    destruct (promises H !! p) as [[[?|] ks]|]; rewrite ?fmap_nil, ?filter_nil, ?app_nil_r;
      try done.
    change ([(k, o)].*1) with [k].
    rewrite filter_cons_False, filter_nil, app_nil_r; [done|by rewrite Hk].
  - chain_fields Hok. intros q pr. rewrite lookup_h_subscribe.
    destruct (decide (q = p)) as [->|Hne].
    + destruct (promises H !! p) as [[[?|] ks]|] eqn:E; intros Hq Hc; simplify_eq; cbn in *.
      * by apply (Hparked p _ E).
      * rewrite filter_app, filter_cons_False, filter_nil, app_nil_r by (by rewrite Hk).
        by apply (Hparked p _ E).
    + intros; by eapply Hparked.
  - by rewrite settleLog_h_subscribe.
  - apply Hok.
Qed.

Lemma lookup_h_alloc p q H :
  promises (h_alloc p H) !! q =
  if decide (q = p) then Some (Promise None []) else promises H !! q.
Proof.
  rewrite promises_h_alloc. case_decide; subst;
    [by rewrite lookup_insert_eq|by rewrite lookup_insert_ne].
Qed.

Lemma chain_bump H table n next started cE cR cW cE' cR' cW' d ph :
  (cE ≤ cE')%nat → (cR ≤ cR')%nat → (cW ≤ cW')%nat →
  (∀ q, chain_site q.1 = false → numbered cE' cR' cW' q → allocated H q) →
  chain_ok H table n next started cE cR cW d ph →
  chain_ok H table n next started cE' cR' cW' d ph.
Proof.
  intros ??? Hal Hok. chain_fields Hok. split; try done; [lia|].
  by eapply valid_phase_mono.
Qed.

(** A new promise outside the queue, with the next serial number of its
    kind if promises of its kind are numbered. *)
Lemma chain_alloc H table n next started cE cR cW cE' cR' cW' d ph p :
  chain_site p.1 = false →
  (counter_of cE cR cW p.1 ≤ p.2)%nat →
  (cE ≤ cE')%nat → (cR ≤ cR')%nat → (cW ≤ cW')%nat →
  (∀ q, numbered cE' cR' cW' q → numbered cE cR cW q ∨ q = p) →
  chain_ok H table n next started cE cR cW d ph →
  chain_ok (h_alloc p H) table n next started cE' cR' cW' d ph.
Proof.
  intros Hp Hfresh ??? Hnew Hok.
  assert (Hfree : parked_at ph p = []).
  { chain_fields Hok. destruct ph as [|k [| | |p']]; cbn; try done.
    destruct Hvalid as (_ & _ & (_ & Hlt) & _).
    rewrite decide_False; [done|]. intros <-. unfold numbered in Hlt. lia. }
  eapply chain_bump; [done..| |].
  { intros q Hq Hlt. destruct (Hnew q Hlt) as [Hold| ->].
    - apply allocated_h_alloc. by apply (co_alloc _ _ _ _ _ _ _ _ _ _ Hok).
    - unfold allocated. rewrite lookup_h_alloc, decide_True by done. by eexists. }
  eapply chain_ok_transfer; [exact Hok|..].
  - apply same_turn_refl.
  - apply Hok.
  - intros q Hq. rewrite lookup_h_alloc, decide_False; [done|by eapply not_chain_ne].
  - intros q; apply allocated_h_alloc.
  - chain_fields Hok. intros q pr. rewrite lookup_h_alloc.
    destruct (decide (q = p)) as [->|Hne].
    + intros; by simplify_eq.
    + intros; by eapply Hsettled.
  - apply Hok.
  - chain_fields Hok. intros q pr. rewrite lookup_h_alloc.
    destruct (decide (q = p)) as [->|Hne].
    + intros; by simplify_eq.
    + intros; by eapply Hparked.
  - done.
  - apply Hok.
Qed.

Lemma result_log_app log1 log2 :
  result_log (log1 ++ log2) = result_log log1 ++ result_log log2.
Proof. unfold result_log. by rewrite filter_app, !fmap_app. Qed.

Lemma result_log_other p o log :
  p.1 ≠ Result → result_log (log ++ [(p, o)]) = result_log log.
Proof.
  intros Hp. rewrite result_log_app. unfold result_log at 2.
  rewrite filter_cons_False by done. by rewrite filter_nil, app_nil_r.
Qed.

Lemma parked_pending H table n next started cE cR cW d k p :
  chain_ok H table n next started cE cR cW d (Active k (Parked p)) →
  ∃ ks, promises H !! p = Some (Promise None ks) ∧
        filter (λ k, turnish k = true) ks = [k].
Proof.
  intros Hok. chain_fields Hok. destruct Hvalid as (? & ? & (Hpk & ?) & ?).
  assert (Hc : chain_site p.1 = false) by (destruct k, p as [[] ?]; done).
  destruct (Halloc p Hc) as [pr Hpr]; [done|].
  specialize (Hparked p pr Hpr Hc). cbn in Hparked. rewrite decide_True in Hparked by done.
  destruct pr as [[o|] ks]; [|by eauto].
  specialize (Hsettled _ _ Hpr). cbn in Hsettled. rewrite Hsettled in Hparked by eauto.
  done.
Qed.

(** Settling a promise outside the queue: the reaction of the turn, if it
    is registered there, is queued. *)
Lemma chain_settle H table table' n next started cE cR cW d ph p o :
  chain_site p.1 = false →
  (∀ id e, (id, e) ∈ table' → method e = "turn/start" →
     (id, e) ∈ table ∧ p ≠ (Request, id)) →
  chain_ok H table n next started cE cR cW d ph →
  chain_ok (h_settle p o H) table' n next started cE cR cW d (unpark p ph).
Proof.
  intros Hp Htab Hok. eapply chain_ok_transfer; [exact Hok|..].
  - apply same_turn_unpark.
  - apply valid_phase_unpark. apply Hok.
  - intros q Hq. rewrite lookup_h_settle, decide_False; [done|by eapply not_chain_ne].
  - intros q; apply allocated_h_settle.
  - chain_fields Hok. intros q pr. rewrite lookup_h_settle.
    destruct (decide (q = p)) as [->|Hne].
    + destruct (promises H !! p) as [[[?|] ks]|] eqn:E; intros Hq Hc Hs; simplify_eq; cbn in *.
      * by apply (Hsettled p _ E).
      * done.
    + intros; by eapply Hsettled.
  - rewrite microtasks_h_settle, fmap_app, filter_app.
    rewrite <- list_fmap_compose. change (fst ∘ _) with (@id kont). rewrite list_fmap_id.
    destruct ph as [|k [| | |p']]; cbn [unpark].
    5: { destruct (decide (p = p')) as [<-|Hne].
         - destruct (parked_pending _ _ _ _ _ _ _ _ _ _ _ Hok) as (ks & Hks & Hf).
           chain_fields Hok. rewrite Hmicro. unfold released. by rewrite Hks, Hf.
         - chain_fields Hok. rewrite Hmicro. unfold released.
           destruct (promises H !! p) as [[[?|] ks]|] eqn:E; rewrite ?filter_nil; try done.
           pose proof (Hparked p _ E Hp) as Hx. cbn in Hx. rewrite decide_False in Hx by done.
           by rewrite Hx. }
    all: chain_fields Hok; rewrite Hmicro; unfold released;
      destruct (promises H !! p) as [[[?|] ks]|] eqn:E; rewrite ?filter_nil, ?app_nil_r;
        try done; pose proof (Hparked p _ E Hp) as Hx; cbn in Hx; by rewrite Hx.
  - chain_fields Hok. intros q pr. rewrite lookup_h_settle.
    assert (Hun : ∀ q, q ≠ p → parked_at (unpark p ph) q = parked_at ph q).
    { intros q' Hq'. destruct ph as [|k [| | |p']]; cbn; try done.
      destruct (decide (p = p')) as [<-|?]; cbn; [by rewrite decide_False|done]. }
    assert (Hup : parked_at (unpark p ph) p = []).
    { destruct ph as [|k [| | |p']]; cbn; try done.
      destruct (decide (p = p')) as [<-|?]; cbn; [done|by rewrite decide_False]. }
    destruct (decide (q = p)) as [->|Hne].
    + rewrite Hup.
      destruct (promises H !! p) as [[[?|] ks]|] eqn:E; intros Hq Hc; simplify_eq; cbn in *.
      * pose proof (Hsettled p _ E) as Hx. cbn in Hx. rewrite Hx; [done|by eauto].
      * done.
    + rewrite Hun by done. intros; by eapply Hparked.
  - rewrite settleLog_h_settle. apply result_log_other. by destruct p as [[] ?].
  - intros id e Hin Hm. destruct (Htab id e Hin Hm) as [Hin' Hne].
    chain_fields Hok. destruct (Hlink id e Hin' Hm) as [w ->]. exists w. cbn.
    by rewrite decide_False.
Qed.

(** Fewer entries in the table. *)
Lemma chain_weaken H table table' n next started cE cR cW d ph :
  (∀ id e, (id, e) ∈ table' → method e = "turn/start" → (id, e) ∈ table) →
  chain_ok H table n next started cE cR cW d ph →
  chain_ok H table' n next started cE cR cW d ph.
Proof.
  intros Htab Hok. chain_fields Hok. split; try done.
  intros id e Hin Hm. eapply Hlink; [|done]. by apply Htab.
Qed.

(** Taking the next microtask. *)
Lemma chain_pop H table n next started cE cR cW d ph k o rest :
  microtasks H = (k, o) :: rest → turnish k = false →
  chain_ok H table n next started cE cR cW d ph →
  chain_ok (set_microtasks rest H) table n next started cE cR cW d ph.
Proof.
  intros Hm Hk Hok. eapply chain_ok_transfer; [exact Hok|..].
  - apply same_turn_refl.
  - apply Hok.
  - done.
  - done.
  - intros q pr Hq _ Hs. exact (co_settled _ _ _ _ _ _ _ _ _ _ Hok q pr Hq Hs).
  - chain_fields Hok. rewrite Hm, fmap_cons in Hmicro. cbn [fst] in Hmicro.
    rewrite filter_cons_False in Hmicro by (by rewrite Hk). done.
  - apply Hok.
  - done.
  - apply Hok.
Qed.

Lemma chain_pop_turn H table n next started cE cR cW d ph k o rest :
  microtasks H = (k, o) :: rest → turnish k = true →
  chain_ok H table n next started cE cR cW d ph →
  ph = Active k Queued ∧
  chain_ok (set_microtasks rest H) table n next started cE cR cW d (Active k Held).
Proof.
  intros Hm Hk Hok.
  assert (Hqd : queued ph = k :: filter (λ k, turnish k = true) rest.*1).
  { chain_fields Hok. rewrite Hm, fmap_cons in Hmicro. cbn [fst] in Hmicro.
    by rewrite filter_cons_True in Hmicro. }
  assert (ph = Active k Queued ∧ filter (λ k, turnish k = true) rest.*1 = []) as [-> Hrest].
  { destruct ph as [|k' []]; cbn in Hqd; by simplify_eq. }
  split; [done|].
  eapply chain_ok_transfer; [exact Hok|..].
  - done.
  - chain_fields Hok. cbn in *. naive_solver.
  - done.
  - done.
  - intros q pr Hq _ Hs. exact (co_settled _ _ _ _ _ _ _ _ _ _ Hok q pr Hq Hs).
  - done.
  - chain_fields Hok. intros q pr Hq' Hc. by rewrite (Hparked q pr Hq' Hc).
  - done.
  - intros id e Hin Hme. chain_fields Hok. by destruct (Hlink id e Hin Hme).
Qed.

Lemma park_at_rest H p k : at_rest (park H p k).
Proof. unfold park. by destruct (promises H !! p) as [[[?|] ?]|]. Qed.

(** The running turn awaits a promise outside the queue. *)
Lemma chain_park H table table' n next started cE cR cW d k p :
  chain_site p.1 = false → parks k p.1 = true →
  numbered cE cR cW p →
  (∀ id e, (id, e) ∈ table' → method e = "turn/start" →
     ∃ w, park H p k = Active (KRunTurn2 (S d) w) (Parked (Request, id))) →
  chain_ok H table n next started cE cR cW d (Active k Held) →
  chain_ok (h_subscribe p k H) table' n next started cE cR cW d (park H p k).
Proof.
  intros Hp Hpk Hlt Htab Hok.
  destruct (co_alloc _ _ _ _ _ _ _ _ _ _ Hok p Hp Hlt) as [pr Hpr].
  assert (Hk : turnish k = true) by (destruct k; done).
  eapply chain_ok_transfer; [exact Hok|..].
  - unfold park. rewrite Hpr. by destruct pr as [[?|] ?].
  - pose proof (co_valid _ _ _ _ _ _ _ _ _ _ Hok) as Hv.
    unfold park. rewrite Hpr. destruct pr as [[?|] ?]; [done|].
    cbn in *. split_and!; try apply Hv; try done.
  - intros q Hq. rewrite lookup_h_subscribe, decide_False; [done|by eapply not_chain_ne].
  - intros q; apply allocated_h_subscribe.
  - chain_fields Hok. intros q pr'. rewrite lookup_h_subscribe.
    destruct (decide (q = p)) as [->|Hne].
    + rewrite Hpr. destruct pr as [[?|] ks]; intros Hq Hc Hs; simplify_eq; cbn in *.
      * by apply (Hsettled p _ Hpr).
      * by apply is_Some_None in Hs.
    + intros; by eapply Hsettled.
  - chain_fields Hok. rewrite microtasks_h_subscribe, fmap_app, filter_app, Hmicro.
    unfold park. rewrite Hpr. destruct pr as [[?|] ks]; [|done].
    change ([(k, o)].*1) with [k]. by rewrite filter_cons_True.
  - chain_fields Hok. intros q pr'. rewrite lookup_h_subscribe. unfold park. rewrite Hpr.
    destruct (decide (q = p)) as [->|Hne].
    + pose proof (Hparked p _ Hpr Hp) as Hx.
      destruct pr as [[?|] ks]; intros Hq Hc; simplify_eq; cbn in *; [done|].
      rewrite filter_app, Hx, filter_cons_True by done. by rewrite decide_True.
    + intros Hq Hc. rewrite (Hparked q pr' Hq Hc).
      destruct pr as [[?|] ks]; cbn; [done|]. by rewrite decide_False.
  - by rewrite settleLog_h_subscribe.
  - done.
Qed.

(** The running turn moves from one continuation to the next. *)
Lemma chain_rename H table n next started cE cR cW d k k' :
  turnish k' = true → turn_of k' = turn_of k → stage_of k' = stage_of k →
  match k' with
  | KRunTurn2 _ w => (w < cW)%nat
  | _ => True
  end →
  chain_ok H table n next started cE cR cW d (Active k Held) →
  chain_ok H table n next started cE cR cW d (Active k' Held).
Proof.
  intros Hk Ht Hs Hw Hok. eapply chain_ok_transfer; [exact Hok|..].
  - done.
  - chain_fields Hok. cbn in *. split_and!; try done. rewrite Ht. apply Hvalid.
  - done.
  - done.
  - intros q pr Hq _ Hse. exact (co_settled _ _ _ _ _ _ _ _ _ _ Hok q pr Hq Hse).
  - apply Hok.
  - apply Hok.
  - done.
  - intros id e Hin Hme. chain_fields Hok. by destruct (Hlink id e Hin Hme).
Qed.

(** The task of the next turn is called: [#runTurn] creates its promise. *)
Lemma chain_task H table n next started cE cR cW d c args :
  chain_ok H table n next started cE cR cW d (Active (KTask c args) Held) →
  chain_ok (h_alloc (RunTurn, c) H) table n next (started ++ [c]) cE cR cW d
    (Active (KRunTurn1 c args) Starting).
Proof.
  intros Hok. chain_fields Hok.
  assert (c = S d) as -> by (cbn in Hvalid; naive_solver).
  split.
  - done.
  - done.
  - destruct Hdone as [? Hi]. split; [done|]. split; [done|]. intros <-.
    by destruct Hi as [_ Hi]; specialize (Hi eq_refl).
  - done.
  - intros q Hq Hlt. apply allocated_h_alloc. by apply Halloc.
  - intros q pr. rewrite lookup_h_alloc. destruct (decide (q = (RunTurn, S d))) as [->|?].
    + intros; by simplify_eq.
    + apply Hsettled.
  - done.
  - intros q pr Hq Hc. rewrite lookup_h_alloc, decide_False in Hq by (intros ->; done).
    by rewrite (Hparked q pr Hq Hc).
  - intros j. rewrite lookup_h_alloc, decide_False by done. apply Htq.
  - intros j. rewrite lookup_h_alloc, decide_False by done. apply Hres.
  - intros j pr. rewrite lookup_h_alloc. cbn [stage stage_of].
    destruct (decide (j = S d)) as [->|Hne].
    + rewrite !decide_True by done. by intros [= <-].
    + rewrite decide_False by congruence. rewrite if_running_turn by done. intros Hj.
      specialize (Hrun j pr Hj). by rewrite if_running_turn in Hrun by done.
  - intros _. unfold allocated. rewrite lookup_h_alloc, decide_True by done. by eexists.
  - done.
  - rewrite Hstarted. unfold started_count. cbn [stage stage_of].
    rewrite decide_False, decide_True by lia. by rewrite seq_S.
  - intros id e Hin Hm. by destruct (Hlink id e Hin Hm).
Qed.

Lemma done_active (d n : nat) k a k' a' :
  (d ≤ n)%nat ∧ (Active k a = Idle ↔ d = n) →
  (d ≤ n)%nat ∧ (Active k' a' = Idle ↔ d = n).
Proof. intros [? [_ Hi]]. split; [done|]. split; [done|]. intros E. by specialize (Hi E). Qed.

Lemma stage_1_count d k a :
  stage_of k = 1%nat →
  settled_count d (Active k a) = d ∧ started_count d (Active k a) = S d.
Proof.
  intros Hs. unfold settled_count, started_count. cbn [stage]. rewrite Hs.
  by rewrite decide_False, decide_True by lia.
Qed.

(** [result] follows the promise of [#runTurn]. *)
Lemma chain_start H table n next started cE cR cW d k :
  chain_ok H table n next started cE cR cW d (Active k Starting) →
  chain_ok (h_subscribe (RunTurn, S d) (KResolveResult (S d)) H)
    table n next started cE cR cW d (Active k Held).
Proof.
  intros Hok. chain_fields Hok.
  assert (Hs : stage_of k = 1%nat) by (cbn in Hvalid; naive_solver).
  destruct (Hrunning Hs) as [pr0 Hpr0].
  pose proof (Hrun _ _ Hpr0) as Hx. cbn [stage] in Hx. rewrite decide_True in Hx by done.
  subst pr0.
  destruct (stage_1_count d k Starting Hs) as [Hsc Hst].
  destruct (stage_1_count d k Held Hs) as [Hsc' Hst'].
  split.
  - done.
  - done.
  - by eapply done_active.
  - cbn in *. naive_solver.
  - intros q Hq Hlt. apply allocated_h_subscribe. by apply Halloc.
  - intros q pr. rewrite lookup_h_subscribe.
    destruct (decide (q = (RunTurn, S d))) as [->|?].
    + rewrite Hpr0. intros [= <-] Hse. by apply is_Some_None in Hse.
    + apply Hsettled.
  - rewrite microtasks_h_subscribe, Hpr0, app_nil_r. done.
  - intros q pr Hq Hc. rewrite lookup_h_subscribe, decide_False in Hq by (intros ->; done).
    by rewrite (Hparked q pr Hq Hc).
  - intros j. rewrite lookup_h_subscribe, decide_False by done. apply Htq.
  - intros j. rewrite lookup_h_subscribe, decide_False by done. rewrite Hsc'. rewrite <- Hsc.
    apply Hres.
  - intros j pr. rewrite lookup_h_subscribe. cbn [stage].
    destruct (decide (j = S d)) as [->|Hne].
    + rewrite !decide_True by done. rewrite Hpr0. by intros [= <-].
    + rewrite decide_False by congruence. rewrite if_running_turn by done. intros Hj.
      specialize (Hrun j pr Hj). by rewrite if_running_turn in Hrun by done.
  - intros _. apply allocated_h_subscribe. by eexists.
  - rewrite settleLog_h_subscribe, Hsc'. by rewrite <- Hsc.
  - by rewrite Hst', <- Hst.
  - intros id e Hin Hm. by destruct (Hlink id e Hin Hm).
Qed.

(** [#runTurn] returns or throws: its promise is settled. *)
Lemma chain_finish_run H table n next started cE cR cW d k o :
  stage_of k = 1%nat →
  chain_ok H table n next started cE cR cW d (Active k Held) →
  chain_ok (h_settle (RunTurn, S d) o H) table n next started cE cR cW d
    (Active (KResolveResult (S d)) Queued).
Proof.
  intros Hs Hok. chain_fields Hok.
  destruct (Hrunning Hs) as [pr0 Hpr0].
  pose proof (Hrun _ _ Hpr0) as Hx. cbn [stage] in Hx. rewrite decide_True in Hx by done.
  subst pr0.
  destruct (stage_1_count d k Held Hs) as [Hsc Hst].
  assert (Hsc' : settled_count d (Active (KResolveResult (S d)) Queued) = d) by done.
  assert (Hst' : started_count d (Active (KResolveResult (S d)) Queued) = S d) by done.
  split.
  - done.
  - done.
  - by eapply done_active.
  - done.
  - intros q Hq Hlt'. apply allocated_h_settle. by apply Halloc.
  - intros q pr. rewrite lookup_h_settle.
    destruct (decide (q = (RunTurn, S d))) as [->|?].
    + rewrite Hpr0. by intros [= <-].
    + apply Hsettled.
  - rewrite microtasks_h_settle. unfold released. rewrite Hpr0, fmap_app, filter_app, Hmicro.
    done.
  - intros q pr Hq Hc. rewrite lookup_h_settle, decide_False in Hq by (intros ->; done).
    by rewrite (Hparked q pr Hq Hc).
  - intros j. rewrite lookup_h_settle, decide_False by done. apply Htq.
  - intros j. rewrite lookup_h_settle, decide_False by done. rewrite Hsc'. rewrite <- Hsc.
    apply Hres.
  - intros j pr. rewrite lookup_h_settle. cbn [stage stage_of].
    rewrite if_running_stage by done.
    destruct (decide (j = S d)) as [->|Hne].
    + rewrite decide_True by done. rewrite Hpr0. by intros [= <-].
    + rewrite decide_False by congruence. intros Hj.
      specialize (Hrun j pr Hj). by rewrite if_running_turn in Hrun by done.
  - done.
  - rewrite settleLog_h_settle, result_log_other by done. by rewrite Hsc', <- Hsc.
  - by rewrite Hst', <- Hst.
  - intros id e Hin Hm. by destruct (Hlink id e Hin Hm).
Qed.

(** [result] is settled with the outcome of [#runTurn]. *)
Lemma chain_resolve H table n next started cE cR cW d c o :
  chain_ok H table n next started cE cR cW d (Active (KResolveResult c) Held) →
  chain_ok (h_settle (Result, c) o H) table n next started cE cR cW d
    (Active (KUndefined c) Queued).
Proof.
  intros Hok. chain_fields Hok.
  assert (c = S d) as -> by (cbn in Hvalid; naive_solver).
  assert (Hsc : settled_count d (Active (KResolveResult (S d)) Held) = d) by done.
  assert (Hsc' : settled_count d (Active (KUndefined (S d)) Queued) = S d) by done.
  rewrite Hsc in *.
  assert (Hlt : (d < n)%nat).
  { destruct Hdone as [? Hi]. destruct (decide (d = n)) as [E|?]; [|lia].
    by apply Hi in E. }
  assert (Hpr0 : promises H !! (Result, S d) =
                 Some (Promise None [KUndefined (S d); KReturnResult (S d)])).
  { apply Hres. lia. }
  split.
  - done.
  - done.
  - by eapply done_active.
  - done.
  - intros q Hq Hlt'. apply allocated_h_settle. by apply Halloc.
  - intros q pr. rewrite lookup_h_settle.
    destruct (decide (q = (Result, S d))) as [->|?].
    + rewrite Hpr0. by intros [= <-].
    + apply Hsettled.
  - rewrite microtasks_h_settle. unfold released. rewrite Hpr0, fmap_app, filter_app, Hmicro.
    done.
  - intros q pr Hq Hc. rewrite lookup_h_settle, decide_False in Hq by (intros ->; done).
    by rewrite (Hparked q pr Hq Hc).
  - intros j. rewrite lookup_h_settle, decide_False by done. apply Htq.
  - intros j. rewrite lookup_h_settle, Hsc'. destruct (Hres j) as (Hr1 & Hr2 & Hr3).
    destruct (decide ((Result, j) = (Result, S d))) as [[= ->]|Hne].
    + rewrite Hpr0. split_and!; [by eauto|lia|lia].
    + assert (j ≠ S d) by congruence.
      split_and!; [intros; apply Hr1; lia|intros; apply Hr2; lia|done].
  - intros j pr. rewrite lookup_h_settle, decide_False by done. cbn [stage stage_of].
    rewrite if_running_stage by done. intros Hj.
    specialize (Hrun j pr Hj). by rewrite if_running_stage in Hrun by done.
  - done.
  - rewrite settleLog_h_settle, result_log_app, Hlog, Hsc', seq_S. done.
  - done.
  - intros id e Hin Hm. by destruct (Hlink id e Hin Hm).
Qed.

(** The queue moves on to the next turn, if there is one. *)
Lemma chain_next H table n next started cE cR cW d c :
  chain_ok H table n next started cE cR cW d (Active (KUndefined c) Held) →
  ∃ ph, at_rest ph ∧
    chain_ok (h_settle (Tq, c) (Fulfilled VUndef) H) table n next started cE cR cW (S d) ph.
Proof.
  intros Hok. chain_fields Hok.
  assert (c = S d) as -> by (cbn in Hvalid; naive_solver).
  assert (Hsc : settled_count d (Active (KUndefined (S d)) Held) = S d) by done.
  assert (Hst : started_count d (Active (KUndefined (S d)) Held) = S d) by done.
  rewrite Hsc in *. rewrite Hst in *.
  assert (Hlt : (d < n)%nat).
  { destruct Hdone as [? Hi]. destruct (decide (d = n)) as [E|?]; [|lia].
    by apply Hi in E. }
  assert (Hnow : ∃ ks ph, promises H !! (Tq, S d) = Some (Promise None ks) ∧
            filter (λ k, turnish k = true) ks = queued ph ∧ at_rest ph ∧
            stage ph = 0%nat ∧ valid_phase (S d) cE cR cW ph ∧ (ph = Idle ↔ S d = n)).
  { destruct (decide (S d = n)) as [E|Hne].
    - exists [], Idle. split_and!; try done. by apply Htq; [lia|].
    - destruct (proj1 (proj2 (Htq (S d)))) as [args Ha]; [lia|].
      exists [KTask (S (S d)) args], (Active (KTask (S (S d)) args) Queued).
      split_and!; try done. }
  destruct Hnow as (ks & ph & Hpr0 & Hks & Hrest & Hstage & Hv & Hidle).
  assert (Hsc' : settled_count (S d) ph = S d)
    by (unfold settled_count; rewrite Hstage; done).
  assert (Hst' : started_count (S d) ph = S d)
    by (unfold started_count; rewrite Hstage; done).
  exists ph. split; [done|]. split.
  - done.
  - done.
  - split; [lia|done].
  - done.
  - intros q Hq Hlt'. apply allocated_h_settle. by apply Halloc.
  - intros q pr. rewrite lookup_h_settle.
    destruct (decide (q = (Tq, S d))) as [->|?].
    + rewrite Hpr0. by intros [= <-].
    + apply Hsettled.
  - rewrite microtasks_h_settle. unfold released. rewrite Hpr0, fmap_app, filter_app, Hmicro.
    rewrite <- list_fmap_compose. change (fst ∘ _) with (@id kont). by rewrite list_fmap_id.
  - intros q pr Hq Hc. rewrite lookup_h_settle, decide_False in Hq by (intros ->; done).
    rewrite (Hparked q pr Hq Hc). cbn.
    destruct ph as [|k [| | |p]]; try done.
    destruct Hv as (_ & _ & (Hp & _) & _). cbn in Hstage. by destruct k.
  - intros j. rewrite lookup_h_settle. destruct (Htq j) as (Ht1 & Ht2 & Ht3 & Ht4).
    destruct (decide ((Tq, j) = (Tq, S d))) as [[= ->]|Hne].
    + rewrite Hpr0. split_and!; [done|lia|lia|lia].
    + assert (j ≠ S d) by congruence.
      split_and!; [intros; apply Ht1; lia|intros; apply Ht2; lia|intros; apply Ht3; lia|done].
  - intros j. rewrite lookup_h_settle, decide_False by done. rewrite Hsc'. apply Hres.
  - intros j pr. rewrite lookup_h_settle, decide_False by done. rewrite Hstage.
    rewrite if_running_stage by done. intros Hj.
    specialize (Hrun j pr Hj). by rewrite if_running_stage in Hrun by done.
  - by rewrite Hstage.
  - rewrite settleLog_h_settle, result_log_other by done. by rewrite Hsc'.
  - by rewrite Hst'.
  - intros id e Hin Hm. by destruct (Hlink id e Hin Hm).
Qed.

Lemma lookup_h_queueTurn n args H q :
  promises (h_queueTurn n args H) !! q =
  if decide (q = (Result, S n)) then
    Some (Promise None [KUndefined (S n); KReturnResult (S n)])
  else if decide (q = (Caller, S n)) then Some (Promise None [])
  else if decide (q = (Tq, S n)) then Some (Promise None [])
  else if decide (q = (Tq, n)) then
    match promises H !! (Tq, n) with
    | Some (Promise None ks) => Some (Promise None (ks ++ [KTask (S n) args]))
    | x => x
    end
  else promises H !! q.
Proof.
  unfold h_queueTurn.
  repeat first [rewrite lookup_h_subscribe | rewrite lookup_h_alloc
               | rewrite decide_True by done | rewrite decide_False by done ].
  repeat case_decide; simplify_eq; try done; exfalso; lia.
Qed.

Lemma microtasks_h_queueTurn n args H :
  microtasks (h_queueTurn n args H) =
  microtasks H ++
  match promises H !! (Tq, n) with
  | Some (Promise (Some o) _) => [(KTask (S n) args, o)]
  | _ => []
  end.
Proof.
  unfold h_queueTurn. cbv zeta.
  set (H1 := h_alloc (Result, S n) H).
  set (H2 := h_subscribe (Tq, n) (KTask (S n) args) H1).
  set (H3 := h_alloc (Tq, S n) H2).
  set (H4 := h_subscribe (Result, S n) (KUndefined (S n)) H3).
  set (H5 := h_alloc (Caller, S n) H4).
  assert (E1 : promises H1 !! (Tq, n) = promises H !! (Tq, n)).
  { subst H1. by rewrite lookup_h_alloc, decide_False. }
  assert (E3 : promises H3 !! (Result, S n) = Some (Promise None [])).
  { subst H3 H2 H1. rewrite lookup_h_alloc, decide_False by done.
    rewrite lookup_h_subscribe, decide_False by done.
    by rewrite lookup_h_alloc, decide_True. }
  assert (E5 : promises H5 !! (Result, S n) = Some (Promise None [KUndefined (S n)])).
  { subst H5 H4. rewrite lookup_h_alloc, decide_False by done.
    rewrite lookup_h_subscribe, decide_True by done. by rewrite E3. }
  rewrite microtasks_h_subscribe, E5, app_nil_r.
  change (microtasks H5) with (microtasks H4). subst H4.
  rewrite microtasks_h_subscribe, E3, app_nil_r.
  change (microtasks H3) with (microtasks H2). subst H2.
  by rewrite microtasks_h_subscribe, E1.
Qed.

Lemma settleLog_h_queueTurn n args H :
  settleLog (h_queueTurn n args H) = settleLog H.
Proof.
  unfold h_queueTurn. rewrite !settleLog_h_subscribe. cbn.
  rewrite !settleLog_h_subscribe. cbn. by rewrite !settleLog_h_subscribe.
Qed.

Lemma parked_not_caller d cE cR cW ph i :
  valid_phase d cE cR cW ph → parked_at ph (Caller, i) = [].
Proof.
  destruct ph as [|k [| | |p]]; cbn; try done. intros (_ & _ & (Hp & _) & _).
  rewrite decide_False; [done|]. intros <-. by destruct k.
Qed.

(** A turn is queued behind the last one. *)
Lemma chain_queue H table n next started cE cR cW d ph args :
  chain_ok H table n next started cE cR cW d ph →
  ∃ ph', (at_rest ph → at_rest ph') ∧
    chain_ok (h_queueTurn n args H) table (S n) (S next) started cE cR cW d ph'.
Proof.
  intros Hok.
  exists (match ph with Idle => Active (KTask (S n) args) Queued | _ => ph end).
  split; [by destruct ph|].
  pose proof Hok as Hok'. chain_fields Hok.
  set (ph' := match ph with Idle => _ | _ => ph end).
  assert (Hstage : stage ph' = stage ph) by by destruct ph.
  assert (Hsc : settled_count d ph' = settled_count d ph)
    by (unfold settled_count; by rewrite Hstage).
  assert (Hst : started_count d ph' = started_count d ph)
    by (unfold started_count; by rewrite Hstage).
  assert (Hscn : (settled_count d ph ≤ n)%nat).
  { unfold settled_count. destruct Hdone as [? Hi].
    destruct (decide (stage ph = 3%nat)) as [Hs3|?]; [|lia].
    destruct (decide (d = n)) as [E|?]; [|lia].
    apply Hi in E. by subst ph. }
  assert (Hal : ∀ q, allocated H q → allocated (h_queueTurn n args H) q).
  { intros q Hq. unfold h_queueTurn.
    repeat first [apply allocated_h_subscribe | apply allocated_h_alloc]. done. }
  assert (Htqn : promises H !! (Tq, n) =
            if decide (d = n) then Some (Promise (Some (Fulfilled VUndef)) [])
            else Some (Promise None [])).
  { destruct Hdone as [? Hi]. destruct (decide (d = n)) as [E|E].
    - apply Htq. lia.
    - apply Htq; [lia|done]. }
  split.
  - by rewrite Hnext.
  - done.
  - destruct Hdone as [? Hi]. split; [lia|]. split; [by destruct ph|]. intros ->. lia.
  - destruct ph as [|k a].
    + destruct Hdone as [_ Hi]. cbn. split_and!; try done. f_equal. symmetry. by apply Hi.
    + done.
  - intros q Hq Hlt. apply Hal. by apply Halloc.
  - intros q pr. rewrite lookup_h_queueTurn.
    destruct (decide (q = (Result, S n))); [by intros [= <-] []|].
    destruct (decide (q = (Caller, S n))); [by intros [= <-] []|].
    destruct (decide (q = (Tq, S n))); [by intros [= <-] []|].
    destruct (decide (q = (Tq, n))); [|apply Hsettled].
    rewrite Htqn. destruct (decide (d = n)); intros [= <-]; [done|]. by intros [].
  - rewrite microtasks_h_queueTurn, fmap_app, filter_app, Hmicro, Htqn.
    destruct Hdone as [? Hi]. subst ph'. destruct ph as [|k a].
    + rewrite decide_True by (by apply Hi). done.
    + rewrite decide_False by (intros E; by apply Hi in E). by rewrite app_nil_r.
  - intros q pr. rewrite lookup_h_queueTurn.
    destruct (decide (q = (Result, S n))) as [->|?]; [done|].
    destruct (decide (q = (Caller, S n))) as [->|?].
    { intros [= <-] _. subst ph'. destruct ph; [done|].
      by rewrite (parked_not_caller _ _ _ _ _ _ Hvalid). }
    destruct (decide (q = (Tq, S n))) as [->|?]; [done|].
    destruct (decide (q = (Tq, n))) as [->|?]; [done|].
    intros Hq Hc. rewrite (Hparked q pr Hq Hc). subst ph'. by destruct ph.
  - intros j. rewrite lookup_h_queueTurn. destruct (Htq j) as (Ht1 & Ht2 & Ht3 & Ht4).
    rewrite decide_False by done. rewrite decide_False by done.
    destruct (decide ((Tq, j) = (Tq, S n))) as [[= ->]|Hne1].
    { split_and!; [lia|lia|done|lia]. }
    destruct (decide ((Tq, j) = (Tq, n))) as [[= ->]|Hne2].
    { rewrite Htqn. destruct (decide (d = n)) as [E|E].
      - subst d. split_and!; [done|lia|lia|lia].
      - split_and!; [lia| by eauto|lia|lia]. }
    assert (j ≠ S n ∧ j ≠ n) as [??] by (split; congruence).
    split_and!; [done|intros; apply Ht2; lia|lia|intros; apply Ht4; lia].
  - intros j. rewrite lookup_h_queueTurn, Hsc. destruct (Hres j) as (Hr1 & Hr2 & Hr3).
    destruct (decide ((Result, j) = (Result, S n))) as [[= ->]|Hne1].
    { split_and!; [lia|done|lia]. }
    assert (j ≠ S n) by congruence.
    rewrite !decide_False by done.
    split_and!; [done|intros; apply Hr2; lia|intros; apply Hr3; lia].
  - intros j pr. rewrite lookup_h_queueTurn, !decide_False by done. rewrite Hstage.
    intros Hj. specialize (Hrun j pr Hj).
    destruct (decide (j = S d ∧ stage ph = 1%nat)); [|done]. rewrite Hrun. f_equal.
    subst ph'. by destruct ph.
  - rewrite Hstage. intros Hs. apply Hal. auto.
  - by rewrite settleLog_h_queueTurn, Hsc.
  - by rewrite Hst.
  - intros id e Hin Hm. destruct (Hlink id e Hin Hm) as [w ->]. by exists w.
Qed.
End chain_heap.

(** ** The turn queue: what the handlers of the client preserve *)

Section chain_handlers.
Import Js Client Facts.
Context (cfg : config).

Ltac chain_norm :=
  unfold chain_to, chain_at, chain_view;
  try unfold spawnProcess; try unfold resetSession; try unfold kill;
  repeat progress cbn -[h_settle h_subscribe h_alloc filter map_get map_delete map_set].

(** Steps that leave the promises and the table of requests alone. *)
Ltac chain_frame H :=
  revert H; chain_norm;
  repeat (match goal with
          | |- context [if ?b then _ else _] => destruct b
          | |- context [match ?x with Some _ => _ | None => _ end] => destruct x
          end; chain_norm);
  exact id.
Implicit Types (H : promise_heap) (p q : pid) (o : outcome) (k : kont) (ph : phase).

Lemma elem_of_map_set {A} (i : nat) (a : A) (i' : nat) (a' : A) (m : list (nat * A)) :
  (i', a') ∈ map_set i a m → (i', a') = (i, a) ∨ (i', a') ∈ m.
Proof.
  induction m as [|[k0 a0] m IH]; cbn.
  - intros ?%list_elem_of_singleton. by left.
  - destruct (decide (i = k0)) as [->|?].
    + intros [->|?]%elem_of_cons; [by left|]. right. by right.
    + intros [->|Hin]%elem_of_cons; [right; by left|].
      destruct (IH Hin); [by left|right; by right].
Qed.

Lemma rel_subscribe d ph H table n next started cE cR cW p k :
  chain_site p.1 = false → turnish k = false →
  chain_rel d ph H table n next started cE cR cW →
  chain_rel d ph (h_subscribe p k H) table n next started cE cR cW.
Proof.
  intros Hp Hk (ph' & Hr & Hok). exists ph'. split; [done|]. by apply chain_subscribe.
Qed.

Lemma rel_settle d ph H table table' n next started cE cR cW p o :
  chain_site p.1 = false →
  (∀ id e, (id, e) ∈ table' → method e = "turn/start" →
     (id, e) ∈ table ∧ p ≠ (Request, id)) →
  chain_rel d ph H table n next started cE cR cW →
  chain_rel d ph (h_settle p o H) table' n next started cE cR cW.
Proof.
  intros Hp Htab (ph' & Hr & Hok). exists (unpark p ph'). split.
  - eapply relaxes_trans; [done|apply relaxes_unpark].
  - by eapply chain_settle.
Qed.

Lemma rel_alloc d ph H table n next started cE cR cW cE' cR' cW' p :
  chain_site p.1 = false →
  (counter_of cE cR cW p.1 ≤ p.2)%nat →
  (cE ≤ cE')%nat → (cR ≤ cR')%nat → (cW ≤ cW')%nat →
  (∀ q, numbered cE' cR' cW' q → numbered cE cR cW q ∨ q = p) →
  chain_rel d ph H table n next started cE cR cW →
  chain_rel d ph (h_alloc p H) table n next started cE' cR' cW'.
Proof.
  intros Hp ???? Hnew (ph' & Hr & Hok). exists ph'. split; [done|]. by eapply chain_alloc.
Qed.

Lemma rel_weaken d ph H table table' n next started cE cR cW :
  (∀ id e, (id, e) ∈ table' → method e = "turn/start" → (id, e) ∈ table) →
  chain_rel d ph H table n next started cE cR cW →
  chain_rel d ph H table' n next started cE cR cW.
Proof.
  intros Htab (ph' & Hr & Hok). exists ph'. split; [done|]. by eapply chain_weaken.
Qed.

(** A promise of a kind that is not numbered. *)
Lemma rel_alloc_other d ph H table n next started cE cR cW p :
  chain_site p.1 = false → counter_of cE cR cW p.1 = 0%nat →
  chain_rel d ph H table n next started cE cR cW →
  chain_rel d ph (h_alloc p H) table n next started cE cR cW.
Proof.
  intros Hp Hc. apply rel_alloc; try done; [lia|]. intros q Hq. by left.
Qed.

Lemma rel_alloc_ensure d ph H table n next started cE cR cW :
  chain_rel d ph H table n next started cE cR cW →
  chain_rel d ph (h_alloc (Ensure, cE) H) table n next started (S cE) cR cW.
Proof.
  apply rel_alloc; try done; cbn; try lia.
  intros [[] j]; unfold numbered; cbn; intros ?; try (left; lia).
  destruct (decide (j = cE)) as [->|]; [by right|left; lia].
Qed.

Lemma rel_alloc_request d ph H table n next started cE cR cW :
  chain_rel d ph H table n next started cE cR cW →
  chain_rel d ph (h_alloc (Request, cR) H) table n next started cE (S cR) cW.
Proof.
  apply rel_alloc; try done; cbn; try lia.
  intros [[] j]; unfold numbered; cbn; intros ?; try (left; lia).
  destruct (decide (j = cR)) as [->|]; [by right|left; lia].
Qed.

Lemma rel_alloc_waiter d ph H table n next started cE cR cW :
  chain_rel d ph H table n next started cE cR cW →
  chain_rel d ph (h_alloc (Settlement, cW) H) table n next started cE cR (S cW).
Proof.
  apply rel_alloc; try done; cbn; try lia.
  intros [[] j]; unfold numbered; cbn; intros ?; try (left; lia).
  destruct (decide (j = cW)) as [->|]; [by right|left; lia].
Qed.

Lemma to_settle d ph p o st :
  chain_site p.1 = false → p.1 ≠ Request →
  chain_to d ph st → chain_to d ph (settle p o st).
Proof.
  intros Hp Hr. chain_norm. apply rel_settle; [done|].
  intros id e Hin _. split; [done|]. intros ->. done.
Qed.

Lemma to_subscribe d ph p k st :
  chain_site p.1 = false → turnish k = false →
  chain_to d ph st → chain_to d ph (subscribe p k st).
Proof. intros Hp Hk. chain_norm. by apply rel_subscribe. Qed.

(** A request that does not start a turn. *)
Lemma to_sendRequest d ph m ps st :
  m ≠ "turn/start" →
  chain_to d ph st → chain_to d ph (sendRequest cfg m ps st).2.
Proof.
  intros Hm H. unfold sendRequest. destruct (child_alive st); [|done]. cbn [negb].
  unfold setTimeout, writeMessage, forget.
  cbn -[h_settle h_subscribe h_alloc filter map_get map_delete map_set].
  rewrite map_get_set.
  destruct (child st) as [[[] []]|]; revert H; chain_norm; intros H.
  all: try (eapply rel_weaken; [|by apply rel_alloc_request];
            by intros id e [[= -> ->]|?]%elem_of_map_set).
  all: eapply rel_settle; [done| |by apply rel_alloc_request].
  all: intros id e [[[= -> ->]|?]%elem_of_map_set Hne]%elem_of_map_delete Hme; try done.
  all: split; [done|congruence].
Qed.

Ltac after_request H :=
  match goal with |- context [sendRequest cfg ?m ?ps ?X] =>
    let Hs := fresh "Hs" in
    pose proof (to_sendRequest _ _ m ps X ltac:(done) H) as Hs;
    destruct (sendRequest cfg m ps X) as [[rq|e] st1] eqn:Hsend;
    cbn [snd] in Hs
  end.

Lemma sendRequest_site m ps st rq st1 :
  sendRequest cfg m ps st = (Return rq, st1) → rq.1 = Request.
Proof.
  unfold sendRequest. destruct (child_alive st); [|done]. cbn [negb].
  unfold setTimeout. cbn -[writeMessage]. destruct (writeMessage _ _); by intros [= <- _].
Qed.

Lemma to_startInternal d ph s st :
  chain_to d ph st → chain_to d ph (startInternal cfg s st).
Proof.
  intros H. unfold startInternal. cbv zeta.
  assert (H0 : chain_to d ph (alloc (StartInternal, s) st)).
  { revert H. chain_norm. by apply rel_alloc_other. }
  destruct (isStopping _); [by apply to_settle|].
  assert (H1 : chain_to d ph (spawnProcess (alloc (StartInternal, s) st)))
    by chain_frame H0.
  after_request H1.
  - apply to_subscribe; [|done..]. by rewrite (sendRequest_site _ _ _ _ _ Hsend).
  - by apply to_settle.
Qed.

Lemma to_ensureReady d ph st :
  chain_to d ph st → chain_to d ph (ensureReady cfg st).2.
Proof.
  intros H. unfold ensureReady. cbv zeta.
  assert (H0 : chain_to d ph (alloc (Ensure, nextEnsure st)
                                (set_nextEnsure (S (nextEnsure st)) st))).
  { revert H. chain_norm. apply rel_alloc_ensure. }
  destruct (truthy _ && child_alive _); [by apply to_settle|].
  destruct (startPromise _); [by apply to_subscribe|]. cbn [snd].
  apply to_subscribe; [done..|].
  match goal with |- chain_to _ _ (set_startPromise _ ?X) =>
    assert (H2 : chain_to d ph X); [|generalize dependent X] end.
  { apply to_subscribe; [done..|]. apply to_startInternal.
    revert H0. chain_norm. by apply rel_alloc_other. }
  intros st2 H2. chain_frame H2.
Qed.

Lemma nextEnsure_sendRequest m ps st :
  nextEnsure (sendRequest cfg m ps st).2 = nextEnsure st.
Proof.
  unfold sendRequest. destruct (child_alive st); [|done]. cbn [negb].
  unfold setTimeout, writeMessage, forget.
  cbn -[h_settle h_subscribe h_alloc filter map_get map_delete map_set].
  rewrite map_get_set. by destruct (child st) as [[[] []]|].
Qed.

Lemma nextEnsure_startInternal s st :
  nextEnsure (startInternal cfg s st) = nextEnsure st.
Proof.
  unfold startInternal. cbv zeta. destruct (isStopping _); [done|].
  match goal with |- context [sendRequest cfg ?m ?ps ?X] =>
    pose proof (nextEnsure_sendRequest m ps X) as Hs;
    destruct (sendRequest cfg m ps X) as [[rq|e] st1] end.
  all: cbn [snd] in Hs; cbn; rewrite Hs; unfold spawnProcess; by destruct (child_alive _).
Qed.

(** The promise [ensureReady] returns is a new one. *)
Lemma ensureReady_serial st :
  (ensureReady cfg st).1 = nextEnsure st ∧
  nextEnsure (ensureReady cfg st).2 = S (nextEnsure st).
Proof.
  unfold ensureReady. cbv zeta.
  destruct (truthy _ && child_alive _); [done|].
  destruct (startPromise _); [done|]. cbn. by rewrite nextEnsure_startInternal.
Qed.

Lemma to_perform_all d ph w t es st :
  chain_to d ph st → chain_to d ph (foldl (λ st e, perform w t e st) st es).
Proof.
  revert st. induction es as [|e es IH]; intros st H; [done|].
  cbn [foldl]. apply IH. destruct e; cbn [perform]; [chain_frame H|chain_frame H|..];
    by apply to_settle.
Qed.

Lemma to_call_waiter d ph w f st :
  chain_to d ph st → chain_to d ph (call_waiter w f st).
Proof.
  intros H. unfold call_waiter. destruct (waiters st !! w) as [entry|]; [|done].
  destruct (f (closure entry)) as [c es]. apply to_perform_all. chain_frame H.
Qed.

Lemma to_createTurnWaiter d ph th ms st :
  chain_to d ph st → chain_to d ph (createTurnWaiter th ms st).2.
Proof. unfold createTurnWaiter, setTimeout. chain_norm. apply rel_alloc_waiter. Qed.

Lemma to_forget_settle d ph id o st :
  chain_to d ph st → chain_to d ph (settle (Request, id) o (forget id st)).
Proof.
  unfold forget. destruct (map_get id (pendingRequests st)) eqn:Hg; chain_norm.
  - apply rel_settle; [done|].
    intros id' e [Hin Hne]%elem_of_map_delete _. split; [done|congruence].
  - apply rel_settle; [done|]. intros id' e Hin _. split; [done|].
    intros [= ->]. apply map_get_None in Hg. apply Hg. by eapply elem_of_keys.
Qed.

Lemma to_handleResponse d ph message st :
  chain_to d ph st → chain_to d ph (handleResponse message st).
Proof.
  intros H. unfold handleResponse.
  destruct (request_id _) as [id|]; [|done].
  destruct (map_get id _) as [entry|] eqn:Hg; [|done]. cbv zeta.
  destruct (get_field _ _); apply to_forget_settle; chain_frame H.
Qed.

Lemma to_emitNotification d ph message st :
  chain_to d ph st → chain_to d ph (emitNotification message st).
Proof.
  intros H. unfold emitNotification. generalize (notificationListeners st).
  intros ws. revert st H. induction ws as [|w ws IH]; intros st H; [done|].
  cbn [foldl]. apply IH. destruct (decide _); [|done]. by apply to_call_waiter.
Qed.

Lemma to_handleLine d ph l st :
  chain_to d ph st → chain_to d ph (handleLine l st).
Proof.
  intros H. destruct l as [| |message]; cbn [handleLine]; [done|chain_frame H|].
  destruct (has_own message "id") as [hasId|]; [|chain_frame H].
  destruct (has_own message "result") as [hasResult|]; [|chain_frame H].
  destruct (has_own message "error") as [hasError|]; [|chain_frame H].
  cbv zeta. repeat case_match; try done.
  - unfold handleServerRequest, writeMessage. chain_frame H.
  - by apply to_handleResponse.
  - by apply to_emitNotification.
Qed.

Lemma rel_reject_all d ph error (entries : list (nat * pending))
    H table n next started cE cR cW :
  chain_rel d ph H table n next started cE cR cW →
  chain_rel d ph (foldl (λ h e, h_settle (Request, e.1) (Rejected error) h) H entries)
    [] n next started cE cR cW.
Proof.
  revert H table. induction entries as [|e es IH]; intros H table Hr.
  - cbn. eapply rel_weaken; [|done]. by intros ?? ?%elem_of_nil.
  - cbn. eapply (IH _ []). eapply rel_settle; [done| |done]. by intros ?? ?%elem_of_nil.
Qed.

Lemma to_rejectAll_clear d ph error st :
  chain_to d ph st → chain_to d ph (clearRequests (rejectAll error st)).
Proof.
  unfold rejectAll, clearRequests. rewrite rejectEach_eq. chain_norm.
  apply rel_reject_all.
Qed.

Lemma to_stop d ph st : chain_to d ph st → chain_to d ph (stop st).
Proof.
  intros H. unfold stop. cbv zeta.
  match goal with |- context [clearRequests (rejectAll ?e ?X)] =>
    assert (H1 : chain_to d ph (clearRequests (rejectAll e X)))
      by (apply to_rejectAll_clear; chain_frame H);
    generalize dependent (clearRequests (rejectAll e X)) end.
  intros st1 H1. chain_frame H1.
Qed.

Lemma to_onExit d ph st : chain_to d ph st → chain_to d ph (onExit cfg st).
Proof.
  intros H. unfold onExit. cbv zeta.
  match goal with |- context [clearRequests (rejectAll ?e ?X)] =>
    assert (H1 : chain_to d ph (clearRequests (rejectAll e X)))
      by (apply to_rejectAll_clear; chain_frame H);
    generalize dependent (clearRequests (rejectAll e X)) end.
  intros st1 H1. unfold setTimeout. chain_frame H1.
Qed.

Lemma to_onChildError d ph error st :
  chain_to d ph st → chain_to d ph (onChildError error st).
Proof.
  intros H. unfold onChildError. destruct (startReject st); [|done].
  assert (H1 : chain_to d ph (settle (Start, n) (Rejected error) st))
    by by apply to_settle.
  chain_frame H1.
Qed.

Lemma to_fire d ph cb st : chain_to d ph st → chain_to d ph (fire cfg cb st).
Proof.
  intros H. destruct cb as [id m|w|]; cbn [fire].
  - by apply to_forget_settle.
  - by apply to_call_waiter.
  - pose proof (to_ensureReady _ _ _ H) as He.
    destruct (ensureReady cfg st) as [n st1]. by apply to_subscribe.
Qed.

(** The reactions that do not carry a turn. *)
Lemma to_react d ph k o st :
  turnish k = false → chain_to d ph st → chain_to d ph (react cfg k o st).
Proof.
  intros Hk H. destruct k; try done; cbn [react].
  - by apply to_settle.
  - by apply to_settle.
  - by apply to_settle.
  - apply to_settle; [done..|]. chain_frame H.
  - destruct o; [|by apply to_settle].
    unfold sendNotification, writeMessage.
    destruct (child st) as [[[] []]|]; cbn [negb andb killed writable];
      try by apply to_settle.
    assert (H1 : chain_to d ph
      (set_written (written st ++ [VObj [("jsonrpc", VStr "2.0");
                                         ("method", VStr "initialized")]]) st))
      by chain_frame H.
    after_request H1.
    + apply to_subscribe; [|done..]. by rewrite (sendRequest_site _ _ _ _ _ Hsend).
    + by apply to_settle.
  - destruct o; [|by apply to_settle]. cbv zeta.
    destruct (negb _); apply to_settle; try done; chain_frame H.
Qed.

Lemma at_to d ph st : chain_at st d ph → chain_to d ph st.
Proof. chain_norm. intros Hok. exists ph. split; [apply relaxes_refl|done]. Qed.

Lemma to_at d k a st :
  (∀ p, a ≠ Parked p) → chain_to d (Active k a) st → chain_at st d (Active k a).
Proof.
  intros Ha. chain_norm. intros (ph' & [->|(k' & p & [= -> ->] & _)] & Hok); [done|].
  by destruct (Ha p).
Qed.

Lemma to_inv d ph st : at_rest ph → chain_to d ph st → chain_inv st.
Proof.
  intros Hrest. unfold chain_inv. chain_norm. intros (ph' & Hr & Hok).
  exists d, ph'. split; [done|]. by eapply relaxes_at_rest.
Qed.

Lemma h_subscribe_comm p q k k' ks H :
  p ≠ q → promises H !! p = Some (Promise None ks) →
  h_subscribe p k (h_subscribe q k' H) = h_subscribe q k' (h_subscribe p k H).
Proof.
  intros Hne Hp. unfold h_subscribe at 2 4. rewrite Hp.
  destruct (promises H !! q) as [[[o|] ks']|] eqn:Hq; unfold h_subscribe; cbn.
  - by rewrite Hp, lookup_insert_ne, Hq.
  - rewrite lookup_insert_ne, Hp, lookup_insert_ne, Hq by done.
    by rewrite insert_insert_ne.
  - rewrite lookup_insert_ne, Hq by done. by rewrite Hp.
Qed.

(** [queueTurn]: the task waits for the previous [this.turnQueue]. *)
Lemma inv_chain_queueTurn args st : chain_inv st → chain_inv (queueTurn args st).
Proof.
  intros (d & ph & Hat & Hrest). revert Hat. unfold chain_inv. chain_norm. intros Hok.
  pose proof (co_next _ _ _ _ _ _ _ _ _ _ Hok) as Hnext.
  destruct (chain_queue _ _ _ _ _ _ _ _ _ _ args Hok) as (ph' & Hrest' & Hok').
  exists d, ph'. split; [|by auto].
  unfold queueTurn. chain_norm. rewrite Hnext in Hok' |- *. exact Hok'.
Qed.

Lemma held_no_turn_start H table n next started cE cR cW d k :
  chain_ok H table n next started cE cR cW d (Active k Held) →
  ∀ id e, (id, e) ∈ table → method e = "turn/start" → False.
Proof.
  intros Hok id e Hin Hm.
  by destruct (co_link _ _ _ _ _ _ _ _ _ _ Hok id e Hin Hm) as [w [=]].
Qed.

Lemma at_finish_run d k o st :
  stage_of k = 1%nat → chain_at st d (Active k Held) →
  chain_inv (settle (RunTurn, S d) o st).
Proof.
  intros Hs. unfold chain_inv. chain_norm. intros Hok.
  exists d, (Active (KResolveResult (S d)) Queued). split; [|done].
  by eapply chain_finish_run.
Qed.

Lemma at_dispose d k w st :
  chain_at st d (Active k Held) → chain_at (dispose w st) d (Active k Held).
Proof. intros H. apply to_at; [done|]. apply to_call_waiter. by apply at_to. Qed.

Lemma at_turn d k a st : chain_at st d (Active k a) → turn_of k = S d.
Proof. chain_norm. intros Hok. by destruct (co_valid _ _ _ _ _ _ _ _ _ _ Hok) as (_ & ? & _). Qed.

(** The running turn awaits a promise outside the queue and the table of
    requests is as before. *)
Lemma at_park d k p st :
  chain_site p.1 = false → parks k p.1 = true →
  numbered (nextEnsure st) (requestCounter st) (nextWaiter st) p →
  chain_at st d (Active k Held) → chain_inv (subscribe p k st).
Proof.
  intros Hp Hk Hlt. unfold chain_inv. chain_norm. intros Hok.
  exists d, (park (heap st) p k). split; [|apply park_at_rest].
  eapply chain_park; try done.
  intros id e Hin Hm. by destruct (held_no_turn_start _ _ _ _ _ _ _ _ _ _ Hok id e Hin Hm).
Qed.

Lemma createTurnWaiter_serial th ms st :
  (createTurnWaiter th ms st).1 = nextWaiter st ∧
  nextWaiter (createTurnWaiter th ms st).2 = S (nextWaiter st).
Proof. done. Qed.

Lemma at_rename d k k' st :
  turnish k' = true → turn_of k' = turn_of k → stage_of k' = stage_of k →
  match k' with
  | KRunTurn2 _ w => (w < nextWaiter st)%nat
  | _ => True
  end →
  chain_at st d (Active k Held) → chain_at st d (Active k' Held).
Proof. intros ????. chain_norm. by apply chain_rename. Qed.

(** The request that starts the turn, and the continuation that awaits
    its response. *)
Lemma at_sendRequest_turn d i w ps st :
  chain_at st d (Active (KRunTurn2 i w) Held) →
  match sendRequest cfg "turn/start" ps st with
  | (Return rq, st1) => chain_inv (subscribe rq (KRunTurn2 i w) st1)
  | (Throw _, st1) => chain_at st1 d (Active (KRunTurn2 i w) Held)
  end.
Proof.
  intros H. unfold sendRequest. destruct (child_alive st); [|done]. cbn [negb].
  unfold setTimeout, writeMessage, forget.
  cbn -[h_settle h_subscribe h_alloc filter map_get map_delete map_set].
  rewrite map_get_set.
  pose proof (at_turn _ _ _ _ H) as Hi. cbn in Hi. subst i.
  assert (Hal : chain_ok (h_alloc (Request, requestCounter st) (heap st))
            (pendingRequests st) (turnQueue st) (nextTurn st) (startedLog st)
            (nextEnsure st) (S (requestCounter st)) (nextWaiter st) d
            (Active (KRunTurn2 (S d) w) Held)).
  { revert H. chain_norm. intros Hok.
    eapply chain_alloc; [done| | | | | |exact Hok]; cbn; try lia.
    intros [[] j]; unfold numbered; cbn; intros ?; try (left; lia).
    destruct (decide (j = requestCounter st)) as [->|]; [by right|left; lia]. }
  pose proof (held_no_turn_start _ _ _ _ _ _ _ _ _ _ Hal) as Hno.
  assert (Hc1 : (1 ≤ requestCounter st)%nat).
  { revert H. chain_norm. intros Hok. exact (co_counter _ _ _ _ _ _ _ _ _ _ Hok). }
  assert (Hnew : promises (h_alloc (Request, requestCounter st) (heap st))
                   !! (Request, requestCounter st) = Some (Promise None [])).
  { by rewrite lookup_h_alloc, decide_True. }
  destruct (child st) as [[[] []]|]; unfold chain_inv; chain_norm.
  3:{ exists d, (Active (KRunTurn2 (S d) w) (Parked (Request, requestCounter st))).
      split; [|done].
      replace (Active (KRunTurn2 (S d) w) (Parked (Request, requestCounter st)))
        with (park (h_alloc (Request, requestCounter st) (heap st))
                (Request, requestCounter st) (KRunTurn2 (S d) w))
        by (unfold park; by rewrite Hnew).
      eapply chain_park; [done|done|unfold numbered; cbn; lia| |exact Hal].
      intros id e [[= -> ->]|Hin]%elem_of_map_set Hm.
      - exists w. unfold park. by rewrite Hnew.
      - by destruct (Hno id e Hin Hm). }
  all: exists d, (Active (KRunTurn2 (S d) w) Queued); split; [|done].
  all: set (err := Rejected _).
  all: assert (Hst : chain_ok (h_settle (Request, requestCounter st) err
                         (h_alloc (Request, requestCounter st) (heap st)))
                (pendingRequests st) (turnQueue st) (nextTurn st) (startedLog st)
                (nextEnsure st) (S (requestCounter st)) (nextWaiter st) d
                (Active (KRunTurn2 (S d) w) Held))
         by (eapply (chain_settle _ _ _ _ _ _ _ _ _ _ (Active (KRunTurn2 (S d) w) Held));
             [done| |exact Hal]; intros id e Hin Hm; by destruct (Hno id e Hin Hm)).
  all: assert (Hsd : promises (h_settle (Request, requestCounter st) err
                         (h_alloc (Request, requestCounter st) (heap st)))
                       !! (Request, requestCounter st) = Some (Promise (Some err) []))
         by (by rewrite lookup_h_settle, decide_True, Hnew).
  all: replace (Active (KRunTurn2 (S d) w) Queued)
        with (park (h_settle (Request, requestCounter st) err
                      (h_alloc (Request, requestCounter st) (heap st)))
                (Request, requestCounter st) (KRunTurn2 (S d) w))
        by (unfold park; by rewrite Hsd).
  all: eapply chain_park; [done|done|unfold numbered; cbn; lia| |exact Hst].
  all: intros id e [[[= -> ->]|Hin]%elem_of_map_set Hne]%elem_of_map_delete Hm; [done|].
  all: by destruct (Hno id e Hin Hm).
Qed.

(** The task of a turn: [#runTurn] up to its first [await], and [result]
    following its promise. *)
Lemma inv_react_task d i args o st :
  chain_at st d (Active (KTask i args) Held) →
  chain_inv (react cfg (KTask i args) o st).
Proof.
  intros H. pose proof (at_turn _ _ _ _ H) as Hi. cbn in Hi. subst i.
  cbn [react]. unfold runTurn.
  set (st1 := alloc (RunTurn, S d) (set_startedLog (startedLog st ++ [S d]) st)).
  assert (H1 : chain_at st1 d (Active (KRunTurn1 (S d) args) Starting)).
  { subst st1. revert H. chain_norm. apply chain_task. }
  assert (H2 : chain_at (ensureReady cfg st1).2 d (Active (KRunTurn1 (S d) args) Starting)).
  { apply to_at; [done|]. apply to_ensureReady. by apply at_to. }
  destruct (ensureReady_serial st1) as [Hn Hc].
  destruct (ensureReady cfg st1) as [n st2]. cbn [fst snd] in *. clearbody st1.
  assert (Hrt : promises (heap st2) !! (RunTurn, S d) = Some (Promise None [])).
  { revert H2. chain_norm. intros Hok.
    destruct (co_running _ _ _ _ _ _ _ _ _ _ Hok eq_refl) as [pr Hpr].
    pose proof (co_runturn _ _ _ _ _ _ _ _ _ _ Hok _ _ Hpr) as Hx.
    cbn [stage stage_of] in Hx.
    destruct (decide (S d = S d ∧ 1%nat = 1%nat)) as [_|Hn']; [by subst pr|].
    by destruct Hn'. }
  unfold chain_inv. chain_norm.
  rewrite (h_subscribe_comm (RunTurn, S d) (Ensure, n) _ _ [] _ ltac:(done) Hrt).
  exists d, (park (h_subscribe (RunTurn, S d) (KResolveResult (S d)) (heap st2))
               (Ensure, n) (KRunTurn1 (S d) args)).
  split; [|apply park_at_rest].
  assert (Hheld : chain_ok (h_subscribe (RunTurn, S d) (KResolveResult (S d)) (heap st2))
            (pendingRequests st2) (turnQueue st2) (nextTurn st2) (startedLog st2)
            (nextEnsure st2) (requestCounter st2) (nextWaiter st2) d
            (Active (KRunTurn1 (S d) args) Held)).
  { revert H2. chain_norm. apply chain_start. }
  eapply chain_park; [done|done|unfold numbered; cbn; lia| |exact Hheld].
  intros id e Hin Hm. by destruct (held_no_turn_start _ _ _ _ _ _ _ _ _ _ Hheld id e Hin Hm).
Qed.

Lemma inv_react_turn d k o st :
  turnish k = true → chain_at st d (Active k Held) → chain_inv (react cfg k o st).
Proof.
  intros Hk H. pose proof (at_turn _ _ _ _ H) as Hi.
  destruct k as [i args|i|i|?|?|?|?|?|?|i args|i w|i w|]; try done; cbn in Hi; subst i.
  - by apply (inv_react_task d).
  - cbn [react]. revert H. unfold chain_inv. chain_norm. intros Hok.
    destruct (chain_next _ _ _ _ _ _ _ _ _ _ Hok) as (ph & Hrest & Hok').
    by exists (S d), ph.
  - cbn [react]. revert H. unfold chain_inv. chain_norm. intros Hok.
    exists d, (Active (KUndefined (S d)) Queued). split; [|done]. by apply chain_resolve.
  - cbn [react]. destruct o as [v|e]; [|by apply (at_finish_run d (KRunTurn1 (S d) args))].
    destruct (negb _); [by apply (at_finish_run d (KRunTurn1 (S d) args))|].
    destruct (createTurnWaiter_serial (threadId st) (timeoutMs args) st) as [Hw Hc].
    assert (H1 : chain_at (createTurnWaiter (threadId st) (timeoutMs args) st).2 d
                   (Active (KRunTurn1 (S d) args) Held)).
    { apply to_at; [done|]. apply to_createTurnWaiter. by apply at_to. }
    destruct (createTurnWaiter _ _ _) as [w st1]. cbn [fst snd] in *.
    assert (H2 : chain_at st1 d (Active (KRunTurn2 (S d) w) Held)).
    { apply (at_rename d (KRunTurn1 (S d) args)); [done|done|done| |exact H1]. cbn. lia. }
    pose proof (at_sendRequest_turn _ _ _ (turnStartParams (threadId st) args) _ H2) as H3.
    destruct (sendRequest cfg "turn/start" _ st1) as [[rq|e] st2]; [done|].
    apply (at_finish_run d (KRunTurn2 (S d) w)); [done|by apply at_dispose].
  - cbn [react]. destruct o as [v|e].
    + set (st1 := if truthy _ then _ else st).
      assert (H1 : chain_at st1 d (Active (KRunTurn2 (S d) w) Held)).
      { subst st1. destruct (truthy _); [|done].
        apply to_at; [done|]. apply to_call_waiter. by apply at_to. }
      clearbody st1.
      assert (Hw : (w < nextWaiter st1)%nat).
      { revert H1. chain_norm. intros Hok.
        by destruct (co_valid _ _ _ _ _ _ _ _ _ _ Hok) as (_ & _ & _ & ?). }
      apply (at_park d); try done; [unfold numbered; cbn; lia|].
      apply (at_rename d (KRunTurn2 (S d) w)); [done|done|done|done|exact H1].
    + apply (at_finish_run d (KRunTurn2 (S d) w)); [done|by apply at_dispose].
  - cbn [react]. apply (at_finish_run d (KRunTurn3 (S d) w)); [done|by apply at_dispose].
Qed.

Lemma inv_chain_step st l : chain_inv st → chain_inv (step cfg st l).
Proof.
  intros Hinv. unfold step. destruct (crashed st); [done|].
  destruct l as [args| | |l|error| | |t|].
  - by apply inv_chain_queueTurn.
  - destruct Hinv as (d & ph & Hat & Hrest).
    apply (to_inv d ph); [done|]. apply to_ensureReady. by apply at_to.
  - destruct Hinv as (d & ph & Hat & Hrest).
    apply (to_inv d ph); [done|]. apply to_stop. by apply at_to.
  - destruct (readline st); [|done]. destruct Hinv as (d & ph & Hat & Hrest).
    apply (to_inv d ph); [done|]. apply to_handleLine. by apply at_to.
  - destruct Hinv as (d & ph & Hat & Hrest).
    apply (to_inv d ph); [done|]. apply to_onChildError. by apply at_to.
  - destruct Hinv as (d & ph & Hat & Hrest).
    apply (to_inv d ph); [done|]. apply to_onExit. by apply at_to.
  - destruct Hinv as (d & ph & Hat & Hrest).
    apply (to_inv d ph); [done|]. apply at_to in Hat. destruct (child st); chain_frame Hat.
  - destruct (timers st !! t) as [[delay cb]|]; [|done].
    destruct Hinv as (d & ph & Hat & Hrest).
    apply (to_inv d ph); [done|]. apply to_fire. apply at_to in Hat. chain_frame Hat.
  - destruct (microtasks (heap st)) as [|[k o] rest] eqn:Hm; [done|].
    destruct Hinv as (d & ph & Hat & Hrest).
    destruct (turnish k) eqn:Hk.
    + apply (inv_react_turn d); [done|]. revert Hat. chain_norm. intros Hok.
      by destruct (chain_pop_turn _ _ _ _ _ _ _ _ _ _ _ _ _ Hm Hk Hok) as [_ ?].
    + apply (to_inv d ph); [done|]. apply to_react; [done|]. apply at_to.
      revert Hat. chain_norm. by apply (chain_pop _ _ _ _ _ _ _ _ _ _ k o).
Qed.

Lemma inv_chain_initial : chain_inv initial.
Proof.
  exists 0%nat, Idle. split; [|done]. unfold chain_at, chain_view, initial.
  cbn [heap pendingRequests turnQueue nextTurn startedLog nextEnsure requestCounter
       nextWaiter].
  split; cbn [promises microtasks settleLog]; try done.
  - intros [s j] Hs Hlt. unfold numbered in Hlt. destruct s; cbn in *; lia.
  - intros p pr [<- <-]%lookup_singleton_Some. done.
  - intros p pr [<- <-]%lookup_singleton_Some. done.
  - intros j. split_and!.
    + intros ?. assert (j = 0%nat) as -> by lia. done.
    + lia.
    + lia.
    + intros ?. apply lookup_singleton_ne. intros [= <-]. lia.
  - intros j. change (settled_count 0 Idle) with 0%nat. split_and!; [lia|lia|].
    intros _. by apply lookup_singleton_ne.
  - intros j pr. by rewrite lookup_singleton_ne.
  - intros id e ?%elem_of_nil. done.
Qed.

Lemma inv_chain_run st ls : chain_inv st → chain_inv (run cfg st ls).
Proof.
  revert st. induction ls as [|l ls IH]; intros st H; [done|].
  cbn. apply IH. by apply inv_chain_step.
Qed.

Lemma nodup_constant (l : list nat) (x : nat) :
  NoDup l → (∀ y, y ∈ l → y = x) → (length l ≤ 1)%nat.
Proof.
  intros Hnd Hall. destruct l as [|a [|b l]]; cbn; [lia|lia|].
  apply NoDup_cons in Hnd as [Ha _]. exfalso. apply Ha.
  rewrite (Hall a), <- (Hall b); [by left|right; by left|by left].
Qed.

Lemma outstanding_keys m st : outstanding m st `sublist_of` (pendingRequests st).*1.
Proof. unfold outstanding. apply fmap_sublist, sublist_filter. Qed.

Lemma chain_counts d ph n :
  ((d ≤ n)%nat ∧ (ph = Idle ↔ d = n)) →
  (settled_count d ph ≤ started_count d ph ≤ S (settled_count d ph))%nat ∧
  (started_count d ph < S n)%nat.
Proof.
  intros [Hle Hi]. unfold settled_count, started_count.
  destruct (decide (stage ph = 3%nat)) as [E|?].
  - rewrite E. rewrite decide_True by lia. split; [lia|].
    destruct (decide (d = n)) as [Hd|?]; [|lia]. apply Hi in Hd. by subst ph.
  - destruct (decide (1 ≤ stage ph)%nat); [|lia]. split; [lia|].
    destruct (decide (d = n)) as [Hd|?]; [|lia]. apply Hi in Hd. subst ph. cbn in *. lia.
Qed.
End chain_handlers.

Section turn_queue.
Import Js Client Facts.

(** The order of the turns, read off the invariant of the queue. *)
Lemma queue_order (cfg : config) (ls : list label) :
  let st := run cfg initial ls in
  (length (outstanding "turn/start" st) ≤ 1)%nat ∧
  ∃ s t, startedLog st = seq 1 s ∧ settled_turns st = seq 1 t ∧
         (t ≤ s ≤ S t)%nat ∧ (s < nextTurn st)%nat.
Proof.
  intros st.
  destruct (inv_chain_run cfg initial ls (inv_chain_initial)) as (d & ph & Hat & Hrest).
  pose proof (inv_run cfg ls) as Hreq. fold st in Hat, Hreq.
  revert Hat. unfold chain_at, chain_view. intros Hok. split.
  - assert (Hnd : NoDup (outstanding "turn/start" st)).
    { eapply sublist_NoDup; [|apply outstanding_keys].
      revert Hreq. unfold request_inv, request_view. intros Hr.
      exact (ro_nodup _ _ _ _ _ _ _ _ Hr). }
    destruct (outstanding "turn/start" st) as [|id0 l] eqn:Ho; [cbn; lia|].
    rewrite <- Ho in *. apply (nodup_constant _ id0 Hnd).
    assert (Hall : ∀ y, y ∈ outstanding "turn/start" st →
              ∃ w, ph = Active (KRunTurn2 (S d) w) (Parked (Request, y))).
    { intros y ([y' e] & -> & [Hm Hin]%list_elem_of_filter)%list_elem_of_fmap.
      exact (co_link _ _ _ _ _ _ _ _ _ _ Hok y' e Hin Hm). }
    intros y Hy. destruct (Hall y Hy) as [w ->].
    destruct (Hall id0) as [w' [= _ ->]]; [rewrite Ho; by left|]. done.
  - exists (started_count d ph), (settled_count d ph).
    destruct (chain_counts d ph _ (co_done _ _ _ _ _ _ _ _ _ _ Hok)) as [? ?].
    split_and!.
    + exact (co_started _ _ _ _ _ _ _ _ _ _ Hok).
    + exact (co_log _ _ _ _ _ _ _ _ _ _ Hok).
    + lia.
    + lia.
    + rewrite (co_next _ _ _ _ _ _ _ _ _ _ Hok). lia.
Qed.

(** What a settled result releases, read off the invariant of the queue. *)
Lemma queue_release (cfg : config) (ls : list label) (j : nat) (o : outcome) :
  let st := run cfg initial ls in
  microtasks (heap st) = [] →
  (1 ≤ j)%nat →
  outcome_of (Result, j) st = Some o →
  (S j < nextTurn st)%nat →
  S j ∈ startedLog st.
Proof.
  intros st Hmicro Hj Hout Hnext.
  destruct (inv_chain_run cfg initial ls (inv_chain_initial)) as (d & ph & Hat & Hrest).
  fold st in Hat. revert Hat. unfold chain_at, chain_view. intros Hok.
  pose proof (co_micro _ _ _ _ _ _ _ _ _ _ Hok) as Hq. rewrite Hmicro in Hq. cbn in Hq.
  pose proof (co_valid _ _ _ _ _ _ _ _ _ _ Hok) as Hv.
  pose proof (co_done _ _ _ _ _ _ _ _ _ _ Hok) as [Hdn Hidle].
  rewrite (co_next _ _ _ _ _ _ _ _ _ _ Hok) in Hnext.
  rewrite (co_started _ _ _ _ _ _ _ _ _ _ Hok).
  assert (Hstage : ph = Idle ∨ stage ph = 1%nat).
  { destruct ph as [|k [| | |p]]; try done; [by left|right].
    destruct Hv as (_ & _ & (Hp & _) & _). by destruct k. }
  assert (Hsc : settled_count d ph = d).
  { unfold settled_count. destruct Hstage as [E|E]; by rewrite E. }
  assert (Hjd : (j ≤ d)%nat).
  { destruct (decide (j ≤ d)%nat); [done|]. exfalso.
    destruct (co_result _ _ _ _ _ _ _ _ _ _ Hok j) as (_ & Hpend & _).
    unfold outcome_of in Hout. rewrite Hpend in Hout by (rewrite Hsc; lia). done. }
  apply elem_of_seq. unfold started_count. destruct Hstage as [->|Hs].
  - assert (d = turnQueue st) by by apply Hidle.
    change (stage Idle) with 0%nat. rewrite decide_False by lia. lia.
  - rewrite Hs, decide_True by lia. lia.
Qed.

(** Over every run of the client at most one "turn/start" request is
    awaiting its response; the tasks of the turns were called in the
    order the turns were queued, each after the result of the one before
    it was settled; the results were settled in the same order. *)
Theorem turns_run_one_at_a_time (cfg : config) (ls : list label) :
  let st := run cfg initial ls in
  (length (outstanding "turn/start" st) ≤ 1)%nat ∧
  ∃ s t, startedLog st = seq 1 s ∧ settled_turns st = seq 1 t ∧
         (t ≤ s ≤ S t)%nat ∧ (s < nextTurn st)%nat.
Proof.
  intros st.
  destruct (inv_chain_run cfg initial ls (inv_chain_initial)) as (d & ph & Hat & Hrest).
  pose proof (inv_run cfg ls) as Hreq. fold st in Hat, Hreq.
  revert Hat. unfold chain_at, chain_view. intros Hok. split.
  - assert (Hnd : NoDup (outstanding "turn/start" st)).
    { eapply sublist_NoDup; [|apply outstanding_keys].
      revert Hreq. unfold request_inv, request_view. intros Hr.
      exact (ro_nodup _ _ _ _ _ _ _ _ Hr). }
    destruct (outstanding "turn/start" st) as [|id0 l] eqn:Ho; [cbn; lia|].
    rewrite <- Ho in *. apply (nodup_constant _ id0 Hnd).
    assert (Hall : ∀ y, y ∈ outstanding "turn/start" st →
              ∃ w, ph = Active (KRunTurn2 (S d) w) (Parked (Request, y))).
    { intros y ([y' e] & -> & [Hm Hin]%list_elem_of_filter)%list_elem_of_fmap.
      exact (co_link _ _ _ _ _ _ _ _ _ _ Hok y' e Hin Hm). }
    intros y Hy. destruct (Hall y Hy) as [w ->].
    destruct (Hall id0) as [w' [= _ ->]]; [rewrite Ho; by left|]. done.
  - exists (started_count d ph), (settled_count d ph).
    destruct (chain_counts d ph _ (co_done _ _ _ _ _ _ _ _ _ _ Hok)) as [? ?].
    split_and!.
    + exact (co_started _ _ _ _ _ _ _ _ _ _ Hok).
    + exact (co_log _ _ _ _ _ _ _ _ _ _ Hok).
    + lia.
    + lia.
    + rewrite (co_next _ _ _ _ _ _ _ _ _ _ Hok). lia.
Qed.

(** Once the microtask queue is empty, the task of a queued turn has been
    called if the result of the turn before it is settled, fulfilled or
    rejected. *)
Theorem settled_turn_releases_next (cfg : config) (ls : list label) (j : nat) (o : outcome) :
  let st := run cfg initial ls in
  microtasks (heap st) = [] →
  (1 ≤ j)%nat →
  outcome_of (Result, j) st = Some o →
  (S j < nextTurn st)%nat →
  S j ∈ startedLog st.
Proof.
  intros st Hmicro Hj Hout Hnext.
  destruct (inv_chain_run cfg initial ls (inv_chain_initial)) as (d & ph & Hat & Hrest).
  fold st in Hat. revert Hat. unfold chain_at, chain_view. intros Hok.
  pose proof (co_micro _ _ _ _ _ _ _ _ _ _ Hok) as Hq. rewrite Hmicro in Hq. cbn in Hq.
  pose proof (co_valid _ _ _ _ _ _ _ _ _ _ Hok) as Hv.
  pose proof (co_done _ _ _ _ _ _ _ _ _ _ Hok) as [Hdn Hidle].
  rewrite (co_next _ _ _ _ _ _ _ _ _ _ Hok) in Hnext.
  rewrite (co_started _ _ _ _ _ _ _ _ _ _ Hok).
  assert (Hstage : ph = Idle ∨ stage ph = 1%nat).
  { destruct ph as [|k [| | |p]]; try done; [by left|right].
    destruct Hv as (_ & _ & (Hp & _) & _). by destruct k. }
  assert (Hsc : settled_count d ph = d).
  { unfold settled_count. destruct Hstage as [E|E]; by rewrite E. }
  assert (Hjd : (j ≤ d)%nat).
  { destruct (decide (j ≤ d)%nat); [done|]. exfalso.
    destruct (co_result _ _ _ _ _ _ _ _ _ _ Hok j) as (_ & Hpend & _).
    unfold outcome_of in Hout. rewrite Hpend in Hout by (rewrite Hsc; lia). done. }
  apply elem_of_seq. unfold started_count. destruct Hstage as [->|Hs].
  - assert (d = turnQueue st) by by apply Hidle.
    change (stage Idle) with 0%nat. rewrite decide_False by lia. lia.
  - rewrite Hs, decide_True by lia. lia.
Qed.

Lemma settled_turn_releases_next_witness :
  2%nat ∈ startedLog (run defaults initial first_turn_fails).
Proof.
  apply (settled_turn_releases_next defaults first_turn_fails 1 (Rejected exit_error));
    [reflexivity|lia|reflexivity|vm_compute; lia].
Defined.
(** C1.  Over every run of the client, whatever the calls of [queueTurn]
    and whatever else happens between them: at most one "turn/start"
    request is awaiting its response; the tasks of the turns were called
    in the order the turns were queued, each after the result of the one
    before it was settled, and the results were settled in the same
    order, so that at most one turn has been started and not settled;
    and once the microtask queue is empty, the task of a queued turn has
    been called if the result of the turn before it is settled,
    rejected as well as fulfilled. *)
Theorem turn_queue_serialises (cfg : config) (ls : list label) :
  let st := run cfg initial ls in
  (length (outstanding "turn/start" st) ≤ 1)%nat ∧
  (∃ s t, startedLog st = seq 1 s ∧ settled_turns st = seq 1 t ∧
          (t ≤ s ≤ S t)%nat ∧ (s < nextTurn st)%nat) ∧
  (∀ j o,
     microtasks (heap st) = [] → (1 ≤ j)%nat →
     outcome_of (Result, j) st = Some o → (S j < nextTurn st)%nat →
     S j ∈ startedLog st).
Proof.
  intros st. destruct (queue_order cfg ls) as [Hone Horder].
  split_and!; [done..|]. intros j o. apply queue_release.
Qed.

Lemma turn_queue_serialises_witness :
  outcome_of (Result, 1%nat) (run defaults initial first_turn_times_out) =
    Some (Rejected (VError "Codex request timed out for method initialize.")) ∧
  2%nat ∈ startedLog (run defaults initial first_turn_times_out).
Proof.
  split; [reflexivity|].
  apply (proj2 (proj2 (turn_queue_serialises defaults first_turn_times_out)) 1%nat
           (Rejected (VError "Codex request timed out for method initialize.")));
    [reflexivity|lia|reflexivity|vm_compute; lia].
Defined.
End turn_queue.

(** ** [ensureReady]: one attempt for all callers *)

Section ready_facts.
Import Js Client Facts.
Context (cfg : config).

Lemma run_cons st l ls : run cfg st (l :: ls) = run cfg (step cfg st l) ls.
Proof. done. Qed.

Lemma step_join st s :
  crashed st = false → startPromise st = Some s →
  truthy (threadId st) && child_alive st = false →
  step cfg st EnsureReady =
  subscribe (Start, s) (KReturnStart (nextEnsure st))
    (alloc (Ensure, nextEnsure st) (set_nextEnsure (S (nextEnsure st)) st)).
Proof.
  intros Hc Hs Hr. unfold step, ensureReady. rewrite Hc. cbv zeta.
  change (threadId (alloc _ _)) with (threadId st).
  change (child_alive (alloc _ _)) with (child_alive st).
  change (startPromise (alloc _ _)) with (startPromise st).
  by rewrite Hr, Hs.
Qed.

(** While a readiness attempt is in flight, [k] more calls of
    [ensureReady] write nothing, register no request, spawn no process and
    start no other attempt: the promise of each call waits for the promise
    of the attempt that is in flight. *)
Lemma ensureReady_coalesces (st : state) (s : nat) (ks : list kont) (k : nat) :
  crashed st = false →
  startPromise st = Some s →
  truthy (threadId st) && child_alive st = false →
  promises (heap st) !! (Start, s) = Some (Promise None ks) →
  let st' := run cfg st (repeat EnsureReady k) in
  (written st' = written st ∧ pendingRequests st' = pendingRequests st ∧
   child st' = child st ∧ threadId st' = threadId st ∧ crashed st' = false) ∧
  (startPromise st' = Some s ∧ nextStart st' = nextStart st ∧
   nextEnsure st' = (nextEnsure st + k)%nat) ∧
  promises (heap st') !! (Start, s) =
    Some (Promise None (ks ++ (KReturnStart <$> seq (nextEnsure st) k))) ∧
  (∀ i, (i < k)%nat →
     promises (heap st') !! (Ensure, (nextEnsure st + i)%nat) = Some (Promise None [])) ∧
  (∀ q, q ≠ (Start, s) → (q.1 = Ensure → (q.2 < nextEnsure st)%nat) →
     promises (heap st') !! q = promises (heap st) !! q) ∧
  microtasks (heap st') = microtasks (heap st).
Proof.
  revert st ks. induction k as [|k IH]; intros st ks Hc Hs Hr Hp.
  - cbn. rewrite Nat.add_0_r, app_nil_r. split_and!; try done. lia.
  - cbn [repeat]. cbv zeta. rewrite run_cons, (step_join st s Hc Hs Hr).
    set (n := nextEnsure st).
    set (st1 := subscribe _ _ _).
    assert (Hp0 : promises (h_alloc (Ensure, n) (heap st)) !! (Start, s) =
                  Some (Promise None ks)).
    { by rewrite lookup_h_alloc, decide_False. }
    assert (Hp1 : promises (heap st1) !! (Start, s) =
                  Some (Promise None (ks ++ [KReturnStart n]))).
    { subst st1. cbn -[h_alloc h_subscribe].
      by rewrite lookup_h_subscribe, decide_True, Hp0. }
    assert (He1 : promises (heap st1) !! (Ensure, n) = Some (Promise None [])).
    { subst st1. cbn -[h_alloc h_subscribe].
      rewrite lookup_h_subscribe, decide_False by done.
      by rewrite lookup_h_alloc, decide_True. }
    assert (Hm1 : microtasks (heap st1) = microtasks (heap st)).
    { subst st1. cbn -[h_alloc h_subscribe]. by rewrite microtasks_h_subscribe, Hp0, app_nil_r. }
    destruct (IH st1 (ks ++ [KReturnStart n])) as (Hf & Ha & Hst & He & Hfr & Hm); try done.
    change (nextEnsure st1) with (S n) in *.
    split_and!; try apply Hf; try apply Ha.
    + destruct Ha as (_ & _ & ->). lia.
    + rewrite Hst. by rewrite <- app_assoc.
    + intros [|i] Hi.
      * rewrite Nat.add_0_r, Hfr; [done|done|]. cbn. lia.
      * replace (n + S i)%nat with (S n + i)%nat by lia. apply He. lia.
    + intros q Hq Hlt. rewrite Hfr; [|done|intros E; specialize (Hlt E); lia].
      subst st1. cbn -[h_alloc h_subscribe].
      rewrite lookup_h_subscribe, decide_False by done.
      rewrite lookup_h_alloc, decide_False; [done|].
      intros ->. specialize (Hlt eq_refl). cbn in Hlt. lia.
    + by rewrite Hm.
Qed.

Lemma step_ready st :
  crashed st = false → truthy (threadId st) && child_alive st = true →
  step cfg st EnsureReady =
  settle (Ensure, nextEnsure st) (Fulfilled VUndef)
    (alloc (Ensure, nextEnsure st) (set_nextEnsure (S (nextEnsure st)) st)).
Proof.
  intros Hc Hr. unfold step, ensureReady. rewrite Hc. cbv zeta.
  change (threadId (alloc _ _)) with (threadId st).
  change (child_alive (alloc _ _)) with (child_alive st).
  by rewrite Hr.
Qed.

(** Once the client is ready, [k] calls of [ensureReady] write nothing,
    register no request and start no attempt; the promise of each call is
    fulfilled at once. *)
Lemma ensureReady_when_ready (st : state) (k : nat) :
  crashed st = false →
  truthy (threadId st) && child_alive st = true →
  let st' := run cfg st (repeat EnsureReady k) in
  (written st' = written st ∧ pendingRequests st' = pendingRequests st ∧
   child st' = child st ∧ threadId st' = threadId st ∧ crashed st' = false) ∧
  (startPromise st' = startPromise st ∧ nextStart st' = nextStart st ∧
   nextEnsure st' = (nextEnsure st + k)%nat) ∧
  (∀ i, (i < k)%nat →
     outcome_of (Ensure, (nextEnsure st + i)%nat) st' = Some (Fulfilled VUndef)) ∧
  (∀ q, (q.1 = Ensure → (q.2 < nextEnsure st)%nat) →
     promises (heap st') !! q = promises (heap st) !! q) ∧
  microtasks (heap st') = microtasks (heap st).
Proof.
  revert st. induction k as [|k IH]; intros st Hc Hr.
  - cbn. rewrite Nat.add_0_r. split_and!; try done. lia.
  - cbn [repeat]. cbv zeta. rewrite run_cons, (step_ready st Hc Hr).
    set (n := nextEnsure st).
    set (st1 := settle _ _ _).
    assert (Hp0 : promises (h_alloc (Ensure, n) (heap st)) !! (Ensure, n) =
                  Some (Promise None [])).
    { by rewrite lookup_h_alloc, decide_True. }
    assert (He1 : promises (heap st1) !! (Ensure, n) =
                  Some (Promise (Some (Fulfilled VUndef)) [])).
    { subst st1. cbn -[h_alloc h_settle].
      by rewrite lookup_h_settle, decide_True, Hp0. }
    assert (Hm1 : microtasks (heap st1) = microtasks (heap st)).
    { subst st1. cbn -[h_alloc h_settle]. rewrite microtasks_h_settle.
      unfold released. by rewrite Hp0, app_nil_r. }
    destruct (IH st1) as (Hf & Ha & He & Hfr & Hm); try done.
    change (nextEnsure st1) with (S n) in *.
    split_and!; try apply Hf; try apply Ha.
    + destruct Ha as (_ & _ & ->). lia.
    + intros [|i] Hi.
      * rewrite Nat.add_0_r. unfold outcome_of. rewrite Hfr; [by rewrite He1|]. cbn. lia.
      * replace (n + S i)%nat with (S n + i)%nat by lia. apply He. lia.
    + intros q Hlt. rewrite Hfr; [|intros E; specialize (Hlt E); lia].
      subst st1. cbn -[h_alloc h_settle].
      assert (q ≠ (Ensure, n)).
      { intros ->. specialize (Hlt eq_refl). cbn in Hlt. lia. }
      rewrite lookup_h_settle, decide_False by done.
      by rewrite lookup_h_alloc, decide_False.
    + by rewrite Hm.
Qed.

End ready_facts.

(** ** After [stop()] *)

Section stop_facts.
Import Js Client Facts.
Context (cfg : config).



Ltac down_norm :=
  unfold stopped_view, ensureReady, startInternal, sendRequest, sendNotification,
    writeMessage, createTurnWaiter, setTimeout, clearTimeout, forget, child_alive,
    spawnProcess, resetSession, kill, handleServerRequest, onChildError, queueTurn,
    clearRequests, stop, onExit;
  repeat progress cbn -[h_settle h_subscribe h_alloc filter map_get map_delete map_set
                        foldl].

Ltac down_start st H :=
  destruct H as [Hs Hc]; destruct st; cbn in Hs, Hc; subst.

Lemma down_view st st' : down st → stopped_view st' = stopped_view st → down st'.
Proof. intros [Hs Hc] [= E1 E2 _]. split; congruence. Qed.

Lemma down_ensureReady st :
  down st → stopped_view (ensureReady cfg st).2 = stopped_view st.
Proof. intros H. down_start st H. down_norm. by repeat case_match. Qed.

Lemma down_perform_all w t es st :
  stopped_view (foldl (λ st e, perform w t e st) st es) = stopped_view st.
Proof.
  revert st. induction es as [|e es IH]; intros st; [done|].
  cbn [foldl]. rewrite IH. by destruct e.
Qed.

Lemma down_call_waiter w f st : stopped_view (call_waiter w f st) = stopped_view st.
Proof.
  unfold call_waiter. destruct (waiters st !! w) as [entry|]; [|done].
  destruct (f (closure entry)) as [c es]. by rewrite down_perform_all.
Qed.

Lemma down_emitNotification message st :
  stopped_view (emitNotification message st) = stopped_view st.
Proof.
  unfold emitNotification. generalize (notificationListeners st).
  intros ws. revert st. induction ws as [|w ws IH]; intros st; [done|].
  cbn [foldl]. rewrite IH. destruct (decide _); [|done]. apply down_call_waiter.
Qed.

Lemma down_handleResponse message st :
  stopped_view (handleResponse message st) = stopped_view st.
Proof.
  unfold handleResponse. destruct (request_id _) as [id|]; [|done].
  destruct (map_get id _) as [entry|] eqn:Hg; [|done]. cbv zeta.
  unfold forget. cbn [pendingRequests clearTimeout set_timers]. rewrite Hg.
  by destruct (get_field _ _).
Qed.

Lemma down_handleLine l st :
  down st → stopped_view (handleLine l st) = stopped_view st.
Proof.
  intros H. destruct l as [| |message]; cbn [handleLine]; [done| |].
  - down_start st H. by down_norm.
  - repeat case_match; try done.
    + down_start st H. by down_norm.
    + apply down_handleResponse.
    + apply down_emitNotification.
Qed.

Lemma down_rejectAll error st :
  stopped_view (rejectAll error st) = stopped_view st.
Proof. unfold rejectAll. by rewrite rejectEach_eq. Qed.

Lemma down_stop st : down st → stopped_view (stop st) = stopped_view st.
Proof.
  intros H. unfold stop. cbv zeta.
  pose proof (down_rejectAll (VError "Codex client is shutting down.")
                (set_isStopping true st)) as Hr.
  destruct (rejectAll _ _) as [] eqn:E. down_start st H.
  revert Hr. down_norm. intros [= -> -> ->]. done.
Qed.

Lemma down_onExit st : down st → stopped_view (onExit cfg st) = stopped_view st.
Proof.
  intros H. unfold onExit. cbv zeta.
  pose proof (down_rejectAll (VError "Codex app-server exited.")
                (set_threadId VNull st)) as Hr.
  destruct (rejectAll _ _) as [] eqn:E. down_start st H.
  revert Hr. down_norm. intros [= -> -> ->]. done.
Qed.

Lemma down_sendRequest m ps st :
  child st = None →
  sendRequest cfg m ps st = (Throw (VError "Codex process is not running."), st).
Proof. intros Hc. unfold sendRequest, child_alive. by rewrite Hc. Qed.

Lemma down_dispose w st : stopped_view (dispose w st) = stopped_view st.
Proof. apply down_call_waiter. Qed.

Lemma down_settle p o st : stopped_view (settle p o st) = stopped_view st.
Proof. done. Qed.

Lemma down_subscribe p k st : stopped_view (subscribe p k st) = stopped_view st.
Proof. done. Qed.

Lemma down_react k o st :
  down st → stopped_view (react cfg k o st) = stopped_view st.
Proof.
  intros H. destruct k; cbn [react]; try done.
  - unfold runTurn.
    pose proof (down_ensureReady
      (alloc (RunTurn, i) (set_startedLog (startedLog st ++ [i]) st)) H) as He.
    destruct (ensureReady _ _) as [n0 st1]. exact He.
  - destruct o; [|done]. down_start st H. by down_norm.
  - destruct o; [|done]. cbv zeta. by destruct (negb _).
  - destruct o; [|done]. destruct (negb _); [done|].
    destruct (createTurnWaiter _ _ _) as [w st1] eqn:E.
    assert (Hd : down st1).
    { apply (down_view st); [done|]. by injection E as _ <-. }
    rewrite down_sendRequest by apply Hd.
    rewrite down_settle, down_dispose. by injection E as _ <-.
  - destruct o.
    + rewrite down_subscribe. destruct (truthy _); [apply down_call_waiter|done].
    + by rewrite down_settle, down_dispose.
  - by rewrite down_settle, down_dispose.
Qed.

Lemma down_fire cb st : down st → stopped_view (fire cfg cb st) = stopped_view st.
Proof.
  intros H. destruct cb as [id m|w|]; cbn [fire].
  - rewrite down_settle. unfold forget. by destruct (map_get _ _).
  - apply down_call_waiter.
  - pose proof (down_ensureReady st H) as He.
    destruct (ensureReady _ _) as [n st1]. exact He.
Qed.

Lemma down_step st l : down st → stopped_view (step cfg st l) = stopped_view st.
Proof.
  intros H. unfold step. destruct (crashed st); [done|].
  destruct l as [args| | |l|error| | |t|].
  - done.
  - by apply down_ensureReady.
  - by apply down_stop.
  - destruct (readline st); [|done]. by apply down_handleLine.
  - unfold onChildError. by destruct (startReject st).
  - by apply down_onExit.
  - destruct H as [_ Hc]. by rewrite Hc.
  - destruct (timers st !! t) as [[delay cb]|]; [|done].
    by rewrite down_fire.
  - destruct (microtasks (heap st)) as [|[k o] rest]; [done|].
    by rewrite down_react.
Qed.

(** After [stop()] the client stays down: whatever is called and whatever
    arrives afterwards, no process is spawned and no frame is written. *)
Theorem stopped_client_stays_down (st : state) (ls : list label) :
  crashed st = false →
  let st1 := step cfg st Stop in
  let st' := run cfg st1 ls in
  isStopping st' = true ∧ child st' = None ∧
  written st' = written st ∧ written st1 = written st.
Proof.
  intros Hc st1 st'.
  assert (H1 : down st1 ∧ written st1 = written st).
  { subst st1. unfold step. rewrite Hc. unfold stop. cbv zeta.
    pose proof (down_rejectAll (VError "Codex client is shutting down.")
                  (set_isStopping true st)) as Hr.
    destruct (rejectAll _ _) as [] eqn:E. revert Hr. down_norm.
    intros [= -> -> ->]. split; [split|]; by repeat case_match. }
  destruct H1 as [Hd Hw].
  assert (H2 : down st' ∧ written st' = written st1).
  { subst st'. clearbody st1. clear Hw. revert st1 Hd.
    induction ls as [|l ls IH]; intros st1 Hd; [done|].
    rewrite run_cons. pose proof (down_step st1 l Hd) as Hv.
    destruct (IH (step cfg st1 l)) as [Hd' Hw']; [by eapply down_view|].
    split; [done|]. rewrite Hw'. by injection Hv. }
  destruct H2 as [[Hs' Hc'] Hw']. split_and!; try done. congruence.
Qed.
End stop_facts.

Section stop_witness.
Import Js Client Facts.

Lemma stopped_client_stays_down_witness :
  child (run defaults (step defaults (run defaults initial turn_running) Stop)
           [EnsureReady; QueueTurn (TurnArgs "late" 5000 VUndef); Tick; Tick; Tick]) = None.
Proof.
  refine (proj1 (proj2 (stopped_client_stays_down defaults
                          (run defaults initial turn_running) _ _))).
  vm_compute; reflexivity.
Defined.
End stop_witness.

(** ** [ensureReady]: one handshake *)
Section handshake_facts.
Import Js Client Facts.
Context (cfg : config).

Lemma fresh_call : in_flight cfg AwaitInitialize (step cfg initial EnsureReady).
Proof.
  split; try reflexivity.
  - intros [|n] Hn; [reflexivity|]. change (S n < 1)%nat in Hn. lia.
  - intros p pr. cbn -[h_subscribe h_alloc].
    set (h0 := Heap _ _ _).
    intros Hp Hne. specialize (Hne 1%nat eq_refl).
    revert Hp.
    destruct (decide (p = (Start, 0%nat))) as [->|?]; [intros [= <-]; by repeat constructor|].
    destruct (decide (p = (StartInternal, 0%nat))) as [->|?]; [intros [= <-]; by repeat constructor|].
    destruct (decide (p = (Ensure, 0%nat))) as [->|?]; [intros [= <-]; by repeat constructor|].
    rewrite lookup_h_subscribe, decide_False by done.
    rewrite lookup_h_subscribe, decide_False by done.
    rewrite lookup_h_subscribe, decide_False by done.
    rewrite lookup_h_alloc, decide_False by done.
    rewrite lookup_h_alloc, decide_False by done.
    rewrite lookup_h_alloc, decide_False by done.
    rewrite lookup_h_alloc, decide_False by done.
    subst h0. cbn. intros [[= <-] <-]%lookup_singleton_Some. constructor.
  - cbn. split_and!; try reflexivity. by eexists.
Qed.

Lemma in_flight_not_ready sg st :
  in_flight cfg sg st → truthy (threadId st) && child_alive st = false.
Proof. intros H. by rewrite (fl_thread _ _ _ H). Qed.

Lemma waits_by_S n : waits_by <$> seq 0 (S (S n)) = (waits_by <$> seq 0 (S n)) ++ [KReturnStart (S n)].
Proof. by rewrite (seq_S (S n)), fmap_app. Qed.

Lemma passes_on_waits ns : Forall (λ k, passes_on k = true) (waits_by <$> ns).
Proof. apply Forall_fmap, Forall_forall. by intros [|n] _. Qed.

Lemma join_call sg st :
  in_flight cfg sg st →
  in_flight cfg sg (step cfg st EnsureReady) ∧
  nextEnsure (step cfg st EnsureReady) = S (nextEnsure st).
Proof.
  intros H. pose proof (in_flight_not_ready _ _ H) as Hnr.
  destruct H as [Hc Hch Hrl Hth Hsp Hns Hcalls HS HSI HE HR Hsg].
  rewrite (step_join cfg st 0 Hc Hsp Hnr).
  set (n := nextEnsure st) in *.
  assert (Hm : microtasks (h_subscribe (Start, 0%nat) (KReturnStart n)
                 (h_alloc (Ensure, n) (heap st))) = microtasks (heap st)).
  { rewrite microtasks_h_subscribe, lookup_h_alloc, decide_False, HS by done.
    by rewrite app_nil_r. }
  assert (Hl : ∀ p, p ≠ (Start, 0%nat) → p ≠ (Ensure, n) →
            promises (h_subscribe (Start, 0%nat) (KReturnStart n)
              (h_alloc (Ensure, n) (heap st))) !! p = promises (heap st) !! p).
  { intros p ??. by rewrite lookup_h_subscribe, decide_False, lookup_h_alloc, decide_False. }
  split; [|done]. split; cbn -[h_subscribe h_alloc seq]; try done.
  - lia.
  - rewrite lookup_h_subscribe, decide_True, lookup_h_alloc, decide_False, HS by done.
    destruct n as [|n']; [lia|]. by rewrite waits_by_S.
  - by rewrite Hl.
  - intros m Hm'. destruct (decide (m = n)) as [->|].
    + by rewrite lookup_h_subscribe, decide_False, lookup_h_alloc, decide_True by done.
    + rewrite Hl by congruence. apply HE. lia.
  - intros p pr Hp Hne. revert Hp.
    destruct (decide (p = (Start, 0%nat))) as [->|].
    { rewrite lookup_h_subscribe, decide_True, lookup_h_alloc, decide_False, HS by done.
      intros [= <-]. cbn. apply Forall_app. split; [apply passes_on_waits|by repeat constructor]. }
    destruct (decide (p = (Ensure, n))) as [->|].
    { rewrite lookup_h_subscribe, decide_False, lookup_h_alloc, decide_True by done.
      intros [= <-]. constructor. }
    rewrite Hl by done. intros Hp. by eapply HR.
  - destruct sg; cbn in *; rewrite ?Hm, ?Hl by done; done.
Qed.

Lemma idle_tick st : microtasks (heap st) = [] → step cfg st Tick = st.
Proof. intros Hm. unfold step. rewrite Hm. by destruct (crashed st). Qed.

Lemma result_fields message :
  is_result message = true →
  has_own message "id" = Some true ∧ has_own message "result" = Some true ∧
  has_own message "error" = Some false ∧ is_string (field message "method") = false ∧
  get_field "error" (match message with VObj fs => fs | _ => [] end) = None.
Proof.
  unfold is_result.
  destruct (has_own message "id") as [[]|] eqn:E1; try done.
  destruct (has_own message "result") as [[]|] eqn:E2; try done.
  destruct (has_own message "error") as [[]|] eqn:E3; try done.
  intros ?%negb_true_iff. split_and!; try done.
  destruct message; try done. cbn in E3. injection E3 as E3.
  apply bool_decide_eq_false in E3. by destruct (get_field "error" fields) eqn:E; [destruct E3|].
Qed.

Lemma result_step st message :
  crashed st = false → is_result message = true →
  step cfg st (Line (Json message)) =
  if readline st then handleResponse message st else st.
Proof.
  intros Hc (H1 & H2 & H3 & H4 & _)%result_fields. unfold step. rewrite Hc.
  destruct (readline st); [|done]. unfold handleLine. by rewrite H1, H2, H3, H4.
Qed.

(** A response for a request that is not pending. *)
Lemma stray_answer st message :
  crashed st = false → is_result message = true →
  (∀ id, request_id (field message "id") = Some id → map_get id (pendingRequests st) = None) →
  step cfg st (Line (Json message)) = st.
Proof.
  intros Hc Hr Hn. rewrite result_step by done. destruct (readline st); [|done].
  unfold handleResponse. destruct (request_id _) as [id|]; [|done]. by rewrite Hn.
Qed.

(** The response to the one pending request. *)
Lemma awaited_answer st k t m message :
  crashed st = false → readline st = true → is_result message = true →
  pendingRequests st = [(k, Pending t m)] →
  request_id (field message "id") = Some k →
  step cfg st (Line (Json message)) =
  settle (Request, k) (Fulfilled (field message "result"))
    (set_removedLog (removedLog st ++ [k])
       (set_pendingRequests [] (clearTimeout t st))).
Proof.
  intros Hc Hrl Hr Hp Hid. rewrite result_step, Hrl by done.
  destruct (result_fields _ Hr) as (_ & _ & _ & _ & He).
  unfold handleResponse. rewrite Hid, Hp, He. cbn. rewrite decide_True by done. cbn.
  unfold forget. cbn. rewrite Hp. cbn. rewrite decide_True by done.
  cbn. by rewrite decide_False by naive_solver.
Qed.

Lemma got_answer sg st k t m result :
  in_flight cfg sg st → awaited sg = Some k →
  pendingRequests st = [(k, Pending t m)] →
  (k = 2%nat → truthy (oprop (oprop result "thread") "id") = true) →
  let st' := settle (Request, k) (Fulfilled result)
               (set_removedLog (removedLog st ++ [k])
                  (set_pendingRequests [] (clearTimeout t st))) in
  in_flight cfg (match sg with AwaitInitialize => GotInitialize result | _ => GotThread result end) st'.
Proof.
  intros H Hk Hp Hres st'.
  destruct H as [Hc Hch Hrl Hth Hsp Hns Hcalls HS HSI HE HR Hsg].
  assert (Hrq : promises (heap st) !! (Request, k) =
                Some (Promise None [match sg with AwaitInitialize => KStartInternal1 0 | _ => KStartInternal2 0 end])).
  { destruct sg; cbn in Hk; simplify_eq; cbn in Hsg; by destruct Hsg as (_ & _ & _ & -> & _). }
  assert (Hl : ∀ p, p ≠ (Request, k) → promises (heap st') !! p = promises (heap st) !! p).
  { intros p ?. subst st'. cbn -[h_settle]. by rewrite lookup_h_settle, decide_False. }
  assert (Hm : microtasks (heap st') = microtasks (heap st) ++
             [(match sg with AwaitInitialize => KStartInternal1 0 | _ => KStartInternal2 0 end, Fulfilled result)]).
  { subst st'. cbn -[h_settle]. rewrite microtasks_h_settle. unfold released. by rewrite Hrq. }
  assert (Hp' : ∀ p pr, promises (heap st') !! p = Some pr →
             Forall (λ k, passes_on k = true) (reactions pr)).
  { intros p pr Hp'. destruct (decide (p = (Request, k))) as [->|].
    + revert Hp'. subst st'. cbn -[h_settle]. rewrite lookup_h_settle, decide_True, Hrq by done.
      intros [= <-]. constructor.
    + rewrite Hl in Hp' by done. eapply HR; [done|]. intros id Hid. congruence. }
  assert (Hsc : written st' = written st ∧ requestCounter st' = requestCounter st ∧
                pendingRequests st' = [] ∧ nextEnsure st' = nextEnsure st) by done.
  destruct Hsc as (Hw' & Hrc' & Hpr' & Hne').
  split; try done.
  - by rewrite Hl.
  - by rewrite Hl.
  - intros n Hn. rewrite Hl by done. by apply HE.
  - intros p pr Hq _. by eapply Hp'.
  - clearbody st'.
    destruct sg; cbn in Hk; simplify_eq; cbn in Hsg |- *;
      destruct Hsg as (Hw & Hrc & _ & _ & Hmt); rewrite Hm, Hmt, Hw', Hrc', Hpr';
      split_and!; try done.
    by apply Hres.
Qed.

End handshake_facts.

Section handshake_ticks.
Import Js Client Facts.
Context (cfg : config).

Lemma initialize_answered result st :
  in_flight cfg (GotInitialize result) st →
  in_flight cfg AwaitThread (step cfg st Tick) ∧
  nextEnsure (step cfg st Tick) = nextEnsure st.
Proof.
  intros [Hc Hch Hrl Hth Hsp Hns Hcalls HS HSI HE HR (Hw & Hrc & Hpr & Hmt)].
  destruct st as [ch rl pr rc nl th tq sp sr stp [pm mt sl] tm ws nt nw ntu ne ns wr cr rm sl'].
  cbn in * |-. subst.
  set (h := Heap pm [] sl).
  set (h' := h_subscribe (Request, 2%nat) (KStartInternal2 0) (h_alloc (Request, 2%nat) h)).
  assert (Hstep :
    step cfg
      (State (Some (ChildProcess false true)) true [] 2 nl VNull tq (Some 0%nat) sr stp
         (Heap pm [(KStartInternal1 0, Fulfilled result)] sl) tm ws nt nw ntu ne 1
         [initialize_frame] false rm sl') Tick =
    State (Some (ChildProcess false true)) true [(2%nat, Pending nt "thread/start")] 3 nl
      VNull tq (Some 0%nat) sr stp h'
      (<[nt := (requestTimeoutMs cfg, RequestTimer 2 "thread/start")]> tm) ws (S nt) nw ntu
      ne 1 (handshake cfg) false rm sl').
  { subst h h'. vm_compute. reflexivity. }
  rewrite Hstep. clear Hstep.
  assert (Hl : ∀ p, p ≠ (Request, 2%nat) → promises h' !! p = pm !! p).
  { intros p ?. subst h'. by rewrite lookup_h_subscribe, decide_False, lookup_h_alloc, decide_False. }
  assert (Hrq : promises h' !! (Request, 2%nat) = Some (Promise None [KStartInternal2 0])).
  { subst h'. by rewrite lookup_h_subscribe, decide_True, lookup_h_alloc, decide_True. }
  assert (Hm : microtasks h' = []).
  { subst h'. by rewrite microtasks_h_subscribe, lookup_h_alloc, decide_True. }
  clearbody h'.
  split; [|done]. split; cbn -[seq]; try done.
  - by rewrite Hl.
  - by rewrite Hl.
  - intros n Hn. rewrite Hl by done. by apply HE.
  - intros p pr' Hp Hne. rewrite Hl in Hp by (apply Hne; done). by eapply HR.
  - split_and!; [done|done|by eexists|exact Hrq|exact Hm].
Qed.


Lemma elem_of_waits n m : (m < n)%nat → waits_by m ∈ waits_by <$> seq 0 n.
Proof. intros Hm. apply list_elem_of_fmap. exists m. split; [done|]. apply elem_of_seq. lia. Qed.

Lemma thread_answered result st :
  in_flight cfg (GotThread result) st →
  ready cfg (step cfg st Tick) ∧ nextEnsure (step cfg st Tick) = nextEnsure st.
Proof.
  intros [Hc Hch Hrl Hth Hsp Hns Hcalls HS HSI HE HR (Hw & Hrc & Hpr & Hmt & Htr)].
  destruct st as [ch rl pr rc nl th tq sp sr stp [pm mt sl] tm ws nt nw ntu ne ns wr cr rm sl'].
  cbn in * |-. subst.
  set (h := Heap pm [] sl).
  set (tid := oprop (oprop result "thread") "id") in *.
  set (h' := h_settle (StartInternal, 0%nat) (Fulfilled VUndef) h).
  assert (Hstep :
    step cfg
      (State (Some (ChildProcess false true)) true [] 3 nl VNull tq (Some 0%nat) sr stp
         (Heap pm [(KStartInternal2 0, Fulfilled result)] sl) tm ws nt nw ntu ne 1
         (handshake cfg) false rm sl') Tick =
    State (Some (ChildProcess false true)) true [] 3 nl tid tq (Some 0%nat) sr stp
      (if negb (truthy tid)
       then h_settle (StartInternal, 0%nat)
              (Rejected (VError "thread/start did not return a thread id.")) h
       else h')
      tm ws nt nw ntu ne 1 (handshake cfg) false rm sl').
  { subst h h' tid. unfold step, react, settle, on_heap.
    cbn [crashed heap microtasks set_heap set_microtasks set_threadId threadId
         child readline pendingRequests requestCounter notificationListeners turnQueue
         startPromise startReject isStopping timers waiters nextTimer nextWaiter nextTurn
         nextEnsure nextStart written removedLog startedLog promises settleLog].
    by destruct (negb _). }
  rewrite Hstep, Htr. clear Hstep. cbn [negb].
  assert (Hl : ∀ p, p ≠ (StartInternal, 0%nat) → promises h' !! p = pm !! p).
  { intros p ?. subst h'. by rewrite lookup_h_settle, decide_False. }
  assert (Hsi : promises h' !! (StartInternal, 0%nat) =
                Some (Promise (Some (Fulfilled VUndef)) [])).
  { subst h'. rewrite lookup_h_settle, decide_True by done. cbn. by rewrite HSI. }
  assert (Hm : microtasks h' = [(KStartSettle 0, Fulfilled VUndef)]).
  { subst h'. rewrite microtasks_h_settle. unfold released. cbn. by rewrite HSI. }
  clearbody h'.
  split; [|done]. split; cbn -[seq]; try done.
  - rewrite Hm. by repeat constructor.
  - intros p pr' Hp. destruct (decide (p = (StartInternal, 0%nat))) as [->|].
    + rewrite Hsi in Hp. injection Hp as <-. constructor.
    + rewrite Hl in Hp by done. by eapply HR.
  - intros n Hn. right. rewrite Hl by done. split; [by apply HE|]. right.
    rewrite Hm. split; [cbn; set_solver|].
    eexists. rewrite Hl by done. split; [done|]. by apply elem_of_waits.
Qed.

(** Once the client is ready. *)
Lemma ready_call st :
  ready cfg st →
  ready cfg (step cfg st EnsureReady) ∧
  nextEnsure (step cfg st EnsureReady) = S (nextEnsure st).
Proof.
  intros [Hc Hch Hth Hns Hcalls Hw Hpr Hmt HR HE].
  rewrite (step_ready cfg st Hc) by (unfold child_alive; by rewrite Hth, Hch).
  set (n := nextEnsure st) in *.
  set (h' := h_settle (Ensure, n) (Fulfilled VUndef) (h_alloc (Ensure, n) (heap st))).
  assert (Hl : ∀ p, p ≠ (Ensure, n) → promises h' !! p = promises (heap st) !! p).
  { intros p ?. subst h'. by rewrite lookup_h_settle, decide_False, lookup_h_alloc, decide_False. }
  assert (Hen : promises h' !! (Ensure, n) = Some (Promise (Some (Fulfilled VUndef)) [])).
  { subst h'. rewrite lookup_h_settle, decide_True by done.
    by rewrite lookup_h_alloc, decide_True. }
  assert (Hm : microtasks h' = microtasks (heap st)).
  { subst h'. rewrite microtasks_h_settle. unfold released.
    rewrite lookup_h_alloc, decide_True by done. cbn. by rewrite app_nil_r. }
  split; [|done]. split; try done; unfold outcome_of; cbn -[h_settle h_alloc]; fold h'.
  - lia.
  - by rewrite Hm.
  - intros p pr' Hp. destruct (decide (p = (Ensure, n))) as [->|].
    + rewrite Hen in Hp. injection Hp as <-. constructor.
    + rewrite Hl in Hp by done. by eapply HR.
  - intros m Hm'. destruct (decide (m = n)) as [->|].
    + left. by rewrite Hen.
    + rewrite !Hl, Hm by congruence. apply HE. lia.
Qed.

Lemma settled_stays h q o p v :
  promises h !! p ≫= settlement = Some v →
  promises (h_settle q o h) !! p ≫= settlement = Some v.
Proof.
  intros Hp. rewrite lookup_h_settle. destruct (decide (p = q)) as [->|]; [|done].
  destruct (promises h !! q) as [[[?|] ?]|]; naive_solver.
Qed.

Lemma ready_tick st :
  ready cfg st →
  ready cfg (step cfg st Tick) ∧ nextEnsure (step cfg st Tick) = nextEnsure st.
Proof.
  intros H. destruct (microtasks (heap st)) as [|[k o] rest] eqn:Hq.
  { by rewrite idle_tick. }
  destruct H as [Hc Hch Hth Hns Hcalls Hw Hpr Hmt HR HE].
  rewrite (tick_eq cfg st k o rest Hc Hq).
  rewrite Hq in Hmt. apply Forall_cons in Hmt as [[Hk Ho] Hrest]. cbn in Hk, Ho. subst o.
  set (h0 := set_microtasks rest (heap st)).
  assert (Hgen : ∀ q st',
    heap st' = h_settle q (Fulfilled VUndef) h0 →
    crashed st' = false → child st' = child st → threadId st' = threadId st →
    nextStart st' = nextStart st → written st' = written st →
    pendingRequests st' = pendingRequests st → nextEnsure st' = nextEnsure st →
    (∀ m, k = waits_by m → q = (Ensure, m)) →
    (k = KStartSettle 0 → q = (Start, 0%nat)) →
    ready cfg st' ∧ nextEnsure st' = nextEnsure st).
  { intros q st' Hh Hc' Hch' Hth' Hns' Hw' Hpr' Hne' Hkq Hks.
    assert (Hl : ∀ p, p ≠ q → promises (heap st') !! p = promises (heap st) !! p).
    { intros p ?. by rewrite Hh, lookup_h_settle, decide_False. }
    assert (Hm : microtasks (heap st') =
                 rest ++ ((λ k, (k, Fulfilled VUndef)) <$> released q h0)).
    { by rewrite Hh, microtasks_h_settle. }
    assert (Hrel : Forall (λ k, passes_on k = true) (released q h0)).
    { unfold released, h0. cbn.
      destruct (promises (heap st) !! q) as [[[?|] ks]|] eqn:E; try constructor.
      exact (HR _ _ E). }
    split; [|done]. split; try congruence.
    - rewrite Hm. apply Forall_app. split; [done|].
      apply Forall_fmap. eapply Forall_impl; [exact Hrel|]. by intros.
    - intros p pr' Hp. destruct (decide (p = q)) as [->|].
      + revert Hp. rewrite Hh, lookup_h_settle, decide_True by done. cbn.
        destruct (promises (heap st) !! q) as [[[?|] ks]|] eqn:E; intros [= <-].
        * exact (HR _ _ E).
        * constructor.
      + rewrite Hl in Hp by done. by eapply HR.
    - intros m Hm'. rewrite Hne' in Hm'. unfold outcome_of.
      destruct (HE m Hm') as [Hf|[Hpend Hwait]].
      { left. rewrite Hh. by apply settled_stays. }
      destruct (decide (q = (Ensure, m))) as [->|Hqm].
      { left. rewrite Hh, lookup_h_settle, decide_True by done. cbn. by rewrite Hpend. }
      right. rewrite Hl by done. split; [done|].
      rewrite Hm, fmap_app. rewrite Hq in Hwait. cbn in Hwait.
      destruct Hwait as [Hin|[Hin (ks & HS & Hks')]].
      + left. apply elem_of_cons in Hin as [Heq|Hin]; [|set_solver].
        by specialize (Hkq m (eq_sym Heq)).
      + destruct (decide (q = (Start, 0%nat))) as [->|Hqs].
        * left. apply elem_of_app. right.
          unfold released, h0. cbn. rewrite HS.
          rewrite <- list_fmap_compose. apply list_elem_of_fmap. by exists (waits_by m).
        * apply elem_of_cons in Hin as [Heq|Hin].
          { specialize (Hks (eq_sym Heq)). done. }
          right. split; [set_solver|]. exists ks. split; [|done]. by rewrite Hl. }
  destruct k as [i args|i|i|i|n|n|n|n|n|i args|i w|i w|]; try done; cbn [react].
  - apply (Hgen (Ensure, n)); try done.
    intros [|m]; cbn; congruence.
  - apply (Hgen (Start, n)); try done.
    + intros [|m]; cbn; congruence.
    + congruence.
  - apply (Hgen (Ensure, n)); try done.
    intros [|m]; cbn; congruence.
Qed.

End handshake_ticks.

Section handshake_runs.
Import Js Client Facts.
Context (cfg : config).

Lemma await_pending sg st k :
  in_flight cfg sg st → awaited sg = Some k →
  ∃ t m, pendingRequests st = [(k, Pending t m)].
Proof.
  intros H Hk. pose proof (fl_stage _ _ _ H) as Hsg.
  destruct sg; cbn in Hk; simplify_eq; cbn in Hsg;
    destruct Hsg as (_ & _ & [t Hp] & _); eauto.
Qed.

Lemma got_pending sg st :
  in_flight cfg sg st → awaited sg = None → pendingRequests st = [].
Proof.
  intros H Hk. pose proof (fl_stage _ _ _ H) as Hsg.
  destruct sg; cbn in Hk; simplify_eq; cbn in Hsg; by destruct Hsg as (_ & _ & Hp & _).
Qed.

Lemma handshake_step st l :
  handshake_state cfg st → handshake_event l = true →
  handshake_state cfg (step cfg st l) ∧
  nextEnsure (step cfg st l) = (nextEnsure st + (if is_call l then 1 else 0))%nat.
Proof.
  intros Hst Hl. destruct l as [| | |[| |message]| | | | |]; try done; cbn [is_call].
  - destruct Hst as [->|sg H|H].
    + split; [eapply hs_in_flight, fresh_call|reflexivity].
    + destruct (join_call cfg sg st H). split; [by eapply hs_in_flight|lia].
    + destruct (ready_call cfg st H). split; [by apply hs_ready|lia].
  - cbn in Hl. apply andb_true_iff in Hl as [Hr Hth]. rewrite Nat.add_0_r.
    destruct Hst as [->|sg H|H].
    + split; [|done]. rewrite result_step by done. by apply hs_fresh.
    + destruct (awaited sg) as [k|] eqn:Hk.
      * destruct (await_pending sg st k H Hk) as (t & m & Hp).
        destruct (decide (request_id (field message "id") = Some k)) as [Hid|Hid].
        -- rewrite (awaited_answer cfg st k t m message) by (done || apply H).
           split; [|done]. eapply hs_in_flight. apply (got_answer cfg sg st k t m); try done.
           intros ->. by rewrite decide_True in Hth.
        -- rewrite stray_answer; [split; [by eapply hs_in_flight|done]|apply H|done|].
           intros id Hid'. rewrite Hp. cbn. rewrite decide_False; [done|congruence].
      * rewrite stray_answer; [split; [by eapply hs_in_flight|done]|apply H|done|].
        intros id _. by rewrite (got_pending sg st H Hk).
    + rewrite stray_answer; [split; [by apply hs_ready|done]|apply H|done|].
      intros id _. by rewrite (rd_pending _ _ H).
  - rewrite Nat.add_0_r. destruct Hst as [->|sg H|H].
    + split; [by apply hs_fresh|done].
    + destruct sg as [|result| |result].
      * rewrite idle_tick; [split; [by eapply hs_in_flight|done]|].
        by destruct (fl_stage _ _ _ H) as (_ & _ & _ & _ & ?).
      * destruct (initialize_answered cfg result st H). split; [by eapply hs_in_flight|done].
      * rewrite idle_tick; [split; [by eapply hs_in_flight|done]|].
        by destruct (fl_stage _ _ _ H) as (_ & _ & _ & _ & ?).
      * destruct (thread_answered cfg result st H). split; [by apply hs_ready|done].
    + destruct (ready_tick cfg st H). split; [by apply hs_ready|done].
Qed.

Lemma calls_snoc ls l : calls (ls ++ [l]) = (calls ls + (if is_call l then 1 else 0))%nat.
Proof.
  unfold calls. rewrite filter_app, length_app. f_equal.
  by destruct l.
Qed.

Lemma handshake_run ls :
  forallb handshake_event ls = true →
  handshake_state cfg (run cfg initial ls) ∧ nextEnsure (run cfg initial ls) = calls ls.
Proof.
  induction ls as [|l ls IH] using rev_ind; intros Hls.
  - split; [by apply hs_fresh|done].
  - rewrite forallb_app in Hls. apply andb_true_iff in Hls as [Hls Hl].
    cbn in Hl. rewrite andb_true_r in Hl.
    destruct (IH Hls) as [Hst Hn].
    unfold run. rewrite foldl_snoc. fold (run cfg initial ls).
    destruct (handshake_step _ l Hst Hl) as [Hst' Hn'].
    split; [done|]. by rewrite Hn', Hn, calls_snoc.
Qed.

End handshake_runs.

Section handshake_claim.
Import Js Client Facts.

(** C4.  [ensureReady] coalesces and is idempotent.

    On a fresh client, whatever the number of [ensureReady] calls and
    wherever they fall among the results the process sends and the
    microtasks: one attempt is started ([nextStart] is 1); while the client
    is not ready the frames written are "initialize" alone or the whole
    handshake, "initialize", "initialized", "thread/start", the promise of
    every call is pending, and the reactions on the promise of the attempt
    are those of the calls, one each; once the client is ready the frames
    written are the handshake and nothing else, and the promise of every
    call is fulfilled, or pending while microtasks remain to run.

    In any state with an attempt in flight, [k] more calls write nothing,
    register no request, spawn no process and start no attempt, and the
    promise of each call waits for the promise of that attempt.

    In any state where the client is ready, [k] calls write nothing and
    start no attempt, and the promise of each is fulfilled at once. *)
Theorem ensureReady_one_handshake (cfg : config) :
  (∀ ls, forallb handshake_event ls = true →
     let st := run cfg initial ls in
     nextEnsure st = calls ls ∧
     (calls ls = 0%nat → written st = []) ∧
     ((1 ≤ calls ls)%nat →
      nextStart st = 1%nat ∧
      if truthy (threadId st)
      then written st = handshake cfg ∧
           ∀ n, (n < calls ls)%nat →
             outcome_of (Ensure, n) st = Some (Fulfilled VUndef) ∨
             outcome_of (Ensure, n) st = None ∧ microtasks (heap st) ≠ []
      else (written st = [initialize_frame] ∨ written st = handshake cfg) ∧
           startPromise st = Some 0%nat ∧
           promises (heap st) !! (Start, 0%nat) =
             Some (Promise None (waits_by <$> seq 0 (calls ls))) ∧
           ∀ n, (n < calls ls)%nat →
             promises (heap st) !! (Ensure, n) = Some (Promise None []))) ∧
  (∀ st s ks k,
     crashed st = false → startPromise st = Some s →
     truthy (threadId st) && child_alive st = false →
     promises (heap st) !! (Start, s) = Some (Promise None ks) →
     let st' := run cfg st (repeat EnsureReady k) in
     (written st' = written st ∧ pendingRequests st' = pendingRequests st ∧
      child st' = child st ∧ threadId st' = threadId st ∧ crashed st' = false) ∧
     (startPromise st' = Some s ∧ nextStart st' = nextStart st ∧
      nextEnsure st' = (nextEnsure st + k)%nat) ∧
     promises (heap st') !! (Start, s) =
       Some (Promise None (ks ++ (KReturnStart <$> seq (nextEnsure st) k))) ∧
     (∀ i, (i < k)%nat →
        promises (heap st') !! (Ensure, (nextEnsure st + i)%nat) = Some (Promise None []))) ∧
  (∀ st k,
     crashed st = false → truthy (threadId st) && child_alive st = true →
     let st' := run cfg st (repeat EnsureReady k) in
     (written st' = written st ∧ pendingRequests st' = pendingRequests st ∧
      child st' = child st ∧ threadId st' = threadId st ∧ crashed st' = false) ∧
     (startPromise st' = startPromise st ∧ nextStart st' = nextStart st ∧
      nextEnsure st' = (nextEnsure st + k)%nat) ∧
     (∀ i, (i < k)%nat →
        outcome_of (Ensure, (nextEnsure st + i)%nat) st' = Some (Fulfilled VUndef))).
Proof.
  split_and!.
  - intros ls Hls st. destruct (handshake_run cfg ls Hls) as [Hst Hn]. fold st in Hst, Hn.
    split; [done|]. rewrite <- Hn. destruct Hst as [Hst|sg H|H].
    + rewrite Hst. split; [done|]. cbn. lia.
    + pose proof (fl_calls _ _ _ H). split; [lia|]. intros _.
      split; [apply H|]. rewrite (fl_thread _ _ _ H). cbn [truthy].
      split_and!; try apply H.
      pose proof (fl_stage _ _ _ H) as Hsg. destruct sg; cbn in Hsg; naive_solver.
    + pose proof (rd_calls _ _ H). split; [lia|]. intros _.
      split; [apply H|]. rewrite (rd_thread _ _ H).
      split; [apply H|]. intros n Hn'.
      destruct (rd_Ensure _ _ H n Hn') as [?|[Hp Hw]]; [by left|right].
      split; [unfold outcome_of; by rewrite Hp|].
      intros Hm. rewrite Hm in Hw. destruct Hw as [Hw|[Hw _]]; by apply elem_of_nil in Hw.
  - intros st s ks k Hc Hs Hr Hp st'.
    destruct (ensureReady_coalesces cfg st s ks k Hc Hs Hr Hp) as (HA & HB & HC & HD & _).
    exact (conj HA (conj HB (conj HC HD))).
  - intros st k Hc Hr st'.
    destruct (ensureReady_when_ready cfg st k Hc Hr) as (HA & HB & HC & _).
    exact (conj HA (conj HB HC)).
Qed.

Lemma ensureReady_one_handshake_witness :
  written (run defaults initial four_callers) = handshake defaults ∧
  ∀ n, (n < 4)%nat →
    outcome_of (Ensure, n) (run defaults initial four_callers) = Some (Fulfilled VUndef).
Proof.
  pose proof (proj1 (ensureReady_one_handshake defaults) four_callers eq_refl) as H.
  destruct H as (_ & _ & H). specialize (H ltac:(vm_compute; lia)).
  destruct H as [_ H].
  change (written (run defaults initial four_callers) = handshake defaults ∧
          ∀ n, (n < 4)%nat →
             outcome_of (Ensure, n) (run defaults initial four_callers) =
               Some (Fulfilled VUndef) ∨
             outcome_of (Ensure, n) (run defaults initial four_callers) = None ∧
             microtasks (heap (run defaults initial four_callers)) ≠ []) in H.
  destruct H as [Hw He]. split; [exact Hw|].
  intros n Hn. destruct (He n Hn) as [?|[_ Hm]]; [done|]. by destruct Hm.
Defined.
End handshake_claim.
